(** * OPD token allocation engine: slot generation, allocation, rebalancing

    A shallow embedding of [src/allocationService.js] (with the tables of
    [src/config.js] and the store of [src/db.js]) and the properties of it
    that the design document states.

    Conventions of the embedding.

    - [db.data] is the record [Db] of three arrays; JavaScript objects held in
      these arrays are shared, so a token that the code reaches through
      [getTokensForSlot] and then mutates is addressed here by its position in
      [db.data.tokens].
    - [nanoid()] draws from a supply of identifiers that never repeats; the
      position in the supply is the [seed] of the [World], next to [db.data].
    - A [dayjs] instant of the requested date is the number of minutes since
      that date's local midnight; [format('HH:mm')] prints it, and a
      well-formed [HH:mm] string parses to it.  This is the library on a
      readable date, in a time zone whose clock does not change on that day,
      for hours written as [HH:mm]; module [clock] has the generation of
      slots with the library's reading and printing left open.
    - An operation either returns, throws, or never returns (the slot loop
      with a non-positive duration): type [Outcome]. *)

From Stdlib Require Import ZArith Lia Bool Ascii String List.
From stdpp Require Import base option list sorting strings.

Local Open Scope string_scope.
Local Open Scope list_scope.
Local Open Scope Z_scope.

(** ** Configuration ([src/config.js]) *)

Module config.

Definition priorities : list (string * Z) :=
  [ ("EMERGENCY", 5); ("PAID", 4); ("FOLLOW_UP", 3); ("ONLINE", 2); ("WALK_IN", 1) ].

Definition tokenSources : list string :=
  [ "EMERGENCY"; "PAID"; "FOLLOW_UP"; "ONLINE"; "WALK_IN" ].

(** [priorities[source]]: the score bound to the key, [undefined] otherwise. *)
Fixpoint lookup (table : list (string * Z)) (key : string) : option Z :=
  match table with
  | [] => None
  | (k, v) :: rest => if String.eqb k key then Some v else lookup rest key
  end.

(** [tokenSources.includes(x)], where [x] may be [undefined]. *)
Definition includes (known : list string) (x : option string) : bool :=
  match x with
  | Some s => existsb (String.eqb s) known
  | None => false
  end.

End config.

(** ** Data model *)

Definition Id := nat.
Bind Scope nat_scope with Id.

Inductive Status := SCHEDULED | CANCELLED | NO_SHOW.

Definition Status_eqb (a b : Status) : bool :=
  match a, b with
  | SCHEDULED, SCHEDULED | CANCELLED, CANCELLED | NO_SHOW, NO_SHOW => true
  | _, _ => false
  end.

Record Doctor := mkDoctor {
  doc_id : Id;
  doc_name : string;
  doc_startTime : string;
  doc_endTime : string;
  slotDurationMinutes : Z;
  maxPatientsPerSlot : Z
}.

Record Slot := mkSlot {
  slot_id : Id;
  slot_doctorId : Id;
  slot_date : string;
  slot_startTime : string;
  slot_endTime : string;
  capacity : Z
}.

Record Token := mkToken {
  tok_id : Id;
  tok_doctorId : Id;
  slotId : Id;
  tok_date : string;
  patientName : string;
  source : string;
  priorityScore : Z;
  status : Status;
  createdAt : string
}.

Record Db := mkDb {
  doctors : list Doctor;
  slots : list Slot;
  tokens : list Token
}.

Record World := mkWorld {
  data : Db;
  seed : nat
}.

Definition emptyDb : Db := mkDb [] [] [].
Definition emptyWorld : World := mkWorld emptyDb 0.

(** Field assignments on a token object. *)
Definition set_slotId (s : Id) (t : Token) : Token :=
  mkToken (tok_id t) (tok_doctorId t) s (tok_date t) (patientName t)
          (source t) (priorityScore t) (status t) (createdAt t).

Definition set_status (st : Status) (t : Token) : Token :=
  mkToken (tok_id t) (tok_doctorId t) (slotId t) (tok_date t) (patientName t)
          (source t) (priorityScore t) st (createdAt t).

(** ** Outcomes and the monad of operations *)

Inductive Outcome (A : Type) :=
| Returns (a : A) (w : World)
| Throws (msg : string) (w : World)
| Diverges.
Arguments Returns {A} a w.
Arguments Throws {A} msg w.
Arguments Diverges {A}.

Definition M (A : Type) : Type := World -> Outcome A.

Definition ret {A} (a : A) : M A := fun w => Returns a w.

Definition bind {A B} (m : M A) (k : A -> M B) : M B :=
  fun w => match m w with
           | Returns a w' => k a w'
           | Throws msg w' => Throws msg w'
           | Diverges => Diverges
           end.

Definition throw {A} (msg : string) : M A := fun w => Throws msg w.
Definition diverge {A} : M A := fun _ => Diverges.
Definition getDb : M Db := fun w => Returns (data w) w.
Definition putDb (d : Db) : M unit := fun w => Returns tt (mkWorld d (seed w)).

#[global] Instance M_ret : MRet M := @ret.
#[global] Instance M_bind : MBind M := fun A B k m => bind m k.

(** [nanoid()]: the next identifier of the supply. *)
Definition nanoid : M Id :=
  fun w => Returns (seed w) (mkWorld (data w) (S (seed w))).

(** ** Time of day *)

Definition digit (n : Z) : ascii := ascii_of_nat (48 + Z.to_nat n).

Definition pad2 (n : Z) : string :=
  String (digit (n / 10)) (String (digit (n mod 10)) EmptyString).

(** [instant.format('HH:mm')] *)
Definition formatHHmm (t : Z) : string :=
  pad2 ((t / 60) mod 24) ++ ":" ++ pad2 (t mod 60).

Definition digit_of (c : ascii) : option Z :=
  let n := Z.of_nat (nat_of_ascii c) in
  if (48 <=? n) && (n <=? 57) then Some (n - 48) else None.

(** A well-formed [HH:mm] string as minutes since midnight. *)
Definition parseHHmm (s : string) : option Z :=
  match s with
  | String a (String b (String sep (String c (String d EmptyString)))) =>
      match digit_of a, digit_of b, digit_of c, digit_of d with
      | Some h1, Some h2, Some m1, Some m2 =>
          let hh := 10 * h1 + h2 in
          let mm := 10 * m1 + m2 in
          if Ascii.eqb sep ":" && (hh <? 24) && (mm <? 60)
          then Some (60 * hh + mm) else None
      | _, _, _, _ => None
      end
  | _ => None
  end.

(** [dayjs(`${dateStr}T${time}`)] for a readable date: [None] is an invalid
    instant.  The library reads more spellings of a time than [HH:mm], and
    reads no instant at all from an unreadable date; the model does not look
    at the date, reads the well-formed [HH:mm] and takes every other string
    for an invalid instant.  [clock.generateSlotsForDay] below takes the
    reading as it comes. *)
Definition dayjs (dateStr time : string) : option Z := parseHHmm time.

(** ** Slot generation *)

(** The [while (current.isBefore(end))] loop of [generateSlotsForDay], entered
    with two valid instants ([isBefore] is false as soon as one of them is
    invalid, see [generateSlotsForDay]).  [fuel] bounds the number of
    iterations and [diverge] stands for a loop that exhausts it. *)
Fixpoint slotLoop (fuel : nat) (doctor : Doctor) (dateStr : string)
         (current finish : Z) : M (list Slot) :=
  if current <? finish then
    match fuel with
    | O => diverge
    | S fuel' =>
        let slotEnd := current + slotDurationMinutes doctor in
        id ← nanoid;
        rest ← slotLoop fuel' doctor dateStr slotEnd finish;
        ret (mkSlot id (doc_id doctor) dateStr
                    (formatHHmm current) (formatHHmm slotEnd)
                    (maxPatientsPerSlot doctor) :: rest)
    end
  else ret [].

Definition slotMatches (doctorId : Id) (date : string) (s : Slot) : bool :=
  Nat.eqb (slot_doctorId s) doctorId && String.eqb (slot_date s) date.

Definition pushSlots (new : list Slot) : M unit :=
  d ← getDb;
  putDb (mkDb (doctors d) (slots d ++ new) (tokens d)).

(** The loop is given [end - start] iterations.  That is enough as soon as
    the duration is one minute or more, and with a duration of zero or less
    no amount is (lemmas [slotTimes_enough] and [slotTimes_diverges]), so the
    outcome is the one of the unbounded loop. *)
Definition generateSlotsForDay (doctor : Doctor) (date : string) : M (list Slot) :=
  let dateStr := date in
  d ← getDb;
  let existing := List.filter (slotMatches (doc_id doctor) dateStr) (slots d) in
  if (0 <? length existing)%nat then ret existing
  else
    let start := dayjs dateStr (doc_startTime doctor) in
    let finish := dayjs dateStr (doc_endTime doctor) in
    new ← match start, finish with
           | Some s, Some e => slotLoop (Z.to_nat (e - s)) doctor dateStr s e
           | _, _ => ret []
           end;
    pushSlots new;;
    ret new.

(** The cursor values of the loop, slot by slot: (start, end) instants. *)
Fixpoint slotTimes (fuel : nat) (dur current finish : Z) : option (list (Z * Z)) :=
  if current <? finish then
    match fuel with
    | O => None
    | S fuel' =>
        match slotTimes fuel' dur (current + dur) finish with
        | Some rest => Some ((current, current + dur) :: rest)
        | None => None
        end
    end
  else Some [].

(** ** Reading the store *)

(** [array.sort(cmp)]: the sort is stable, so the result is the one of a
    stable insertion sort; [le a b] stands for [cmp(a, b) <= 0]. *)
Section Sort.
Context {A : Type} (le : A -> A -> bool).

Fixpoint insertSorted (x : A) (l : list A) : list A :=
  match l with
  | [] => [x]
  | y :: r => if le x y then x :: y :: r else y :: insertSorted x r
  end.

Fixpoint sortBy (l : list A) : list A :=
  match l with
  | [] => []
  | x :: r => insertSorted x (sortBy r)
  end.
End Sort.

(** [(a, b) => a.startTime.localeCompare(b.startTime)] on [HH:mm] strings. *)
Definition byStartTime (a b : Slot) : bool :=
  String.leb (slot_startTime a) (slot_startTime b).

(** [(a, b) => b.priorityScore - a.priorityScore]; a token object is paired
    with its position in [db.data.tokens]. *)
Definition byPriorityDesc (a b : nat * Token) : bool :=
  priorityScore (snd b) <=? priorityScore (snd a).

(** [config.priorities[source] || 0] as a number: an unbound key and a score
    of zero both give zero.  This is the result for every string that is not
    a name of [Object.prototype], so for every source that passes the check
    of [allocateToken], the only caller; on those names the object literal
    hands out an inherited member, which [js.getPriorityScore] below
    accounts for. *)
Definition getPriorityScore (source : string) : Z :=
  match config.lookup config.priorities source with
  | Some v => if v =? 0 then 0 else v
  | None => 0
  end.

Definition getDoctorById (d : Db) (doctorId : Id) : option Doctor :=
  List.find (fun doc => Nat.eqb (doc_id doc) doctorId) (doctors d).

Definition getSlotsForDoctorDay (d : Db) (doctorId : Id) (date : string) : list Slot :=
  sortBy byStartTime (List.filter (slotMatches doctorId date) (slots d)).

Definition scheduledIn (sid : Id) (t : Token) : bool :=
  Nat.eqb (slotId t) sid && Status_eqb (status t) SCHEDULED.

Definition getTokensForSlot (d : Db) (sid : Id) : list (nat * Token) :=
  sortBy byPriorityDesc
    (List.filter (fun it => scheduledIn sid (snd it)) (imap pair (tokens d))).

(** [scheduled.length < slot.capacity] *)
Definition hasRoom (d : Db) (slot : Slot) : bool :=
  Z.of_nat (length (getTokensForSlot d (slot_id slot))) <? capacity slot.

(** ** Allocation *)

Record Request := mkRequest {
  req_doctorId : Id;
  req_date : string;
  req_source : option string;
  req_patientName : string;
  emergency : bool
}.

(** [token.slotId = s] on the token object at position [k]. *)
Definition assignSlotId (k : nat) (s : Id) : M unit :=
  d ← getDb;
  putDb (mkDb (doctors d) (slots d) (alter (set_slotId s) k (tokens d))).

Definition assignStatus (k : nat) (st : Status) : M unit :=
  d ← getDb;
  putDb (mkDb (doctors d) (slots d) (alter (set_status st) k (tokens d))).

(** The closure [createTokenInSlot] of [allocateToken]; [now] is the reading
    of the clock, [new Date().toISOString()]. *)
Definition createTokenInSlot (now : string) (doctorId : Id) (date patientName : string)
           (normalizedSource : string) (score : Z) (slot : Slot) : M Token :=
  id ← nanoid;
  let token := mkToken id doctorId (slot_id slot) date patientName
                       normalizedSource score SCHEDULED now in
  d ← getDb;
  putDb (mkDb (doctors d) (slots d) (tokens d ++ [token]));;
  ret token.

(** First loop of [allocateToken]; [Some t] is [return t] from inside the
    loop, [None] is falling out of it. *)
Fixpoint firstFit (create : Slot -> M Token) (sl : list Slot) : M (option Token) :=
  match sl with
  | [] => ret None
  | slot :: rest =>
      d ← getDb;
      if hasRoom d slot then (t ← create slot; ret (Some t))
      else firstFit create rest
  end.

(** Second loop of [allocateToken] (the emergency path); the slots after
    [slots[i]] are the tail of the list. *)
Fixpoint bumpLoop (create : Slot -> M Token) (score : Z) (sl : list Slot)
  : M (option Token) :=
  match sl with
  | [] => ret None
  | slot :: later =>
      d ← getDb;
      let scheduled := getTokensForSlot d (slot_id slot) in
      if Z.of_nat (length scheduled) <? capacity slot then
        (t ← create slot; ret (Some t))
      else
        match last scheduled with
        | None => bumpLoop create score later
        | Some (k, lowest) =>
            if score <=? priorityScore lowest then bumpLoop create score later
            else
              match List.find (hasRoom d) later with
              | Some laterSlot =>
                  assignSlotId k (slot_id laterSlot);;
                  t ← create slot; ret (Some t)
              | None => bumpLoop create score later
              end
        end
  end.

(** [emergency ? 'EMERGENCY' : source]; [None] is an absent [source]. *)
Definition normalizedSource (req : Request) : option string :=
  if emergency req then Some "EMERGENCY" else req_source req.

(** [now] is the reading of the clock that the created token records.  An
    absent source fails the [includes] test like any unknown one. *)
Definition allocateToken (now : string) (req : Request) : M (option Token) :=
  let doctorId := req_doctorId req in
  let date := req_date req in
  match normalizedSource req with
  | None => throw "Invalid token source"
  | Some src =>
      if negb (config.includes config.tokenSources (normalizedSource req))
      then throw "Invalid token source"
      else
        d ← getDb;
        match getDoctorById d doctorId with
        | None => throw "Doctor not found"
        | Some doctor =>
            generateSlotsForDay doctor date;;
            d ← getDb;
            let sl := getSlotsForDoctorDay d doctorId date in
            let score := getPriorityScore src in
            let create :=
              createTokenInSlot now doctorId date (req_patientName req) src score in
            r ← firstFit create sl;
            match r with
            | Some t => ret (Some t)
            | None =>
                if negb (emergency req) then ret None
                else bumpLoop create score sl
            end
        end
  end.

(** ** Rebalancing and the token life cycle *)

(** [slots.findIndex(p)]; [None] is [-1]. *)
Fixpoint findIndex {A} (p : A -> bool) (l : list A) : option nat :=
  match l with
  | [] => None
  | x :: r => if p x then Some O else option_map S (findIndex p r)
  end.

(** The loop of [rebalanceAfterFreeSlot] over [slots[freedIndex + 1 ..]]. *)
Fixpoint pullLoop (freedSlotId : Id) (later : list Slot) : M unit :=
  match later with
  | [] => ret tt
  | laterSlot :: rest =>
      d ← getDb;
      match getTokensForSlot d (slot_id laterSlot) with
      | [] => pullLoop freedSlotId rest
      | (k, candidate) :: _ => assignSlotId k freedSlotId
      end
  end.

Definition rebalanceAfterFreeSlot (doctorId : Id) (date : string) (freedSlotId : Id)
  : M unit :=
  d ← getDb;
  let sl := getSlotsForDoctorDay d doctorId date in
  match findIndex (fun s => Nat.eqb (slot_id s) freedSlotId) sl with
  | None => ret tt
  | Some freedIndex => pullLoop freedSlotId (drop (S freedIndex) sl)
  end.

(** [db.data.tokens.find(t => t.id === tokenId)], with the position of the
    object found. *)
Definition findToken (d : Db) (tokenId : Id) : option (nat * Token) :=
  List.find (fun it => Nat.eqb (tok_id (snd it)) tokenId) (imap pair (tokens d)).

(** [return token]: the object at position [k], as it is now. *)
Definition returnToken (k : nat) : M (option Token) :=
  d ← getDb; ret (tokens d !! k).

Definition cancelToken (tokenId : Id) : M (option Token) :=
  d ← getDb;
  match findToken d tokenId with
  | None => ret None
  | Some (k, token) =>
      if negb (Status_eqb (status token) SCHEDULED) then ret None
      else
        assignStatus k CANCELLED;;
        rebalanceAfterFreeSlot (tok_doctorId token) (tok_date token) (slotId token);;
        returnToken k
  end.

Definition markNoShow (tokenId : Id) : M (option Token) :=
  d ← getDb;
  match findToken d tokenId with
  | None => ret None
  | Some (k, token) =>
      if negb (Status_eqb (status token) SCHEDULED) then ret None
      else
        assignStatus k NO_SHOW;;
        rebalanceAfterFreeSlot (tok_doctorId token) (tok_date token) (slotId token);;
        returnToken k
  end.

(** ** Schedule view *)

Record TokenView := mkTokenView {
  tv_id : Id;
  tv_patientName : string;
  tv_source : string;
  tv_priorityScore : Z;
  tv_status : Status
}.

Record SlotView := mkSlotView {
  sv_slotId : Id;
  sv_startTime : string;
  sv_endTime : string;
  sv_capacity : Z;
  booked : nat;
  sv_tokens : list TokenView
}.

Definition getSchedule (doctorId : Id) (date : string) : M (list SlotView) :=
  d ← getDb;
  let sl := getSlotsForDoctorDay d doctorId date in
  ret (map (fun slot =>
              let scheduled := getTokensForSlot d (slot_id slot) in
              mkSlotView (slot_id slot) (slot_startTime slot) (slot_endTime slot)
                         (capacity slot) (length scheduled)
                         (map (fun it => let t := snd it in
                                 mkTokenView (tok_id t) (patientName t) (source t)
                                             (priorityScore t) (status t))
                              scheduled))
           sl).

(** The host's [POST /api/doctors] handler ([src/app.js]), after its check
    that every field is present. *)
Definition createDoctor (name startTime endTime : string) (duration maxPatients : Z)
  : M Doctor :=
  id ← nanoid;
  let doctor := mkDoctor id name startTime endTime duration maxPatients in
  d ← getDb;
  putDb (mkDb (doctors d ++ [doctor]) (slots d) (tokens d));;
  ret doctor.

(** ** Notions used to state the properties *)

(** The number of SCHEDULED tokens that reference slot [sid]. *)
Definition occupancy (ts : list Token) (sid : Id) : nat :=
  length (List.filter (scheduledIn sid) ts).

(** The SCHEDULED token objects of slot [sid] in storage order, each with its
    position: [getTokensForSlot] before its sort. *)
Definition scheduledAt (d : Db) (sid : Id) : list (nat * Token) :=
  List.filter (fun it => scheduledIn sid (snd it)) (imap pair (tokens d)).

(** The slot objects that the loop builds out of its cursor values, with the
    identifiers [n], [n + 1], ... of the supply. *)
Fixpoint slotsOf (doctor : Doctor) (dateStr : string) (n : nat) (ts : list (Z * Z))
  : list Slot :=
  match ts with
  | [] => []
  | (s, e) :: r =>
      mkSlot n (doc_id doctor) dateStr (formatHHmm s) (formatHHmm e)
             (maxPatientsPerSlot doctor) :: slotsOf doctor dateStr (S n) r
  end.

(** The number of slots of a window, and the cursor values in closed form. *)
Definition slotCount (dur start finish : Z) : nat :=
  Z.to_nat ((finish - start + dur - 1) / dur).

Definition slotGrid (dur start : Z) (n : nat) : list (Z * Z) :=
  map (fun i => (start + Z.of_nat i * dur, start + (Z.of_nat i + 1) * dur)) (seq 0 n).

(** The slots already stored for a doctor and a date. *)
Definition existingSlots (w : World) (doctor : Doctor) (date : string) : list Slot :=
  List.filter (slotMatches (doc_id doctor) date) (slots (data w)).

(** The world after [new] has been pushed on [db.data.slots] and one
    identifier drawn for each of them. *)
Definition withSlots (w : World) (new : list Slot) : World :=
  mkWorld (mkDb (doctors (data w)) (slots (data w) ++ new) (tokens (data w)))
          (seed w + length new).

(** Sample data for the closed examples. *)
Definition drA : Doctor := mkDoctor 0 "Dr. A" "09:00" "09:30" 15 1.
Definition drOdd : Doctor := mkDoctor 0 "Dr. Odd" "09:00" "09:40" 15 1.
Definition day1 : string := "2024-01-01".

(** The two slots of [drA], 09:00-09:15 and 09:15-09:30, and the world that
    holds only them. *)
Definition slotsA : list Slot := slotsOf drA day1 0 [(540, 555); (555, 570)].
Definition wA : World := withSlots emptyWorld slotsA.

(** The token that [createTokenInSlot] builds in world [w], and the world
    after it has been pushed on [db.data.tokens]. *)
Definition newToken (w : World) (now : string) (doctorId : Id)
           (date patientName src : string) (score : Z) (slot : Slot) : Token :=
  mkToken (seed w) doctorId (slot_id slot) date patientName src score SCHEDULED now.

Definition withToken (w : World) (t : Token) : World :=
  mkWorld (mkDb (doctors (data w)) (slots (data w)) (tokens (data w) ++ [t]))
          (S (seed w)).

Definition withTokens (w : World) (ts : list Token) : World :=
  mkWorld (mkDb (doctors (data w)) (slots (data w)) ts) (seed w).

(** What the emergency loop decides, apart from its effects: nothing, a plain
    creation in a slot with room, or the move of the token object at position
    [k] to slot [target] followed by a creation in [slot]. *)
Inductive Plan :=
| CreateIn (slot : Slot)
| BumpThenCreate (k : nat) (target : Id) (slot : Slot).

Fixpoint bumpPlan (d : Db) (score : Z) (sl : list Slot) : option Plan :=
  match sl with
  | [] => None
  | slot :: later =>
      if hasRoom d slot then Some (CreateIn slot)
      else
        match last (getTokensForSlot d (slot_id slot)) with
        | None => bumpPlan d score later
        | Some (k, lowest) =>
            if score <=? priorityScore lowest then bumpPlan d score later
            else
              match List.find (hasRoom d) later with
              | Some laterSlot => Some (BumpThenCreate k (slot_id laterSlot) slot)
              | None => bumpPlan d score later
              end
        end
  end.

(** ** The engine as a state machine *)

(** The operations that [allocationService.js] exports, and the creation of
    a doctor by the host. *)
Inductive Op :=
| OpCreateDoctor (name startTime endTime : string) (duration maxPatients : Z)
| OpGenerateSlotsForDay (doctor : Doctor) (date : string)
| OpAllocateToken (now : string) (req : Request)
| OpCancelToken (tokenId : Id)
| OpMarkNoShow (tokenId : Id)
| OpGetSchedule (doctorId : Id) (date : string).

(** The world that an operation leaves, if it comes back at all. *)
Definition settle {A} (o : Outcome A) : option World :=
  match o with
  | Returns _ w => Some w
  | Throws _ w => Some w
  | Diverges => None
  end.

Definition exec (op : Op) (w : World) : option World :=
  match op with
  | OpCreateDoctor name s e dur cap => settle (createDoctor name s e dur cap w)
  | OpGenerateSlotsForDay doctor date => settle (generateSlotsForDay doctor date w)
  | OpAllocateToken now req => settle (allocateToken now req w)
  | OpCancelToken tokenId => settle (cancelToken tokenId w)
  | OpMarkNoShow tokenId => settle (markNoShow tokenId w)
  | OpGetSchedule doctorId date => settle (getSchedule doctorId date w)
  end.

(** The data model asks for a positive capacity of every doctor. *)
Definition admissible (op : Op) : Prop :=
  match op with
  | OpCreateDoctor _ _ _ _ cap => 0 < cap
  | OpGenerateSlotsForDay doctor _ => 0 < maxPatientsPerSlot doctor
  | _ => True
  end.

Inductive reachable : World -> Prop :=
| reachable_empty : reachable emptyWorld
| reachable_step w op w' :
    reachable w -> admissible op -> exec op w = Some w' -> reachable w'.

(** The world after a run of operations, for the closed examples. *)
Fixpoint execAll (ops : list Op) (w : World) : World :=
  match ops with
  | [] => w
  | op :: rest => match exec op w with
                  | Some w' => execAll rest w'
                  | None => w
                  end
  end.

(** What holds of every reachable world. *)
Record Inv (w : World) : Prop := mkInv {
  inv_capacity : forall slot, In slot (slots (data w)) ->
    Z.of_nat (occupancy (tokens (data w)) (slot_id slot)) <= capacity slot;
  inv_slot_ids : NoDup (map slot_id (slots (data w)));
  inv_slot_fresh : forall slot, In slot (slots (data w)) -> (slot_id slot < seed w)%nat;
  inv_token_fresh : forall t, In t (tokens (data w)) -> (slotId t < seed w)%nat;
  inv_doctors : forall doc, In doc (doctors (data w)) -> 0 < maxPatientsPerSlot doc
}.

(** What the loop of [rebalanceAfterFreeSlot] decides: the position of the
    token object to move, if any. *)
Fixpoint pullPlan (d : Db) (later : list Slot) : option nat :=
  match later with
  | [] => None
  | laterSlot :: rest =>
      match getTokensForSlot d (slot_id laterSlot) with
      | [] => pullPlan d rest
      | (k, _) :: _ => Some k
      end
  end.

Definition rebalancePlan (d : Db) (doctorId : Id) (date : string) (freedSlotId : Id)
  : option nat :=
  let sl := getSlotsForDoctorDay d doctorId date in
  match findIndex (fun s => Nat.eqb (slot_id s) freedSlotId) sl with
  | None => None
  | Some freedIndex => pullPlan d (drop (S freedIndex) sl)
  end.

(** The tokens after a rebalancing of [ts] towards slot [freedSlotId]. *)
Definition rebalanced (d : Db) (doctorId : Id) (date : string) (freedSlotId : Id)
  : list Token :=
  match rebalancePlan d doctorId date freedSlotId with
  | Some k => alter (set_slotId freedSlotId) k (tokens d)
  | None => tokens d
  end.

(** The store after the status of the token object at position [k] has been
    set, before the rebalancing. *)
Definition retired (d : Db) (k : nat) (st : Status) : Db :=
  mkDb (doctors d) (slots d) (alter (set_status st) k (tokens d)).

(** A day of [drA] for the closed examples: the doctor is created (identifier
    0, slots 1 and 2 at the first allocation), a walk-in (token 3) and an
    online patient (token 4) fill the two slots, and the walk-in cancels. *)
Definition requestA (src : option string) (emerg : bool) : Request :=
  mkRequest 0 day1 src "patient" emerg.

Definition opsWalkIn : list Op :=
  [ OpCreateDoctor "Dr. A" "09:00" "09:30" 15 1;
    OpAllocateToken "t1" (requestA (Some "WALK_IN") false) ].

Definition opsFull : list Op :=
  opsWalkIn ++ [ OpAllocateToken "t2" (requestA (Some "ONLINE") false) ].

Definition opsCancelled : list Op := opsFull ++ [ OpCancelToken 3 ].

Definition wWalkIn : World := execAll opsWalkIn emptyWorld.
Definition wFull : World := execAll opsFull emptyWorld.
Definition wCancelled : World := execAll opsCancelled emptyWorld.

(** The two slots of that day. *)
Definition slotA1 : Slot := mkSlot 1 0 day1 "09:00" "09:15" 1.
Definition slotA2 : Slot := mkSlot 2 0 day1 "09:15" "09:30" 1.

(** The emergency token of the closed examples. *)
Definition tokenE (id slot : Id) : Token :=
  mkToken id 0 slot day1 "patient" "EMERGENCY" 5 SCHEDULED "t3".

(** The walk-in token of [wWalkIn], and the world that the emergency loop
    leaves when it is run on its own from [wWalkIn]: the walk-in has gone to
    the second slot and the emergency token is in the first. *)
Definition walkIn3 : Token :=
  mkToken 3 0 1 day1 "patient" "WALK_IN" 1 SCHEDULED "t1".

Definition wBumped : World :=
  withToken (withTokens wWalkIn (alter (set_slotId 2) 0%nat (tokens (data wWalkIn))))
            (tokenE 4 1).

(** ** The rebalancing as the design document words it *)

(** The slots of the day strictly after the freed one, if the freed slot is
    in the day's sequence. *)
Definition laterSlots (day : list Slot) (freedSlotId : Id) : option (list Slot) :=
  match findIndex (fun s => Nat.eqb (slot_id s) freedSlotId) day with
  | Some i => Some (drop (S i) day)
  | None => None
  end.

(** The token object at position [k] is the highest-priority SCHEDULED token
    of slot [sid], the earliest in storage order among those of its score. *)
Definition bestScheduled (ts : list Token) (sid : Id) (k : nat) (c : Token) : Prop :=
  ts !! k = Some c /\ scheduledIn sid c = true /\
  forall j u, ts !! j = Some u -> scheduledIn sid u = true ->
    priorityScore u <= priorityScore c /\
    (priorityScore u = priorityScore c -> (k <= j)%nat).

(** Nothing changes if the freed slot is unknown or no later slot holds a
    SCHEDULED token; otherwise the best token of the first later slot that
    holds one moves to the freed slot, and nothing else changes. *)
Inductive RebalanceSpec (ts : list Token) (day : list Slot) (freed : Id)
  : list Token -> Prop :=
| rebalance_unknown_slot :
    laterSlots day freed = None -> RebalanceSpec ts day freed ts
| rebalance_nobody later :
    laterSlots day freed = Some later ->
    (forall s, In s later -> occupancy ts (slot_id s) = 0%nat) ->
    RebalanceSpec ts day freed ts
| rebalance_move pre laterSlot post k c :
    laterSlots day freed = Some (pre ++ laterSlot :: post) ->
    (forall s, In s pre -> occupancy ts (slot_id s) = 0%nat) ->
    bestScheduled ts (slot_id laterSlot) k c ->
    RebalanceSpec ts day freed (alter (set_slotId freed) k ts).

(** Position [i] holds a token whose slot is not the same in [ts] and [ts']. *)
Definition slotChanged (ts ts' : list Token) (i : nat) : Prop :=
  exists a b, ts !! i = Some a /\ ts' !! i = Some b /\ slotId a <> slotId b.

(** Two tokens that the scheduling cannot tell apart, and the same for token
    objects with their positions. *)
Definition alike (a b : Token) : Prop :=
  slotId a = slotId b /\ priorityScore a = priorityScore b
  /\ (status a = SCHEDULED <-> status b = SCHEDULED).

Definition alikeAt (x y : nat * Token) : Prop :=
  fst x = fst y /\ alike (snd x) (snd y).

(** ** Chronological order *)

(** A sequence of slots is chronological when its start times are the prints
    of minutes of the day that never decrease along it. *)
Definition chronological (day : list Slot) : Prop :=
  exists cs : list Z,
    map slot_startTime day = map formatHHmm cs
    /\ Forall (fun c => 0 <= c < 1440) cs
    /\ StronglySorted Z.le cs.

(** Every stored slot starts at the print of a minute of the day. *)
Definition slotTimesOk (w : World) : Prop :=
  forall slot, In slot (slots (data w)) ->
    exists c, 0 <= c < 1440 /\ slot_startTime slot = formatHHmm c.

(** ** Further notions *)

(** The view of a token in a schedule: the object literal that [getSchedule]
    builds for it. *)
Definition viewOf (t : Token) : TokenView :=
  mkTokenView (tok_id t) (patientName t) (source t) (priorityScore t) (status t).

(** The order in which [getTokensForSlot] lists the token objects of a slot:
    higher scores first and, at equal scores, earlier positions first. *)
Definition servedBefore (a b : nat * Token) : Prop :=
  priorityScore (snd b) < priorityScore (snd a)
  \/ (priorityScore (snd a) = priorityScore (snd b) /\ (fst a < fst b)%nat).

(** ** Member access on the object literals

    [config.priorities] and the [classes] of the page are object literals:
    [table[key]] finds the table's own keys and, after them, the names that
    every object literal inherits from [Object.prototype]. *)
Module js.

Definition objectPrototype : list string :=
  [ "constructor"; "__defineGetter__"; "__defineSetter__"; "hasOwnProperty";
    "__lookupGetter__"; "__lookupSetter__"; "isPrototypeOf";
    "propertyIsEnumerable"; "toString"; "valueOf"; "__proto__";
    "toLocaleString" ].

(** A value read from a table whose own values are of type [A]: such a
    value, or the member of [Object.prototype] of that name (a function, or
    the prototype itself for [__proto__]). *)
Inductive Value (A : Type) :=
| Own (v : A)
| Inherited (name : string).
Arguments Own {A} v.
Arguments Inherited {A} name.

(** [table[key]], given what the table itself binds to the key; [None] is
    [undefined]. *)
Definition member {A} (own : option A) (key : string) : option (Value A) :=
  match own with
  | Some v => Some (Own v)
  | None =>
      if existsb (String.eqb key) objectPrototype then Some (Inherited key)
      else None
  end.

(** [getPriorityScore] on any string: [config.priorities[source] || 0].  An
    inherited member is an object, which [||] lets through. *)
Definition getPriorityScore (source : string) : Value Z :=
  match member (config.lookup config.priorities source) source with
  | Some (Own v) => Own (if v =? 0 then 0 else v)
  | Some (Inherited name) => Inherited name
  | None => Own 0
  end.

End js.

(** [getBadgeClass] of [public/js/app.js]: [classes[source] || '']. *)
Module ui.

Definition classes : list (string * string) :=
  [ ("EMERGENCY", "badge-emergency"); ("PAID", "badge-paid");
    ("ONLINE", "badge-online"); ("WALK_IN", "badge-walkin");
    ("FOLLOW_UP", "badge-followup") ].

Fixpoint lookup (table : list (string * string)) (key : string) : option string :=
  match table with
  | [] => None
  | (k, v) :: rest => if String.eqb k key then Some v else lookup rest key
  end.

Definition getBadgeClass (source : string) : js.Value string :=
  match js.member (lookup classes source) source with
  | Some (js.Own v) => js.Own (if String.eqb v "" then "" else v)
  | Some (js.Inherited name) => js.Inherited name
  | None => js.Own ""
  end.

End ui.

(** A request with the [emergency] flag replaced by the source EMERGENCY. *)
Definition asEmergencySource (req : Request) : Request :=
  mkRequest (req_doctorId req) (req_date req) (Some "EMERGENCY")
            (req_patientName req) false.

(** A stored token refers to a stored slot of its own doctor and date and to
    a stored doctor, and carries a known source with the score of that
    source. *)
Definition tokenWellFormed (w : World) (t : Token) : Prop :=
  (exists slot, In slot (slots (data w)) /\ slot_id slot = slotId t
                /\ slot_doctorId slot = tok_doctorId t /\ slot_date slot = tok_date t)
  /\ (exists doc, In doc (doctors (data w)) /\ doc_id doc = tok_doctorId t)
  /\ In (source t) config.tokenSources
  /\ priorityScore t = getPriorityScore (source t).

(** What else holds of every reachable world: the tokens are well formed and
    the identifiers of tokens and of doctors come from the supply, each
    once. *)
Record Integrity (w : World) : Prop := mkIntegrity {
  int_tokens : forall t, In t (tokens (data w)) -> tokenWellFormed w t;
  int_token_ids : NoDup (map tok_id (tokens (data w)));
  int_token_fresh : forall t, In t (tokens (data w)) -> (tok_id t < seed w)%nat;
  int_doctor_ids : NoDup (map doc_id (doctors (data w)));
  int_doctor_fresh : forall doc, In doc (doctors (data w)) -> (doc_id doc < seed w)%nat
}.

(** The booking that a token records: everything but its slot and status. *)
Definition sameBooking (t t' : Token) : Prop :=
  tok_id t' = tok_id t /\ tok_doctorId t' = tok_doctorId t
  /\ tok_date t' = tok_date t /\ patientName t' = patientName t
  /\ source t' = source t /\ priorityScore t' = priorityScore t
  /\ createdAt t' = createdAt t.

(** What an operation may do to a stored token: keep its booking, retire it if
    it is SCHEDULED, and leave it alone once it is retired. *)
Definition evolves (t t' : Token) : Prop :=
  sameBooking t t'
  /\ (status t' = status t \/ status t = SCHEDULED)
  /\ (status t <> SCHEDULED -> t' = t).

(** The number of SCHEDULED tokens of the store. *)
Definition scheduledCount (w : World) : nat :=
  length (List.filter (fun t => Status_eqb (status t) SCHEDULED) (tokens (data w))).

(** One for a token returned, none for [null]. *)
Definition returned (r : option Token) : nat :=
  match r with
  | Some _ => 1
  | None => 0
  end.

(** A doctor stored with a negative capacity, which the host's presence
    check lets through. *)
Definition drIdle : Doctor := mkDoctor 0 "Dr. Idle" "09:00" "09:30" 15 (-1).
Definition wIdle : World := mkWorld (mkDb [drIdle] [] []) 1.

(** ** The host's statistics

    The [GET /api/stats] handler of [src/app.js].  [tokensByStatus] is an
    object that the [reduce] fills key by key; its keys keep the order of
    their first assignment. *)

(** [acc[key]] *)
Fixpoint getCount (acc : list (Status * nat)) (key : Status) : option nat :=
  match acc with
  | [] => None
  | (k, n) :: rest => if Status_eqb k key then Some n else getCount rest key
  end.

(** [acc[key] = v] *)
Fixpoint setCount (acc : list (Status * nat)) (key : Status) (v : nat)
  : list (Status * nat) :=
  match acc with
  | [] => [(key, v)]
  | (k, n) :: rest =>
      if Status_eqb k key then (k, v) :: rest else (k, n) :: setCount rest key v
  end.

(** [x || 0] *)
Definition orZero (x : option nat) : nat :=
  match x with
  | Some (S n) => S n
  | _ => 0%nat
  end.

Definition tokensByStatus (ts : list Token) : list (Status * nat) :=
  fold_left (fun acc t => setCount acc (status t) (orZero (getCount acc (status t)) + 1)%nat)
            ts [].

Record Stats := mkStats {
  st_doctors : nat;
  st_slots : nat;
  st_tokens : nat;
  st_tokensByStatus : list (Status * nat)
}.

Definition stats (d : Db) : Stats :=
  mkStats (length (doctors d)) (length (slots d)) (length (tokens d))
          (tokensByStatus (tokens d)).

(** The number of tokens of [ts] with status [st]. *)
Definition withStatus (st : Status) (ts : list Token) : nat :=
  length (List.filter (fun t => Status_eqb (status t) st) ts).

(** ** Slot generation under the host's clock

    [generateSlotsForDay] once more, with [dayjs] taken as the host has it:
    an instant is the timestamp of a JavaScript [Date], in milliseconds, and
    what the host reads from a date and a time, and how it prints an instant,
    depend on its time zone and are left open.  [add(n, 'minute')] adds
    [n * 60000] to the timestamp, [isBefore] compares two timestamps and is
    false when one of them is invalid, and a timestamp beyond the range of
    [Date] is an invalid instant, printed as "Invalid Date". *)
Module clock.

Definition maxTime : Z := 8640000000000000.

Definition msPerMinute : Z := 60000.

Definition valid (t : Z) : bool := (- maxTime <=? t) && (t <=? maxTime).

Definition isBefore (a b : Z) : bool := valid a && valid b && (a <? b).

Section Clock.

(** [dayjs(`${dateStr}T${time}`)]: the timestamp that the host reads, [None]
    when it reads no instant. *)
Variable parse : string -> string -> option Z.

(** [instant.format('HH:mm')] on a valid instant. *)
Variable format : Z -> string.

Definition show (t : Z) : string :=
  if valid t then format t else "Invalid Date".

Fixpoint slotLoop (fuel : nat) (doctor : Doctor) (dateStr : string)
         (current finish : Z) : M (list Slot) :=
  if isBefore current finish then
    match fuel with
    | O => diverge
    | S fuel' =>
        let slotEnd := current + slotDurationMinutes doctor * msPerMinute in
        id ← nanoid;
        rest ← slotLoop fuel' doctor dateStr slotEnd finish;
        ret (mkSlot id (doc_id doctor) dateStr (show current) (show slotEnd)
                    (maxPatientsPerSlot doctor) :: rest)
    end
  else ret [].

(** The loop is given one iteration for every minute of the window and one
    more: enough for any duration of one minute or more, the durations that
    the properties below are about.  A loop that is not over by then is cut
    off as [diverge]. *)
Definition generateSlotsForDay (doctor : Doctor) (date : string) : M (list Slot) :=
  let dateStr := date in
  d ← getDb;
  let existing := List.filter (slotMatches (doc_id doctor) dateStr) (slots d) in
  if (0 <? length existing)%nat then ret existing
  else
    let start := parse dateStr (doc_startTime doctor) in
    let finish := parse dateStr (doc_endTime doctor) in
    new ← match start, finish with
           | Some s, Some e =>
               slotLoop (Z.to_nat ((e - s) / msPerMinute + 1)) doctor dateStr s e
           | _, _ => ret []
           end;
    pushSlots new;;
    ret new.

(** The slot objects that the loop builds out of its cursor values. *)
Fixpoint slotsOf (doctor : Doctor) (dateStr : string) (n : nat) (ts : list (Z * Z))
  : list Slot :=
  match ts with
  | [] => []
  | (s, e) :: r =>
      mkSlot n (doc_id doctor) dateStr (show s) (show e)
             (maxPatientsPerSlot doctor) :: slotsOf doctor dateStr (S n) r
  end.

End Clock.

(** The clock of the minute model above: it reads [HH:mm] whatever the date
    and counts from midnight. *)
Definition plainParse (dateStr time : string) : option Z :=
  option_map (fun m => m * msPerMinute) (dayjs dateStr time).

Definition plainFormat (t : Z) : string := formatHHmm (t / msPerMinute).

End clock.

(** * Properties *)

(** ** Sorting *)

Section SortFacts.
Context {A : Type} (le : A -> A -> bool).

Lemma insertSorted_perm x l : Permutation (insertSorted le x l) (x :: l).
Proof.
  induction l as [|y r IH]; simpl; [reflexivity|].
  destruct (le x y); [reflexivity|].
  rewrite IH. apply perm_swap.
Qed.

Lemma sortBy_perm l : Permutation (sortBy le l) l.
Proof.
  induction l as [|x r IH]; simpl; [reflexivity|].
  rewrite insertSorted_perm. now constructor.
Qed.

Lemma sortBy_In x l : In x (sortBy le l) <-> In x l.
Proof.
  split; apply Permutation_in; [|symmetry]; apply sortBy_perm.
Qed.

Lemma sortBy_length l : length (sortBy le l) = length l.
Proof. apply Permutation_length, sortBy_perm. Qed.

Lemma sortBy_nil_inv l : sortBy le l = [] -> l = [].
Proof.
  intros H. apply length_zero_iff_nil.
  now rewrite <- sortBy_length, H.
Qed.
End SortFacts.

(** Sorting by a numeric key, largest first: what is at the two ends. *)
Section Descending.
Context {A : Type} (key : A -> Z).
Let desc (a b : A) : bool := key b <=? key a.

Lemma head_descending l x r :
  sortBy desc l = x :: r ->
  exists pre post, l = pre ++ x :: post
    /\ (forall y, In y pre -> key y < key x)
    /\ (forall y, In y post -> key y <= key x).
Proof.
  revert x r. induction l as [|a l IH]; intros x r; simpl; [discriminate|].
  destruct (sortBy desc l) as [|y s] eqn:Es.
  - apply sortBy_nil_inv in Es. subst l. simpl. intros [= <- <-].
    exists [], []. repeat split; simpl; tauto.
  - destruct (IH y s eq_refl) as (pre & post & -> & Hpre & Hpost).
    simpl. unfold desc at 1. destruct (key y <=? key a) eqn:E.
    + apply Z.leb_le in E. intros [= <- <-].
      exists [], (pre ++ y :: post). repeat split; simpl; [tauto|].
      intros z Hz. apply in_app_or in Hz. destruct Hz as [Hz|[<-|Hz]].
      * specialize (Hpre z Hz). lia.
      * lia.
      * specialize (Hpost z Hz). lia.
    + apply Z.leb_gt in E. intros [= <- <-].
      exists (a :: pre), post. repeat split; simpl; [|assumption].
      intros z [<-|Hz]; [lia|auto].
Qed.

Lemma last_insertSorted a s x :
  last (insertSorted desc a s) = Some x ->
  (x = a /\ forall y, In y s -> key a < key y)
  \/ (last s = Some x /\ exists y, In y s /\ key y <= key a).
Proof.
  induction s as [|y s IH]; simpl.
  - intros [= <-]. left. split; [reflexivity|tauto].
  - unfold desc at 1. destruct (key y <=? key a) eqn:E.
    + apply Z.leb_le in E. intros H. right. split.
      * exact H.
      * exists y. split; [now left|lia].
    + apply Z.leb_gt in E.
      destruct (insertSorted desc a s) as [|z t] eqn:Ei.
      { destruct s; simpl in Ei; [discriminate|].
        destruct (desc a a0); discriminate. }
      change (last (y :: z :: t)) with (last (z :: t)).
      intros H. destruct (IH H) as [[-> Hall]|[Hl (u & Hu & Hle)]].
      * left. split; [reflexivity|]. intros v [<-|Hv]; [lia|auto].
      * right. split.
        -- destruct s; [discriminate|exact Hl].
        -- exists u. split; [now right|assumption].
Qed.

Lemma last_descending l x :
  last (sortBy desc l) = Some x ->
  exists pre post, l = pre ++ x :: post
    /\ (forall y, In y pre -> key x <= key y)
    /\ (forall y, In y post -> key x < key y).
Proof.
  revert x. induction l as [|a l IH]; intros x; simpl; [discriminate|].
  intros H. apply last_insertSorted in H.
  destruct H as [[-> Hall]|[Hl (u & Hu & Hle)]].
  - exists [], l. repeat split; simpl; [tauto|].
    intros y Hy. apply Hall. now apply sortBy_In.
  - destruct (IH x Hl) as (pre & post & -> & Hpre & Hpost).
    exists (a :: pre), post. repeat split; simpl; [|assumption].
    intros y [<-|Hy]; [|auto].
    apply sortBy_In in Hu. apply in_app_or in Hu.
    destruct Hu as [Hu|[<-|Hu]].
    + specialize (Hpre u Hu). lia.
    + exact Hle.
    + specialize (Hpost u Hu). lia.
Qed.
End Descending.

(** ** Token objects and their positions *)

Lemma In_indexed {A} (l : list A) i x :
  In (i, x) (imap pair l) <-> l !! i = Some x.
Proof.
  rewrite <- list_elem_of_In, elem_of_lookup_imap. split.
  - intros (j & y & [= -> ->] & H). exact H.
  - intros H. exists i, x. auto.
Qed.

Lemma filter_indexed {A} (p : A -> bool) (l : list A) (g : nat -> nat) :
  map snd (List.filter (fun it => p (snd it)) (imap (fun i x => (g i, x)) l))
  = List.filter p l.
Proof.
  revert g. induction l as [|x l IH]; intros g; [reflexivity|].
  rewrite imap_cons. simpl. specialize (IH (g ∘ S)).
  destruct (p x); simpl; f_equal; exact IH.
Qed.

Lemma indexed_sorted {A} (l : list A) (g : nat -> nat) :
  (forall i j, (i < j)%nat -> (g i < g j)%nat) ->
  StronglySorted (fun a b : nat * A => (fst a < fst b)%nat)
                 (imap (fun i x => (g i, x)) l).
Proof.
  revert g. induction l as [|x l IH]; intros g Hg; [constructor|].
  rewrite imap_cons. constructor.
  - apply (IH (g ∘ S)). intros i j Hij. apply Hg. lia.
  - apply Forall_forall. intros [j y] Hin.
    apply elem_of_lookup_imap in Hin. destruct Hin as (i & z & [= -> ->] & _).
    simpl. apply Hg. lia.
Qed.

Lemma filter_sorted {A} (R : A -> A -> Prop) (p : A -> bool) l :
  StronglySorted R l -> StronglySorted R (List.filter p l).
Proof.
  induction 1 as [|x l Hs IH Hall]; simpl; [constructor|].
  destruct (p x); [|exact IH]. constructor; [exact IH|].
  rewrite List.Forall_forall in *. intros y Hy.
  apply Hall. apply filter_In in Hy. tauto.
Qed.

(** In a list sorted by position, what stands before an element has a smaller
    position and what stands after it a larger one. *)
Lemma sorted_split_positions {A} (pre post : list (nat * A)) k t :
  StronglySorted (fun a b : nat * A => (fst a < fst b)%nat) (pre ++ (k, t) :: post) ->
  (forall j u, In (j, u) pre -> (j < k)%nat)
  /\ (forall j u, In (j, u) post -> (k < j)%nat).
Proof.
  intros H. apply StronglySorted_app in H. destruct H as (Hcross & _ & Hr).
  split.
  - intros j u Hin. apply (Hcross (j, u) (k, t)).
    + now apply list_elem_of_In.
    + left.
  - intros j u Hin. apply StronglySorted_inv in Hr. destruct Hr as [_ Hall].
    rewrite List.Forall_forall in Hall. apply (Hall (j, u) Hin).
Qed.

Lemma getTokensForSlot_unfold d sid :
  getTokensForSlot d sid = sortBy byPriorityDesc (scheduledAt d sid).
Proof. reflexivity. Qed.

Lemma scheduledAt_sorted d sid :
  StronglySorted (fun a b : nat * Token => (fst a < fst b)%nat) (scheduledAt d sid).
Proof.
  apply filter_sorted. apply (indexed_sorted (tokens d) (fun i => i)). auto.
Qed.

Lemma In_scheduledAt d sid k t :
  In (k, t) (scheduledAt d sid) <-> tokens d !! k = Some t /\ scheduledIn sid t = true.
Proof.
  unfold scheduledAt. rewrite filter_In, In_indexed. reflexivity.
Qed.

Lemma In_getTokensForSlot d sid k t :
  In (k, t) (getTokensForSlot d sid) <->
  tokens d !! k = Some t /\ scheduledIn sid t = true.
Proof.
  rewrite getTokensForSlot_unfold, sortBy_In. apply In_scheduledAt.
Qed.

Lemma length_getTokensForSlot d sid :
  length (getTokensForSlot d sid) = occupancy (tokens d) sid.
Proof.
  rewrite getTokensForSlot_unfold, sortBy_length. unfold occupancy, scheduledAt.
  rewrite <- (filter_indexed (scheduledIn sid) (tokens d) (fun i => i)).
  now rewrite length_map.
Qed.

Lemma scheduledIn_spec sid t :
  scheduledIn sid t = true <-> slotId t = sid /\ status t = SCHEDULED.
Proof.
  unfold scheduledIn. rewrite andb_true_iff, Nat.eqb_eq.
  destruct (status t); simpl; intuition congruence.
Qed.

(** The head of [getTokensForSlot]: a SCHEDULED token of the slot of the
    highest score and, among those of that score, the first in storage order. *)
Lemma head_getTokensForSlot d sid k t rest :
  getTokensForSlot d sid = (k, t) :: rest ->
  tokens d !! k = Some t /\ scheduledIn sid t = true /\
  forall j u, tokens d !! j = Some u -> scheduledIn sid u = true ->
    priorityScore u <= priorityScore t /\
    (priorityScore u = priorityScore t -> (k <= j)%nat).
Proof.
  intros H.
  assert (Hin : In (k, t) (getTokensForSlot d sid)) by (rewrite H; now left).
  apply In_getTokensForSlot in Hin. destruct Hin as [Hk Hs].
  repeat split; try assumption;
    rewrite getTokensForSlot_unfold in H;
    apply (head_descending (fun it : nat * Token => priorityScore (snd it))) in H;
    destruct H as (pre & post & E & Hpre & Hpost);
    pose proof (scheduledAt_sorted d sid) as Hsort; rewrite E in Hsort;
    apply sorted_split_positions in Hsort; destruct Hsort as [Hlt Hgt];
    assert (Hju : In (j, u) (scheduledAt d sid)) by (apply In_scheduledAt; auto);
    rewrite E in Hju; apply in_app_or in Hju;
    destruct Hju as [Hju|[Hju|Hju]].
  - specialize (Hpre _ Hju). simpl in Hpre. lia.
  - inversion Hju; subst. lia.
  - specialize (Hpost _ Hju). simpl in Hpost. lia.
  - specialize (Hpre _ Hju). simpl in Hpre. lia.
  - inversion Hju; subst. lia.
  - specialize (Hgt _ _ Hju). lia.
Qed.

(** The last element of [getTokensForSlot]: a SCHEDULED token of the slot of
    the lowest score and, among those of that score, the last in storage
    order. *)
Lemma last_getTokensForSlot d sid k t :
  last (getTokensForSlot d sid) = Some (k, t) ->
  tokens d !! k = Some t /\ scheduledIn sid t = true /\
  forall j u, tokens d !! j = Some u -> scheduledIn sid u = true ->
    priorityScore t <= priorityScore u /\
    (priorityScore u = priorityScore t -> (j <= k)%nat).
Proof.
  intros H. rewrite getTokensForSlot_unfold in H.
  apply (last_descending (fun it : nat * Token => priorityScore (snd it))) in H.
  destruct H as (pre & post & E & Hpre & Hpost).
  assert (Hin : In (k, t) (scheduledAt d sid)) by (rewrite E; apply in_elt).
  apply In_scheduledAt in Hin. destruct Hin as [Hk Hs].
  pose proof (scheduledAt_sorted d sid) as Hsort. rewrite E in Hsort.
  apply sorted_split_positions in Hsort. destruct Hsort as [Hlt Hgt].
  repeat split; try assumption;
    assert (Hju : In (j, u) (scheduledAt d sid)) by (apply In_scheduledAt; auto);
    rewrite E in Hju; apply in_app_or in Hju;
    destruct Hju as [Hju|[Hju|Hju]].
  - specialize (Hpre _ Hju). simpl in Hpre. lia.
  - inversion Hju; subst. lia.
  - specialize (Hpost _ Hju). simpl in Hpost. lia.
  - specialize (Hlt _ _ Hju). lia.
  - inversion Hju; subst. lia.
  - specialize (Hpost _ Hju). simpl in Hpost. lia.
Qed.

(** ** Slot generation *)

Ltac munfold :=
  unfold mbind, mret, M_bind, M_ret, bind, ret, throw, diverge, getDb, putDb,
    nanoid in *.

Lemma slotsOf_length doctor date n ts : length (slotsOf doctor date n ts) = length ts.
Proof.
  revert n. induction ts as [|[s e] r IH]; intros n; simpl; [reflexivity|].
  now rewrite IH.
Qed.

(** The loop returns the slots of its cursor values, or never returns. *)
Lemma slotLoop_slotTimes doctor date finish fuel current w :
  slotLoop fuel doctor date current finish w =
  match slotTimes fuel (slotDurationMinutes doctor) current finish with
  | Some ts => Returns (slotsOf doctor date (seed w) ts)
                       (mkWorld (data w) (seed w + length ts))
  | None => Diverges
  end.
Proof.
  revert current w. induction fuel as [|fuel IH]; intros current w; simpl.
  - destruct (current <? finish); [reflexivity|]. simpl. munfold.
    destruct w as [d n]. simpl. now rewrite Nat.add_0_r.
  - destruct (current <? finish).
    + munfold. simpl. rewrite IH. simpl.
      destruct (slotTimes fuel _ _ finish) as [ts|]; [|reflexivity].
      simpl. do 2 f_equal. lia.
    + munfold. destruct w as [d n]. simpl. now rewrite Nat.add_0_r.
Qed.

Lemma slotGrid_succ dur start n :
  slotGrid dur start (S n) = (start, start + dur) :: slotGrid dur (start + dur) n.
Proof.
  unfold slotGrid. simpl. f_equal.
  - f_equal; lia.
  - rewrite <- seq_shift, map_map. apply map_ext. intros i.
    rewrite Nat2Z.inj_succ. f_equal; lia.
Qed.

Lemma slotCount_done dur start finish :
  1 <= dur -> finish <= start -> slotCount dur start finish = 0%nat.
Proof.
  intros Hd Hle. unfold slotCount.
  assert ((finish - start + dur - 1) / dur <= 0).
  { apply Z.lt_succ_r. apply Z.div_lt_upper_bound; lia. }
  lia.
Qed.

Lemma slotCount_step dur start finish :
  1 <= dur -> start < finish ->
  slotCount dur start finish = S (slotCount dur (start + dur) finish).
Proof.
  intros Hd Hlt. unfold slotCount.
  replace (finish - start + dur - 1) with (finish - (start + dur) + dur - 1 + 1 * dur) by lia.
  rewrite Z.div_add by lia.
  assert (0 <= (finish - (start + dur) + dur - 1) / dur).
  { apply Z.div_pos; lia. }
  lia.
Qed.

(** With a duration of at least one minute the loop finishes within
    [finish - current] iterations, whatever fuel it is given beyond that. *)
Lemma slotTimes_enough dur finish fuel current :
  1 <= dur -> (Z.to_nat (finish - current) <= fuel)%nat ->
  slotTimes fuel dur current finish
  = Some (slotGrid dur current (slotCount dur current finish)).
Proof.
  intros Hd. revert current. induction fuel as [|fuel IH]; intros current Hf; simpl.
  - destruct (current <? finish) eqn:E.
    + apply Z.ltb_lt in E. lia.
    + apply Z.ltb_ge in E. now rewrite slotCount_done.
  - destruct (current <? finish) eqn:E.
    + apply Z.ltb_lt in E. rewrite IH by lia.
      now rewrite (slotCount_step dur current finish), slotGrid_succ.
    + apply Z.ltb_ge in E. now rewrite slotCount_done.
Qed.

(** With a duration of zero or less the cursor never reaches the end. *)
Lemma slotTimes_diverges dur finish fuel current :
  dur <= 0 -> current < finish -> slotTimes fuel dur current finish = None.
Proof.
  intros Hd. revert current. induction fuel as [|fuel IH]; intros current Hlt; simpl.
  - apply Z.ltb_lt in Hlt. now rewrite Hlt.
  - rewrite (IH (current + dur)) by lia.
    apply Z.ltb_lt in Hlt. now rewrite Hlt.
Qed.

Lemma slotGrid_lookup dur start n i a b :
  slotGrid dur start n !! i = Some (a, b) ->
  (i < n)%nat /\ a = start + Z.of_nat i * dur /\ b = a + dur.
Proof.
  unfold slotGrid. rewrite list_lookup_fmap.
  destruct (seq 0 n !! i) as [j|] eqn:E; simpl; [|discriminate].
  apply lookup_seq in E. destruct E as [-> Hi]. simpl.
  intros [= <- <-]. repeat split; [assumption|lia].
Qed.

Lemma slotGrid_length dur start n : length (slotGrid dur start n) = n.
Proof. unfold slotGrid. now rewrite length_map, length_seq. Qed.

(** What [generateSlotsForDay] does, by cases. *)
Lemma generateSlotsForDay_existing doctor date w :
  existingSlots w doctor date <> [] ->
  generateSlotsForDay doctor date w = Returns (existingSlots w doctor date) w.
Proof.
  intros Hne. unfold generateSlotsForDay, existingSlots in *. munfold. simpl.
  destruct (List.filter _ _) as [|x l]; [congruence|reflexivity].
Qed.

Lemma generateSlotsForDay_first doctor date w :
  existingSlots w doctor date = [] ->
  generateSlotsForDay doctor date w =
  match dayjs date (doc_startTime doctor), dayjs date (doc_endTime doctor) with
  | Some s, Some e =>
      match slotTimes (Z.to_nat (e - s)) (slotDurationMinutes doctor) s e with
      | Some ts => let new := slotsOf doctor date (seed w) ts in
                   Returns new (withSlots w new)
      | None => Diverges
      end
  | _, _ => Returns [] (withSlots w [])
  end.
Proof.
  intros He. unfold generateSlotsForDay, existingSlots in *. munfold. simpl.
  rewrite He. simpl.
  destruct (dayjs date (doc_startTime doctor)) as [s|];
    [destruct (dayjs date (doc_endTime doctor)) as [e|]|];
    try (unfold withSlots; simpl; now rewrite Nat.add_0_r).
  rewrite slotLoop_slotTimes.
  destruct (slotTimes _ _ s e) as [ts|]; [|reflexivity].
  simpl. unfold withSlots. now rewrite slotsOf_length.
Qed.

Lemma withSlots_nil w : withSlots w [] = w.
Proof.
  destruct w as [[ds ss ts] n]. unfold withSlots. simpl.
  now rewrite app_nil_r, Nat.add_0_r.
Qed.

Lemma slotsOf_match doctor date n ts :
  List.filter (slotMatches (doc_id doctor) date) (slotsOf doctor date n ts)
  = slotsOf doctor date n ts.
Proof.
  revert n. induction ts as [|[s e] r IH]; intros n; simpl; [reflexivity|].
  unfold slotMatches at 1. simpl.
  rewrite Nat.eqb_refl, String.eqb_refl. simpl. now rewrite IH.
Qed.

Lemma existingSlots_withSlots w doctor date ts :
  existingSlots w doctor date = [] ->
  existingSlots (withSlots w (slotsOf doctor date (seed w) ts)) doctor date
  = slotsOf doctor date (seed w) ts.
Proof.
  intros He. unfold existingSlots in *. simpl.
  now rewrite List.filter_app, He, slotsOf_match.
Qed.

(** C7. Idempotent slot generation: when slots are already stored for the
    doctor and the date, [generateSlotsForDay] returns exactly those and
    leaves the world as it is; hence a second call, right after a first one
    that returned, returns the same slots and changes nothing. *)
Theorem generateSlotsForDay_idempotent doctor date w :
  (existingSlots w doctor date <> [] ->
   generateSlotsForDay doctor date w = Returns (existingSlots w doctor date) w)
  /\ (forall sl w1,
        generateSlotsForDay doctor date w = Returns sl w1 ->
        generateSlotsForDay doctor date w1 = Returns sl w1).
Proof.
  split; [apply generateSlotsForDay_existing|].
  intros sl w1 H.
  destruct (existingSlots w doctor date) as [|x l] eqn:He.
  - rewrite generateSlotsForDay_first in H by assumption.
    assert (Hnil : generateSlotsForDay doctor date w = Returns sl w1 ->
                   sl = [] -> w1 = w ->
                   generateSlotsForDay doctor date w1 = Returns sl w1)
      by (intros; subst; assumption).
    destruct (dayjs date (doc_startTime doctor)) as [s|] eqn:Es;
      [destruct (dayjs date (doc_endTime doctor)) as [e|] eqn:Ee|].
    + destruct (slotTimes _ _ s e) as [ts|] eqn:Et; [|discriminate].
      simpl in H. injection H as <- <-.
      destruct ts as [|p r].
      * simpl. rewrite withSlots_nil.
        rewrite generateSlotsForDay_first, Es, Ee, Et by assumption.
        simpl. now rewrite withSlots_nil.
      * pose proof (existingSlots_withSlots w doctor date (p :: r) He) as Hex.
        rewrite generateSlotsForDay_existing; rewrite Hex; [reflexivity|].
        destruct p. discriminate.
    + injection H as <- <-. rewrite withSlots_nil.
      rewrite generateSlotsForDay_first, Es, Ee by assumption.
      now rewrite withSlots_nil.
    + injection H as <- <-. rewrite withSlots_nil.
      rewrite generateSlotsForDay_first, Es by assumption.
      now rewrite withSlots_nil.
  - rewrite generateSlotsForDay_existing in H by (rewrite He; discriminate).
    injection H as <- <-.
    apply generateSlotsForDay_existing. rewrite He. discriminate.
Qed.

Lemma generateSlotsForDay_idempotent_witness :
  generateSlotsForDay drA day1 wA = Returns (existingSlots wA drA day1) wA
  /\ generateSlotsForDay drA day1 wA = Returns slotsA wA.
Proof.
  split.
  - apply (proj1 (generateSlotsForDay_idempotent drA day1 wA)).
    vm_compute. discriminate.
  - apply (proj2 (generateSlotsForDay_idempotent drA day1 emptyWorld)).
    vm_compute. reflexivity.
Defined.

(** C10. Termination of slot generation: with a duration of at least one
    minute and well-formed [HH:mm] working hours the loop returns after at
    most [end - start] iterations, whatever fuel it has beyond that; the
    cursor advances by the duration at every slot and stays below the end;
    the sequence is finite, and empty when the start is not before the end;
    [generateSlotsForDay] itself returns. *)
Theorem slot_generation_terminates doctor date w s e :
  parseHHmm (doc_startTime doctor) = Some s ->
  parseHHmm (doc_endTime doctor) = Some e ->
  1 <= slotDurationMinutes doctor ->
  let dur := slotDurationMinutes doctor in
  let n := slotCount dur s e in
  (forall fuel, (Z.to_nat (e - s) <= fuel)%nat ->
     slotLoop fuel doctor date s e w
     = Returns (slotsOf doctor date (seed w) (slotGrid dur s n))
               (mkWorld (data w) (seed w + n)))
  /\ (forall i a b, slotGrid dur s n !! i = Some (a, b) ->
        a = s + Z.of_nat i * dur /\ b = a + dur /\ a < b /\ a < e)
  /\ (e <= s -> n = 0%nat)
  /\ (exists sl w', generateSlotsForDay doctor date w = Returns sl w'
        /\ (existingSlots w doctor date = [] ->
            sl = slotsOf doctor date (seed w) (slotGrid dur s n)
            /\ length sl = n)).
Proof.
  intros Hs He Hd dur n. repeat split.
  - intros fuel Hf. rewrite slotLoop_slotTimes, slotTimes_enough by assumption.
    fold dur n. now rewrite slotGrid_length.
  - apply slotGrid_lookup in H. tauto.
  - apply slotGrid_lookup in H. tauto.
  - apply slotGrid_lookup in H. lia.
  - apply slotGrid_lookup in H. destruct H as (Hi & -> & _).
    subst n. unfold slotCount in Hi. fold dur in Hi.
    assert (Hq : Z.of_nat i + 1 <= (e - s + dur - 1) / dur) by lia.
    pose proof (Z.mul_div_le (e - s + dur - 1) dur ltac:(lia)) as Hm.
    nia.
  - intros Hle. now apply slotCount_done.
  - destruct (existingSlots w doctor date) as [|x l] eqn:Hex.
    + eexists _, _. split.
      * rewrite generateSlotsForDay_first by assumption.
        unfold dayjs. rewrite Hs, He, slotTimes_enough by (fold dur; lia).
        reflexivity.
      * intros _. fold dur n. split; [reflexivity|].
        now rewrite slotsOf_length, slotGrid_length.
    + eexists _, _. split.
      * apply generateSlotsForDay_existing. rewrite Hex. discriminate.
      * discriminate.
Qed.

Lemma slot_generation_terminates_witness :
  generateSlotsForDay drOdd day1 emptyWorld
  = Returns (slotsOf drOdd day1 0 [(540, 555); (555, 570); (570, 585)])
            (withSlots emptyWorld (slotsOf drOdd day1 0 [(540, 555); (555, 570); (570, 585)])).
Proof.
  destruct (slot_generation_terminates drOdd day1 emptyWorld 540 580
              eq_refl eq_refl ltac:(simpl; lia))
    as (_ & _ & _ & sl & w' & Hgen & Hsl).
  destruct (Hsl eq_refl) as [Hs _].
  rewrite Hgen, Hs. vm_compute in Hgen. vm_compute.
  injection Hgen as _ <-. reflexivity.
Defined.

(** C2, as stated, fails: [drOdd] works 09:00-09:40 in slots of 15 minutes,
    and its third slot, 09:30-09:45, ends after 09:40. *)
Lemma slots_within_window_counterexample :
  ~ (forall doctor date s e,
       parseHHmm (doc_startTime doctor) = Some s ->
       parseHHmm (doc_endTime doctor) = Some e ->
       1 <= slotDurationMinutes doctor ->
       (e - s) mod slotDurationMinutes doctor <> 0 ->
       forall sl w',
         generateSlotsForDay doctor date emptyWorld = Returns sl w' ->
         forall slot b,
           In slot sl -> parseHHmm (slot_endTime slot) = Some b -> b <= e).
Proof.
  intros H.
  specialize (H drOdd day1 540 580 eq_refl eq_refl).
  assert (Hd : 1 <= slotDurationMinutes drOdd) by (simpl; lia).
  assert (Hm : (580 - 540) mod slotDurationMinutes drOdd <> 0) by (vm_compute; discriminate).
  specialize (H Hd Hm _ _ eq_refl
                (mkSlot 2 0 day1 "09:30" "09:45" 1) 585).
  assert (585 <= 580); [|lia].
  apply H; [|reflexivity].
  vm_compute. right. right. left. reflexivity.
Qed.

Lemma slotGrid_last dur start n :
  last (slotGrid dur start (S n))
  = Some (start + Z.of_nat n * dur, start + (Z.of_nat n + 1) * dur).
Proof.
  rewrite last_lookup, slotGrid_length. simpl.
  unfold slotGrid. rewrite list_lookup_fmap, lookup_seq_lt by lia.
  reflexivity.
Qed.

(** C2, amended. When the duration does not divide the working window, the
    first generation emits full-length slots only, each starting inside the
    window; all but the last end inside it too, and the last one starts
    before the doctor's end time and ends after it, by less than one
    duration. *)
Theorem last_slot_overruns doctor date w s e :
  parseHHmm (doc_startTime doctor) = Some s ->
  parseHHmm (doc_endTime doctor) = Some e ->
  1 <= slotDurationMinutes doctor ->
  s < e ->
  (e - s) mod slotDurationMinutes doctor <> 0 ->
  existingSlots w doctor date = [] ->
  let dur := slotDurationMinutes doctor in
  let grid := slotGrid dur s (slotCount dur s e) in
  generateSlotsForDay doctor date w
  = Returns (slotsOf doctor date (seed w) grid)
            (withSlots w (slotsOf doctor date (seed w) grid))
  /\ (forall i a b, grid !! i = Some (a, b) ->
        s <= a < e /\ b = a + dur /\ ((S i < length grid)%nat -> b < e))
  /\ (exists a b, last grid = Some (a, b) /\ a < e < b /\ b < e + dur).
Proof.
  intros Hs He Hd Hlt Hmod Hex dur grid.
  assert (Hdm : e - s + dur - 1
                = dur * ((e - s + dur - 1) / dur) + (e - s + dur - 1) mod dur)
    by (apply Z.div_mod; lia).
  pose proof (Z.mod_pos_bound (e - s + dur - 1) dur ltac:(lia)) as Hr.
  set (q := (e - s + dur - 1) / dur) in *.
  assert (Hq1 : 1 <= q) by (apply Z.div_le_lower_bound; lia).
  assert (Hn : slotCount dur s e = Z.to_nat q) by reflexivity.
  assert (Hover : e - s < dur * q).
  { destruct (Z.eq_dec (dur * q) (e - s)) as [Heq|Hne]; [|lia].
    exfalso. apply Hmod. fold dur. rewrite <- Heq, Z.mul_comm.
    apply Z.mod_mul. lia. }
  repeat split.
  - rewrite generateSlotsForDay_first by assumption.
    unfold dayjs. rewrite Hs, He, slotTimes_enough by (fold dur; lia).
    reflexivity.
  - apply slotGrid_lookup in H. destruct H as (_ & -> & _). nia.
  - apply slotGrid_lookup in H. destruct H as (Hi & -> & _).
    rewrite Hn in Hi. nia.
  - apply slotGrid_lookup in H. tauto.
  - intros Hnext. subst grid. rewrite slotGrid_length, Hn in Hnext.
    apply slotGrid_lookup in H. destruct H as (_ & -> & ->). nia.
  - subst grid. rewrite Hn.
    replace (Z.to_nat q) with (S (Z.to_nat (q - 1))) by lia.
    rewrite slotGrid_last. eexists _, _. split; [reflexivity|].
    rewrite Z2Nat.id by lia. nia.
Qed.

Lemma last_slot_overruns_witness :
  generateSlotsForDay drOdd day1 emptyWorld
  = Returns (slotsOf drOdd day1 0 [(540, 555); (555, 570); (570, 585)])
            (withSlots emptyWorld
               (slotsOf drOdd day1 0 [(540, 555); (555, 570); (570, 585)]))
  /\ (exists a b,
        last [(540, 555); (555, 570); (570, 585)] = Some (a, b)
        /\ a < 580 < b /\ b < 580 + 15).
Proof.
  assert (Hd : 1 <= slotDurationMinutes drOdd) by (simpl; lia).
  assert (Hm : (580 - 540) mod slotDurationMinutes drOdd <> 0)
    by (vm_compute; discriminate).
  destruct (last_slot_overruns drOdd day1 emptyWorld 540 580
              eq_refl eq_refl Hd ltac:(lia) Hm eq_refl)
    as (Hgen & _ & Hlast).
  split; [exact Hgen|exact Hlast].
Defined.

(** ** Allocation *)

Lemma createTokenInSlot_run now did date pn src score slot w :
  createTokenInSlot now did date pn src score slot w
  = Returns (newToken w now did date pn src score slot)
            (withToken w (newToken w now did date pn src score slot)).
Proof. reflexivity. Qed.

Lemma assignSlotId_run k s w :
  assignSlotId k s w = Returns tt (withTokens w (alter (set_slotId s) k (tokens (data w)))).
Proof. reflexivity. Qed.

Lemma assignStatus_run k st w :
  assignStatus k st w = Returns tt (withTokens w (alter (set_status st) k (tokens (data w)))).
Proof. reflexivity. Qed.

(** The first loop creates the token in the first slot with room. *)
Lemma firstFit_find create sl w :
  firstFit create sl w =
  match List.find (hasRoom (data w)) sl with
  | Some slot => match create slot w with
                 | Returns t w' => Returns (Some t) w'
                 | Throws msg w' => Throws msg w'
                 | Diverges => Diverges
                 end
  | None => Returns None w
  end.
Proof.
  induction sl as [|slot rest IH]; simpl; [reflexivity|].
  munfold. simpl. destruct (hasRoom (data w) slot); [reflexivity|exact IH].
Qed.

(** The emergency loop carries out its plan. *)
Lemma bumpLoop_plan create score sl w :
  bumpLoop create score sl w =
  match bumpPlan (data w) score sl with
  | None => Returns None w
  | Some (CreateIn slot) =>
      match create slot w with
      | Returns t w' => Returns (Some t) w'
      | Throws msg w' => Throws msg w'
      | Diverges => Diverges
      end
  | Some (BumpThenCreate k target slot) =>
      match create slot (withTokens w (alter (set_slotId target) k (tokens (data w)))) with
      | Returns t w' => Returns (Some t) w'
      | Throws msg w' => Throws msg w'
      | Diverges => Diverges
      end
  end.
Proof.
  induction sl as [|slot later IH]; simpl; [reflexivity|].
  munfold. simpl.
  change (Z.of_nat (length (getTokensForSlot (data w) (slot_id slot))) <? capacity slot)
    with (hasRoom (data w) slot).
  destruct (hasRoom (data w) slot); [reflexivity|].
  destruct (last (getTokensForSlot (data w) (slot_id slot))) as [[k lowest]|];
    [|exact IH].
  destruct (score <=? priorityScore lowest); [exact IH|].
  destruct (List.find (hasRoom (data w)) later); [reflexivity|exact IH].
Qed.

(** Once the first loop has found every slot full, the emergency loop finds
    nothing either: the room it looks for in a later slot is the room that
    the first loop has just looked for in every slot. *)
Lemma bumpPlan_full d score sl :
  List.find (hasRoom d) sl = None -> bumpPlan d score sl = None.
Proof.
  induction sl as [|slot later IH]; simpl; [reflexivity|].
  destruct (hasRoom d slot); [discriminate|]. intros Hnone.
  rewrite Hnone, (IH Hnone).
  destruct (last (getTokensForSlot d (slot_id slot))) as [[k lowest]|];
    [|reflexivity].
  now destruct (score <=? priorityScore lowest).
Qed.

(** [allocateToken], step by step. *)
Lemma allocateToken_run now req w :
  allocateToken now req w =
  match normalizedSource req with
  | None => Throws "Invalid token source" w
  | Some src =>
      if negb (config.includes config.tokenSources (normalizedSource req))
      then Throws "Invalid token source" w
      else
        match getDoctorById (data w) (req_doctorId req) with
        | None => Throws "Doctor not found" w
        | Some doctor =>
            match generateSlotsForDay doctor (req_date req) w with
            | Returns _ w1 =>
                match List.find (hasRoom (data w1))
                        (getSlotsForDoctorDay (data w1) (req_doctorId req) (req_date req)) with
                | Some slot =>
                    let t := newToken w1 now (req_doctorId req) (req_date req)
                                      (req_patientName req) src (getPriorityScore src) slot in
                    Returns (Some t) (withToken w1 t)
                | None => Returns None w1
                end
            | Throws msg w1 => Throws msg w1
            | Diverges => Diverges
            end
        end
  end.
Proof.
  unfold allocateToken.
  destruct (normalizedSource req) as [src|]; [|reflexivity].
  destruct (negb (config.includes config.tokenSources (Some src))); [reflexivity|].
  munfold. simpl.
  destruct (getDoctorById (data w) (req_doctorId req)) as [doctor|]; [|reflexivity].
  destruct (generateSlotsForDay doctor (req_date req) w) as [sl w1|msg w1|];
    try reflexivity.
  rewrite firstFit_find.
  destruct (List.find (hasRoom (data w1)) _) as [slot|] eqn:Ef.
  - reflexivity.
  - destruct (emergency req); simpl; [|reflexivity].
    rewrite bumpLoop_plan, (bumpPlan_full _ _ _ Ef). reflexivity.
Qed.

(** ** Rebalancing and the token life cycle *)

Lemma pullLoop_plan freed later w :
  pullLoop freed later w =
  Returns tt match pullPlan (data w) later with
             | Some k => withTokens w (alter (set_slotId freed) k (tokens (data w)))
             | None => w
             end.
Proof.
  induction later as [|laterSlot rest IH]; simpl; [reflexivity|].
  munfold. simpl.
  destruct (getTokensForSlot (data w) (slot_id laterSlot)) as [|[k c] r];
    [exact IH|reflexivity].
Qed.

Lemma rebalanceAfterFreeSlot_run did date freed w :
  rebalanceAfterFreeSlot did date freed w
  = Returns tt match rebalancePlan (data w) did date freed with
               | Some k => withTokens w (alter (set_slotId freed) k (tokens (data w)))
               | None => w
               end.
Proof.
  unfold rebalanceAfterFreeSlot, rebalancePlan. munfold. simpl.
  destruct (findIndex _ _) as [i|]; [|reflexivity].
  apply pullLoop_plan.
Qed.

Lemma withTokens_same w : withTokens w (tokens (data w)) = w.
Proof. now destruct w as [[ds ss ts] n]. Qed.

Lemma rebalanceAfterFreeSlot_rebalanced did date freed w :
  rebalanceAfterFreeSlot did date freed w
  = Returns tt (withTokens w (rebalanced (data w) did date freed)).
Proof.
  rewrite rebalanceAfterFreeSlot_run. unfold rebalanced.
  destruct (rebalancePlan _ _ _ _); [reflexivity|].
  now rewrite withTokens_same.
Qed.

(** [cancelToken] and [markNoShow], step by step. *)
Lemma cancelToken_run tokenId w :
  cancelToken tokenId w =
  match findToken (data w) tokenId with
  | None => Returns None w
  | Some (k, token) =>
      if negb (Status_eqb (status token) SCHEDULED) then Returns None w
      else
        let d1 := retired (data w) k CANCELLED in
        let ts := rebalanced d1 (tok_doctorId token) (tok_date token) (slotId token) in
        Returns (ts !! k) (withTokens w ts)
  end.
Proof.
  unfold cancelToken, returnToken, mbind, mret, M_bind, M_ret, bind, ret, getDb.
  destruct (findToken (data w) tokenId) as [[k token]|]; [|reflexivity].
  destruct (negb (Status_eqb (status token) SCHEDULED)); [reflexivity|].
  rewrite assignStatus_run, rebalanceAfterFreeSlot_rebalanced. reflexivity.
Qed.

Lemma markNoShow_run tokenId w :
  markNoShow tokenId w =
  match findToken (data w) tokenId with
  | None => Returns None w
  | Some (k, token) =>
      if negb (Status_eqb (status token) SCHEDULED) then Returns None w
      else
        let d1 := retired (data w) k NO_SHOW in
        let ts := rebalanced d1 (tok_doctorId token) (tok_date token) (slotId token) in
        Returns (ts !! k) (withTokens w ts)
  end.
Proof.
  unfold markNoShow, returnToken, mbind, mret, M_bind, M_ret, bind, ret, getDb.
  destruct (findToken (data w) tokenId) as [[k token]|]; [|reflexivity].
  destruct (negb (Status_eqb (status token) SCHEDULED)); [reflexivity|].
  rewrite assignStatus_run, rebalanceAfterFreeSlot_rebalanced. reflexivity.
Qed.

(** ** Occupancy of a slot *)

Lemma occupancy_app ts t sid :
  occupancy (ts ++ [t]) sid
  = (occupancy ts sid + (if scheduledIn sid t then 1 else 0))%nat.
Proof.
  unfold occupancy. rewrite List.filter_app, length_app. simpl.
  now destruct (scheduledIn sid t).
Qed.

Lemma occupancy_unreferenced ts sid :
  (forall t, In t ts -> slotId t <> sid) -> occupancy ts sid = 0%nat.
Proof.
  intros H. unfold occupancy.
  induction ts as [|t ts IH]; simpl; [reflexivity|].
  destruct (scheduledIn sid t) eqn:E.
  - apply scheduledIn_spec in E. destruct E as [E _].
    exfalso. apply (H t); [now left|exact E].
  - apply IH. intros u Hu. apply H. now right.
Qed.

Lemma occupancy_cons x ts sid :
  occupancy (x :: ts) sid
  = ((if scheduledIn sid x then 1 else 0) + occupancy ts sid)%nat.
Proof. unfold occupancy. simpl. now destruct (scheduledIn sid x). Qed.

Lemma scheduledIn_scheduled sid t :
  status t = SCHEDULED -> scheduledIn sid t = Nat.eqb (slotId t) sid.
Proof. intros H. unfold scheduledIn. rewrite H. apply andb_true_r. Qed.

Lemma scheduledIn_retired sid t :
  status t <> SCHEDULED -> scheduledIn sid t = false.
Proof.
  intros H. unfold scheduledIn. destruct (status t); [congruence| |];
    apply andb_false_r.
Qed.

(** Moving a SCHEDULED token takes one unit from its slot and gives one to
    the slot it goes to. *)
Lemma occupancy_alter_slotId ts k t s sid :
  ts !! k = Some t -> status t = SCHEDULED ->
  (occupancy (alter (set_slotId s) k ts) sid
   + (if Nat.eqb (slotId t) sid then 1 else 0)
   = occupancy ts sid + (if Nat.eqb s sid then 1 else 0))%nat.
Proof.
  revert k. induction ts as [|x ts IH]; intros k Hk Hs; [discriminate|].
  destruct k as [|k]; simpl in Hk.
  - injection Hk as ->.
    change (alter (set_slotId s) 0%nat (t :: ts)) with (set_slotId s t :: ts).
    rewrite !occupancy_cons.
    rewrite (scheduledIn_scheduled sid t Hs).
    rewrite (scheduledIn_scheduled sid (set_slotId s t) Hs). simpl.
    destruct (Nat.eqb (slotId t) sid), (Nat.eqb s sid); lia.
  - specialize (IH k Hk Hs).
    change (alter (set_slotId s) (S k) (x :: ts))
      with (x :: alter (set_slotId s) k ts).
    rewrite !occupancy_cons. lia.
Qed.

(** Retiring a SCHEDULED token takes one unit from its slot. *)
Lemma occupancy_alter_status ts k t st sid :
  ts !! k = Some t -> status t = SCHEDULED -> st <> SCHEDULED ->
  (occupancy (alter (set_status st) k ts) sid
   + (if Nat.eqb (slotId t) sid then 1 else 0)
   = occupancy ts sid)%nat.
Proof.
  revert k. induction ts as [|x ts IH]; intros k Hk Hs Hst; [discriminate|].
  destruct k as [|k]; simpl in Hk.
  - injection Hk as ->.
    change (alter (set_status st) 0%nat (t :: ts)) with (set_status st t :: ts).
    rewrite !occupancy_cons.
    rewrite (scheduledIn_scheduled sid t Hs).
    rewrite (scheduledIn_retired sid (set_status st t) Hst).
    destruct (Nat.eqb (slotId t) sid); lia.
  - specialize (IH k Hk Hs Hst).
    change (alter (set_status st) (S k) (x :: ts))
      with (x :: alter (set_status st) k ts).
    rewrite !occupancy_cons. lia.
Qed.

Lemma In_alter {A} (f : A -> A) k (l : list A) x :
  In x (alter f k l) -> In x l \/ exists y, l !! k = Some y /\ x = f y.
Proof.
  revert k. induction l as [|a l IH]; intros k; [destruct k; simpl; tauto|].
  destruct k as [|k]; simpl.
  - intros [<-|H]; [right; eauto|left; now right].
  - intros [<-|H]; [left; now left|].
    destruct (IH k H) as [H'|H']; [left; now right|right; exact H'].
Qed.

Lemma lookup_In {A} (l : list A) k x : l !! k = Some x -> In x l.
Proof. intros H. apply list_elem_of_In, list_elem_of_lookup. eauto. Qed.

(** ** Slots of a day *)

Lemma In_getSlotsForDoctorDay d did date s :
  In s (getSlotsForDoctorDay d did date) <->
  In s (slots d) /\ slotMatches did date s = true.
Proof.
  unfold getSlotsForDoctorDay. rewrite sortBy_In. apply filter_In.
Qed.

Lemma NoDup_map_filter {A B} (f : A -> B) (p : A -> bool) l :
  NoDup (map f l) -> NoDup (map f (List.filter p l)).
Proof.
  induction l as [|x l IH]; simpl; [auto|].
  rewrite NoDup_cons. intros [Hx Hl].
  destruct (p x); simpl; [|auto].
  apply NoDup_cons. split; [|auto].
  rewrite list_elem_of_In, in_map_iff in *.
  intros (y & Hy & Hin). apply Hx. exists y. split; [exact Hy|].
  apply filter_In in Hin. tauto.
Qed.

Lemma NoDup_getSlotsForDoctorDay d did date :
  NoDup (map slot_id (slots d)) ->
  NoDup (map slot_id (getSlotsForDoctorDay d did date)).
Proof.
  intros H. unfold getSlotsForDoctorDay.
  rewrite (Permutation_map slot_id (sortBy_perm byStartTime _)).
  now apply NoDup_map_filter.
Qed.

Lemma NoDup_map_inj {A B} (f : A -> B) (l : list A) a b :
  NoDup (map f l) -> In a l -> In b l -> f a = f b -> a = b.
Proof.
  induction l as [|x l IH]; simpl; [tauto|].
  rewrite NoDup_cons, list_elem_of_In, in_map_iff.
  intros [Hx Hl] [<-|Ha] [<-|Hb] E; auto.
  - exfalso. apply Hx. exists b. auto.
  - exfalso. apply Hx. exists a. auto.
Qed.

Lemma slotsOf_ids doctor date n ts :
  map slot_id (slotsOf doctor date n ts) = seq n (length ts).
Proof.
  revert n. induction ts as [|[s e] r IH]; intros n; simpl; [reflexivity|].
  now rewrite IH.
Qed.

Lemma In_slotsOf doctor date n ts slot :
  In slot (slotsOf doctor date n ts) ->
  (n <= slot_id slot < n + length ts)%nat
  /\ capacity slot = maxPatientsPerSlot doctor
  /\ slotMatches (doc_id doctor) date slot = true.
Proof.
  revert n. induction ts as [|[s e] r IH]; intros n; simpl; [tauto|].
  intros [<-|H].
  - simpl. unfold slotMatches. simpl.
    rewrite Nat.eqb_refl, String.eqb_refl. repeat split; lia.
  - destruct (IH _ H) as (Hr & Hc & Hm). repeat split; auto; lia.
Qed.

(** ** The invariant of the reachable worlds *)

Lemma hasRoom_spec d slot :
  hasRoom d slot = true <->
  Z.of_nat (occupancy (tokens d) (slot_id slot)) < capacity slot.
Proof.
  unfold hasRoom. now rewrite length_getTokensForSlot, Z.ltb_lt.
Qed.

Lemma Inv_empty : Inv emptyWorld.
Proof. split; simpl; try tauto. constructor. Qed.

Lemma Inv_createDoctor w name s e dur cap doctor w' :
  Inv w -> 0 < cap ->
  createDoctor name s e dur cap w = Returns doctor w' -> Inv w'.
Proof.
  intros [Hc Hn Hsf Htf Hd] Hcap [= <- <-]. split; simpl.
  - exact Hc.
  - exact Hn.
  - intros slot Hin. specialize (Hsf slot Hin). lia.
  - intros t Hin. specialize (Htf t Hin). lia.
  - intros doc Hin. apply in_app_or in Hin.
    destruct Hin as [Hin|[<-|[]]]; [auto|exact Hcap].
Qed.

(** New slots carry identifiers that nothing refers to yet. *)
Lemma Inv_withSlots w doctor date ts :
  Inv w -> 0 < maxPatientsPerSlot doctor ->
  Inv (withSlots w (slotsOf doctor date (seed w) ts)).
Proof.
  intros [Hc Hn Hsf Htf Hd] Hcap. split; simpl.
  - intros slot Hin. apply in_app_or in Hin. destruct Hin as [Hin|Hin]; [auto|].
    apply In_slotsOf in Hin. destruct Hin as (Hr & -> & _).
    rewrite occupancy_unreferenced; [simpl; lia|].
    intros t Ht. specialize (Htf t Ht). lia.
  - rewrite map_app, slotsOf_ids. apply NoDup_app. repeat split.
    + exact Hn.
    + intros i Hi Hi'. apply list_elem_of_In in Hi, Hi'.
      apply in_map_iff in Hi. destruct Hi as (slot & <- & Hin).
      specialize (Hsf slot Hin). apply in_seq in Hi'. lia.
    + apply NoDup_seq.
  - intros slot Hin. rewrite slotsOf_length.
    apply in_app_or in Hin. destruct Hin as [Hin|Hin].
    + specialize (Hsf slot Hin). lia.
    + apply In_slotsOf in Hin. lia.
  - intros t Hin. specialize (Htf t Hin). lia.
  - exact Hd.
Qed.

(** [generateSlotsForDay] returns in one of two worlds. *)
Lemma generateSlotsForDay_worlds doctor date w w' :
  settle (generateSlotsForDay doctor date w) = Some w' ->
  w' = w \/
  (existingSlots w doctor date = [] /\
   exists ts, w' = withSlots w (slotsOf doctor date (seed w) ts)).
Proof.
  destruct (existingSlots w doctor date) as [|x l] eqn:He.
  - rewrite generateSlotsForDay_first by assumption.
    destruct (dayjs date (doc_startTime doctor)) as [s|];
      [destruct (dayjs date (doc_endTime doctor)) as [e|]|];
      try (simpl; rewrite withSlots_nil; intros [= <-]; now left).
    destruct (slotTimes _ _ s e) as [ts|]; simpl; [|discriminate].
    intros [= <-]. right. split; [reflexivity|]. now exists ts.
  - rewrite generateSlotsForDay_existing by (rewrite He; discriminate).
    simpl. intros [= <-]. now left.
Qed.

Lemma Inv_generateSlotsForDay doctor date w w' :
  Inv w -> 0 < maxPatientsPerSlot doctor ->
  settle (generateSlotsForDay doctor date w) = Some w' -> Inv w'.
Proof.
  intros Hinv Hcap H. apply generateSlotsForDay_worlds in H.
  destruct H as [->|(_ & ts & ->)]; [assumption|].
  now apply Inv_withSlots.
Qed.

(** A new token in a slot with room keeps every slot within its capacity. *)
Lemma Inv_withToken w slot t :
  Inv w -> In slot (slots (data w)) -> hasRoom (data w) slot = true ->
  slotId t = slot_id slot -> Inv (withToken w t).
Proof.
  intros [Hc Hn Hsf Htf Hd] Hin Hroom Ht. split; simpl.
  - intros slot' Hin'. rewrite occupancy_app.
    destruct (scheduledIn (slot_id slot') t) eqn:E.
    + apply scheduledIn_spec in E. destruct E as [E _].
      assert (slot' = slot) as ->.
      { apply (NoDup_map_inj slot_id (slots (data w))); auto. congruence. }
      apply hasRoom_spec in Hroom. lia.
    + specialize (Hc slot' Hin'). lia.
  - exact Hn.
  - intros slot' Hin'. specialize (Hsf slot' Hin'). lia.
  - intros u Hu. apply in_app_or in Hu. destruct Hu as [Hu|[<-|[]]].
    + specialize (Htf u Hu). lia.
    + rewrite Ht. specialize (Hsf slot Hin). lia.
  - exact Hd.
Qed.

Lemma getDoctorById_In d did doctor :
  getDoctorById d did = Some doctor -> In doctor (doctors d) /\ doc_id doctor = did.
Proof.
  unfold getDoctorById. intros H. apply find_some in H.
  now rewrite Nat.eqb_eq in H.
Qed.

Lemma Inv_allocateToken now req w w' :
  Inv w -> settle (allocateToken now req w) = Some w' -> Inv w'.
Proof.
  intros Hinv. rewrite allocateToken_run.
  destruct (normalizedSource req) as [src|]; [|simpl; now intros [= <-]].
  destruct (negb _); [simpl; now intros [= <-]|].
  destruct (getDoctorById (data w) (req_doctorId req)) as [doctor|] eqn:Hd;
    [|simpl; now intros [= <-]].
  apply getDoctorById_In in Hd. destruct Hd as [Hd _].
  pose proof (Inv_generateSlotsForDay doctor (req_date req) w) as Hgen.
  destruct (generateSlotsForDay doctor (req_date req) w) as [sl w1|msg w1|];
    [| |discriminate].
  - assert (Hinv1 : Inv w1)
      by (apply Hgen; [assumption|now apply (inv_doctors w Hinv)|reflexivity]).
    destruct (List.find (hasRoom (data w1)) _) as [slot|] eqn:Ef;
      simpl; intros [= <-]; [|assumption].
    apply find_some in Ef. destruct Ef as [Hin Hroom].
    apply In_getSlotsForDoctorDay in Hin. destruct Hin as [Hin _].
    now apply (Inv_withToken w1 slot).
  - simpl. intros [= <-].
    apply Hgen; [assumption|now apply (inv_doctors w Hinv)|reflexivity].
Qed.

Lemma findToken_Some d tokenId k t :
  findToken d tokenId = Some (k, t) -> tokens d !! k = Some t /\ tok_id t = tokenId.
Proof.
  unfold findToken. intros H. apply find_some in H. destruct H as [Hin Heq].
  apply In_indexed in Hin. simpl in Heq. now rewrite Nat.eqb_eq in Heq.
Qed.

(** The decision of the rebalancing loop: the first later slot that holds a
    SCHEDULED token, and the head of its tokens. *)
Lemma pullPlan_Some d later k :
  pullPlan d later = Some k ->
  exists pre laterSlot post c rest,
    later = pre ++ laterSlot :: post
    /\ (forall s, In s pre -> getTokensForSlot d (slot_id s) = [])
    /\ getTokensForSlot d (slot_id laterSlot) = (k, c) :: rest.
Proof.
  induction later as [|s later IH]; simpl; [discriminate|].
  destruct (getTokensForSlot d (slot_id s)) as [|[k' c] rest] eqn:E.
  - intros H. destruct (IH H) as (pre & L & post & c & rest & -> & Hpre & HL).
    exists (s :: pre), L, post, c, rest. repeat split; [|assumption].
    intros s' [<-|Hs']; auto.
  - intros [= ->]. exists [], s, later, c, rest. repeat split; [|assumption].
    simpl. tauto.
Qed.

Lemma pullPlan_None d later :
  pullPlan d later = None <->
  forall s, In s later -> getTokensForSlot d (slot_id s) = [].
Proof.
  induction later as [|s later IH]; simpl; [tauto|].
  destruct (getTokensForSlot d (slot_id s)) as [|[k' c] rest] eqn:E.
  - rewrite IH. split.
    + intros H s' [<-|Hs']; auto.
    + intros H s' Hs'. apply H. now right.
  - split; [discriminate|]. intros H. specialize (H s (or_introl eq_refl)).
    congruence.
Qed.

(** The token that the rebalancing moves is a SCHEDULED token. *)
Lemma rebalancePlan_scheduled d did date freed k :
  rebalancePlan d did date freed = Some k ->
  exists c, tokens d !! k = Some c /\ status c = SCHEDULED.
Proof.
  unfold rebalancePlan. destruct (findIndex _ _) as [i|]; [|discriminate].
  intros H. apply pullPlan_Some in H.
  destruct H as (_ & L & _ & c & rest & _ & _ & HL).
  apply head_getTokensForSlot in HL. destruct HL as (Hk & Hs & _).
  apply scheduledIn_spec in Hs. exists c. tauto.
Qed.

(** Retiring a SCHEDULED token and rebalancing towards its slot leaves no
    slot with more SCHEDULED tokens than before. *)
Lemma occupancy_retired_rebalanced d k token st did date sid :
  tokens d !! k = Some token -> status token = SCHEDULED -> st <> SCHEDULED ->
  (occupancy (rebalanced (retired d k st) did date (slotId token)) sid
   <= occupancy (tokens d) sid)%nat.
Proof.
  intros Hk Hs Hst.
  pose proof (occupancy_alter_status (tokens d) k token st sid Hk Hs Hst) as H1.
  unfold rebalanced.
  destruct (rebalancePlan _ _ _ _) as [k'|] eqn:Ep; simpl; [|lia].
  apply rebalancePlan_scheduled in Ep. destruct Ep as (c & Hc & Hcs).
  simpl in Hc.
  pose proof (occupancy_alter_slotId _ k' c (slotId token) sid Hc Hcs) as H2.
  destruct (Nat.eqb (slotId token) sid), (Nat.eqb (slotId c) sid); lia.
Qed.

Lemma Inv_retired_rebalanced w k token st did date :
  Inv w -> tokens (data w) !! k = Some token ->
  status token = SCHEDULED -> st <> SCHEDULED ->
  Inv (withTokens w (rebalanced (retired (data w) k st) did date (slotId token))).
Proof.
  intros [Hc Hn Hsf Htf Hd] Hk Hs Hst. split; simpl; try assumption.
  - intros slot Hin. specialize (Hc slot Hin).
    pose proof (occupancy_retired_rebalanced (data w) k token st did date
                  (slot_id slot) Hk Hs Hst).
    lia.
  - assert (Hfresh1 : forall t, In t (alter (set_status st) k (tokens (data w))) ->
                                (slotId t < seed w)%nat).
    { intros t Ht. apply In_alter in Ht.
      destruct Ht as [Ht|(y & Hy & ->)]; [auto|].
      simpl. apply Htf. now apply lookup_In in Hy. }
    intros t Ht. unfold rebalanced in Ht.
    destruct (rebalancePlan _ _ _ _) as [k'|]; simpl in Ht; [|auto].
    apply In_alter in Ht. destruct Ht as [Ht|(y & Hy & ->)]; [auto|].
    simpl. apply Htf. now apply lookup_In in Hk.
Qed.

Lemma Inv_cancelToken tokenId w w' :
  Inv w -> settle (cancelToken tokenId w) = Some w' -> Inv w'.
Proof.
  intros Hinv. rewrite cancelToken_run.
  destruct (findToken (data w) tokenId) as [[k token]|] eqn:Ef;
    [|simpl; now intros [= <-]].
  apply findToken_Some in Ef. destruct Ef as [Hk _].
  destruct (status token) eqn:Es; simpl; intros [= <-]; try assumption.
  apply Inv_retired_rebalanced; auto; discriminate.
Qed.

Lemma Inv_markNoShow tokenId w w' :
  Inv w -> settle (markNoShow tokenId w) = Some w' -> Inv w'.
Proof.
  intros Hinv. rewrite markNoShow_run.
  destruct (findToken (data w) tokenId) as [[k token]|] eqn:Ef;
    [|simpl; now intros [= <-]].
  apply findToken_Some in Ef. destruct Ef as [Hk _].
  destruct (status token) eqn:Es; simpl; intros [= <-]; try assumption.
  apply Inv_retired_rebalanced; auto; discriminate.
Qed.

Lemma reachable_Inv w : reachable w -> Inv w.
Proof.
  induction 1 as [|w op w' Hreach IH Hadm Hexec]; [apply Inv_empty|].
  destruct op; simpl in Hexec, Hadm.
  - injection Hexec as <-.
    exact (Inv_createDoctor w name startTime endTime duration maxPatients
             _ _ IH Hadm eq_refl).
  - eapply Inv_generateSlotsForDay; eauto.
  - eapply Inv_allocateToken; eauto.
  - eapply Inv_cancelToken; eauto.
  - eapply Inv_markNoShow; eauto.
  - injection Hexec as <-. exact IH.
Qed.

Lemma reachable_execAll ops w :
  reachable w -> Forall admissible ops -> reachable (execAll ops w).
Proof.
  revert w. induction ops as [|op ops IH]; intros w Hw Hall; simpl; [exact Hw|].
  apply Forall_cons in Hall. destruct Hall as [Hop Hall].
  destruct (exec op w) as [w'|] eqn:E; [|exact Hw].
  apply IH; [|exact Hall]. now apply (reachable_step w op w').
Qed.

(** ** The emergency loop on its own *)

Lemma bumpPlan_create d score sl slot :
  bumpPlan d score sl = Some (CreateIn slot) -> In slot sl /\ hasRoom d slot = true.
Proof.
  induction sl as [|s later IH]; simpl; [discriminate|].
  destruct (hasRoom d s) eqn:Er.
  - intros [= <-]. auto.
  - intros H.
    assert (Hrec : bumpPlan d score later = Some (CreateIn slot) ->
                   (s = slot \/ In slot later) /\ hasRoom d slot = true)
      by (intros H'; destruct (IH H'); auto).
    destruct (last (getTokensForSlot d (slot_id s))) as [[k lowest]|]; [|auto].
    destruct (score <=? priorityScore lowest); [auto|].
    destruct (List.find (hasRoom d) later); [discriminate|auto].
Qed.

(** A displacement is decided for a full slot whose last token in the order of
    [getTokensForSlot] scores strictly less than the request, and goes to the
    first later slot with room. *)
Lemma bumpPlan_bump d score sl k target slot :
  bumpPlan d score sl = Some (BumpThenCreate k target slot) ->
  exists pre later lowest laterSlot,
    sl = pre ++ slot :: later
    /\ hasRoom d slot = false
    /\ last (getTokensForSlot d (slot_id slot)) = Some (k, lowest)
    /\ priorityScore lowest < score
    /\ List.find (hasRoom d) later = Some laterSlot
    /\ target = slot_id laterSlot.
Proof.
  induction sl as [|s later IH]; simpl; [discriminate|].
  destruct (hasRoom d s) eqn:Er; [discriminate|].
  intros H.
  assert (Hrec : bumpPlan d score later = Some (BumpThenCreate k target slot) ->
                 exists pre later' lowest laterSlot,
                   s :: later = pre ++ slot :: later'
                   /\ hasRoom d slot = false
                   /\ last (getTokensForSlot d (slot_id slot)) = Some (k, lowest)
                   /\ priorityScore lowest < score
                   /\ List.find (hasRoom d) later' = Some laterSlot
                   /\ target = slot_id laterSlot).
  { intros H'. destruct (IH H') as (pre & l' & lo & ls & -> & Hrest).
    exists (s :: pre), l', lo, ls. split; [reflexivity|exact Hrest]. }
  destruct (last (getTokensForSlot d (slot_id s))) as [[k' lowest]|] eqn:El;
    [|auto].
  destruct (score <=? priorityScore lowest) eqn:Es; [auto|].
  destruct (List.find (hasRoom d) later) as [laterSlot|] eqn:Ef; [|auto].
  injection H as <- <- <-. apply Z.leb_gt in Es.
  exists [], later, lowest, laterSlot. repeat split; auto.
Qed.

(** The loop, displacement included, keeps every slot within its capacity. *)
Lemma Inv_bumpLoop now did date pn src sc score sl w w' :
  Inv w -> (forall s, In s sl -> In s (slots (data w))) ->
  settle (bumpLoop (createTokenInSlot now did date pn src sc) score sl w) = Some w' ->
  Inv w'.
Proof.
  intros Hinv Hsub. rewrite bumpLoop_plan.
  destruct (bumpPlan (data w) score sl) as [[slot|k target slot]|] eqn:Ep.
  - rewrite createTokenInSlot_run. simpl. intros [= <-].
    apply bumpPlan_create in Ep. destruct Ep as [Hin Hroom].
    apply (Inv_withToken w slot); auto.
  - rewrite createTokenInSlot_run. simpl. intros [= <-].
    apply bumpPlan_bump in Ep.
    destruct Ep as (pre & later & lowest & laterSlot & -> & Hfull & Hlast & Hlt & Hf & ->).
    apply find_some in Hf. destruct Hf as [Hlater Hroom].
    apply last_getTokensForSlot in Hlast. destruct Hlast as (Hk & Hsch & _).
    apply scheduledIn_spec in Hsch. destruct Hsch as [Hsid Hst].
    assert (HinS : In slot (slots (data w))) by (apply Hsub, in_elt).
    assert (HinL : In laterSlot (slots (data w))).
    { apply Hsub. apply in_or_app. right. now right. }
    destruct Hinv as [Hc Hn Hsf Htf Hd]. split; simpl; try assumption.
    + intros slot' Hin'. rewrite occupancy_app.
      rewrite scheduledIn_scheduled by reflexivity. simpl.
      pose proof (occupancy_alter_slotId (tokens (data w)) k lowest
                    (slot_id laterSlot) (slot_id slot') Hk Hst) as H2.
      rewrite Hsid in H2.
      destruct (Nat.eqb (slot_id laterSlot) (slot_id slot')) eqn:E.
      * apply Nat.eqb_eq in E.
        assert (slot' = laterSlot) as ->
          by (apply (NoDup_map_inj slot_id (slots (data w))); auto).
        apply hasRoom_spec in Hroom.
        destruct (Nat.eqb (slot_id slot) (slot_id laterSlot)); lia.
      * specialize (Hc slot' Hin').
        destruct (Nat.eqb (slot_id slot) (slot_id slot')); lia.
    + intros slot' Hin'. specialize (Hsf slot' Hin'). lia.
    + intros t Ht. apply in_app_or in Ht. destruct Ht as [Ht|[<-|[]]].
      * apply In_alter in Ht. destruct Ht as [Ht|(y & Hy & ->)].
        -- specialize (Htf t Ht). lia.
        -- simpl. specialize (Hsf laterSlot HinL). lia.
      * simpl. specialize (Hsf slot HinS). lia.
  - simpl. now intros [= <-].
Qed.

(** C1. Capacity invariant: in every world reached from the empty store
    through the exported operations (and the creation of doctors with a
    positive capacity), no slot has more SCHEDULED tokens than its capacity;
    and the emergency loop, run from such a world on the slots of a day, ends
    in a world where this still holds, displacement included.  The move of
    the rebalancing is covered by the steps [OpCancelToken] and
    [OpMarkNoShow] of [reachable]. *)
Theorem capacity_invariant w :
  reachable w ->
  (forall slot, In slot (slots (data w)) ->
     Z.of_nat (occupancy (tokens (data w)) (slot_id slot)) <= capacity slot)
  /\ (forall now did date pn src sc score w',
        settle (bumpLoop (createTokenInSlot now did date pn src sc) score
                         (getSlotsForDoctorDay (data w) did date) w) = Some w' ->
        forall slot, In slot (slots (data w')) ->
          Z.of_nat (occupancy (tokens (data w')) (slot_id slot)) <= capacity slot).
Proof.
  intros Hreach. apply reachable_Inv in Hreach. split.
  - apply (inv_capacity w Hreach).
  - intros now did date pn src sc score w' Hrun.
    apply (inv_capacity w').
    apply (Inv_bumpLoop now did date pn src sc score
             (getSlotsForDoctorDay (data w) did date) w w' Hreach); [|exact Hrun].
    intros s Hs. apply In_getSlotsForDoctorDay in Hs. tauto.
Qed.

Lemma capacity_invariant_witness :
  Forall (fun slot => Z.of_nat (occupancy (tokens (data wCancelled)) (slot_id slot))
                      <= capacity slot)
         (slots (data wCancelled)).
Proof.
  apply List.Forall_forall.
  apply (proj1 (capacity_invariant wCancelled
                  (reachable_execAll opsCancelled emptyWorld reachable_empty
                     ltac:(repeat constructor; simpl; lia)))).
Defined.

(** ** Sources and priorities *)

Lemma generateSlotsForDay_no_throw doctor date w msg w' :
  generateSlotsForDay doctor date w <> Throws msg w'.
Proof.
  destruct (existingSlots w doctor date) as [|x l] eqn:He.
  - rewrite generateSlotsForDay_first by assumption.
    destruct (dayjs date (doc_startTime doctor)) as [s|];
      [destruct (dayjs date (doc_endTime doctor)) as [e|]|]; try discriminate.
    destruct (slotTimes _ _ s e); discriminate.
  - rewrite generateSlotsForDay_existing by (rewrite He; discriminate).
    discriminate.
Qed.

Lemma includes_tokenSources s :
  config.includes config.tokenSources (Some s) = true <->
  In s ["EMERGENCY"; "PAID"; "FOLLOW_UP"; "ONLINE"; "WALK_IN"].
Proof.
  unfold config.includes, config.tokenSources. rewrite existsb_exists. split.
  - intros (x & Hin & Heq). apply String.eqb_eq in Heq. now subst.
  - intros H. exists s. split; [exact H|apply String.eqb_refl].
Qed.

(** C9. Emergency source override: with [emergency = true] the effective
    source is EMERGENCY whatever [source] holds, its score is 5, the call is
    never rejected for its source, and a token that it creates has source
    EMERGENCY and score 5; with [emergency = false] a source outside the five
    known ones (or no source at all) is rejected with the world unchanged. *)
Theorem emergency_source_override now req w :
  (emergency req = true ->
     normalizedSource req = Some "EMERGENCY"
     /\ getPriorityScore "EMERGENCY" = 5
     /\ (forall w', allocateToken now req w <> Throws "Invalid token source" w')
     /\ (forall t w', allocateToken now req w = Returns (Some t) w' ->
           source t = "EMERGENCY" /\ priorityScore t = 5))
  /\ (emergency req = false ->
      (forall s, req_source req = Some s ->
         ~ In s ["EMERGENCY"; "PAID"; "FOLLOW_UP"; "ONLINE"; "WALK_IN"]) ->
      allocateToken now req w = Throws "Invalid token source" w).
Proof.
  split.
  - intros He.
    assert (Hn : normalizedSource req = Some "EMERGENCY")
      by (unfold normalizedSource; now rewrite He).
    repeat split; try assumption.
    + intros w'. rewrite allocateToken_run, Hn. simpl.
      destruct (getDoctorById _ _) as [doctor|]; [|discriminate].
      pose proof (generateSlotsForDay_no_throw doctor (req_date req) w) as Hnt.
      destruct (generateSlotsForDay doctor (req_date req) w) as [sl w1|msg w1|];
        [|intros [= -> ->]; now apply (Hnt "Invalid token source" w')|discriminate].
      destruct (List.find _ _); discriminate.
    + revert H. rewrite allocateToken_run, Hn. simpl.
      destruct (getDoctorById _ _) as [doctor|]; [|discriminate].
      destruct (generateSlotsForDay doctor (req_date req) w) as [sl w1|msg w1|];
        try discriminate.
      destruct (List.find _ _); [|discriminate].
      now intros [= <- _].
    + revert H. rewrite allocateToken_run, Hn. simpl.
      destruct (getDoctorById _ _) as [doctor|]; [|discriminate].
      destruct (generateSlotsForDay doctor (req_date req) w) as [sl w1|msg w1|];
        try discriminate.
      destruct (List.find _ _); [|discriminate].
      now intros [= <- _].
  - intros He Hbad. rewrite allocateToken_run.
    unfold normalizedSource. rewrite He.
    destruct (req_source req) as [s|] eqn:Es; [|reflexivity].
    destruct (config.includes config.tokenSources (Some s)) eqn:Ei; [|reflexivity].
    apply includes_tokenSources in Ei. now destruct (Hbad s eq_refl).
Qed.

Lemma emergency_source_override_witness :
  (exists t w', allocateToken "t3" (requestA (Some "BOGUS") true) wWalkIn
                = Returns (Some t) w'
                /\ source t = "EMERGENCY" /\ priorityScore t = 5)
  /\ allocateToken "t3" (requestA (Some "BOGUS") false) wWalkIn
     = Throws "Invalid token source" wWalkIn
  /\ allocateToken "t3" (requestA None false) wWalkIn
     = Throws "Invalid token source" wWalkIn.
Proof.
  split; [|split].
  - destruct (allocateToken "t3" (requestA (Some "BOGUS") true) wWalkIn)
      as [[t|] w'| |] eqn:E; try (vm_compute in E; discriminate).
    exists t, w'. split; [reflexivity|].
    destruct (proj1 (emergency_source_override "t3"
                       (requestA (Some "BOGUS") true) wWalkIn) eq_refl)
      as (_ & _ & _ & Hcreated).
    exact (Hcreated t w' E).
  - apply (proj2 (emergency_source_override "t3"
                    (requestA (Some "BOGUS") false) wWalkIn) eq_refl).
    intros s [= <-] H. simpl in H.
    repeat (destruct H as [H|H]; [discriminate|]). exact H.
  - apply (proj2 (emergency_source_override "t3"
                    (requestA None false) wWalkIn) eq_refl).
    intros s [=].
Defined.

(** ** Failing and terminal life-cycle operations *)

Lemma map_tok_id_alter (f : Token -> Token) k l :
  (forall t, tok_id (f t) = tok_id t) ->
  map tok_id (alter f k l) = map tok_id l.
Proof.
  intros Hf. revert k. induction l as [|x l IH]; intros k; [now destruct k|].
  destruct k as [|k]; simpl; f_equal; [apply Hf|apply IH].
Qed.

Lemma rebalanced_ids d did date freed :
  map tok_id (rebalanced d did date freed) = map tok_id (tokens d).
Proof.
  unfold rebalanced. destruct (rebalancePlan _ _ _ _); [|reflexivity].
  now apply map_tok_id_alter.
Qed.

Lemma find_indexed_ids tokenId (l l' : list Token) (g : nat -> nat) :
  map tok_id l = map tok_id l' ->
  option_map fst (List.find (fun it => Nat.eqb (tok_id (snd it)) tokenId)
                            (imap (fun i x => (g i, x)) l))
  = option_map fst (List.find (fun it => Nat.eqb (tok_id (snd it)) tokenId)
                              (imap (fun i x => (g i, x)) l')).
Proof.
  revert l' g. induction l as [|x l IH]; intros [|x' l'] g; try discriminate;
    [reflexivity|].
  intros [= Hx Hl]. rewrite !imap_cons. simpl. rewrite Hx.
  destruct (Nat.eqb (tok_id x') tokenId); [reflexivity|].
  apply (IH l' (g ∘ S) Hl).
Qed.

(** Writing statuses and slots does not change which object [find] meets
    first for an identifier. *)
Lemma findToken_same_ids d d' tokenId k t t' :
  map tok_id (tokens d) = map tok_id (tokens d') ->
  findToken d tokenId = Some (k, t) -> tokens d' !! k = Some t' ->
  findToken d' tokenId = Some (k, t').
Proof.
  intros Hids Hf Hk.
  pose proof (find_indexed_ids tokenId (tokens d) (tokens d') (fun i => i) Hids) as H.
  fold (imap pair (tokens d)) in H. unfold findToken in *.
  change (imap (fun i x => (i, x)) (tokens d)) with (imap pair (tokens d)) in H.
  change (imap (fun i x => (i, x)) (tokens d')) with (imap pair (tokens d')) in H.
  rewrite Hf in H. simpl in H.
  destruct (List.find _ (imap pair (tokens d'))) as [[k' t'']|] eqn:E;
    [|discriminate].
  injection H as <-. apply find_some in E. destruct E as [Hin _].
  apply In_indexed in Hin. congruence.
Qed.

Lemma findToken_None d tokenId :
  findToken d tokenId = None <->
  forall t, In t (tokens d) -> tok_id t <> tokenId.
Proof.
  unfold findToken. split.
  - intros H t Ht. apply list_elem_of_In, list_elem_of_lookup in Ht.
    destruct Ht as [i Hi].
    pose proof (find_none _ _ H (i, t) (proj2 (In_indexed _ _ _) Hi)) as Hn.
    simpl in Hn. now apply Nat.eqb_neq in Hn.
  - intros H. destruct (List.find _ _) as [[k t]|] eqn:E; [|reflexivity].
    apply find_some in E. destruct E as [Hin Heq].
    apply In_indexed, lookup_In in Hin. simpl in Heq.
    apply Nat.eqb_eq in Heq. now destruct (H t Hin).
Qed.

(** The retired token is not the one that the rebalancing moves. *)
Lemma retired_rebalanced_lookup d k token st did date freed :
  tokens d !! k = Some token -> st <> SCHEDULED ->
  rebalanced (retired d k st) did date freed !! k = Some (set_status st token).
Proof.
  intros Hk Hst.
  assert (H1 : tokens (retired d k st) !! k = Some (set_status st token)).
  { simpl. rewrite list_lookup_alter_eq, Hk. reflexivity. }
  unfold rebalanced. destruct (rebalancePlan _ _ _ _) as [k'|] eqn:Ep; [|exact H1].
  apply rebalancePlan_scheduled in Ep. destruct Ep as (c & Hc & Hcs).
  rewrite list_lookup_alter_ne; [exact H1|].
  intros ->. rewrite H1 in Hc. injection Hc as <-. now simpl in Hcs.
Qed.

(** A successful retirement, in full. *)
Lemma cancelToken_success tokenId w k token :
  findToken (data w) tokenId = Some (k, token) -> status token = SCHEDULED ->
  cancelToken tokenId w
  = Returns (Some (set_status CANCELLED token))
            (withTokens w (rebalanced (retired (data w) k CANCELLED)
                             (tok_doctorId token) (tok_date token) (slotId token))).
Proof.
  intros Hf Hs. rewrite cancelToken_run, Hf, Hs. simpl.
  apply findToken_Some in Hf. destruct Hf as [Hk _].
  now rewrite (retired_rebalanced_lookup (data w) k token CANCELLED).
Qed.

Lemma markNoShow_success tokenId w k token :
  findToken (data w) tokenId = Some (k, token) -> status token = SCHEDULED ->
  markNoShow tokenId w
  = Returns (Some (set_status NO_SHOW token))
            (withTokens w (rebalanced (retired (data w) k NO_SHOW)
                             (tok_doctorId token) (tok_date token) (slotId token))).
Proof.
  intros Hf Hs. rewrite markNoShow_run, Hf, Hs. simpl.
  apply findToken_Some in Hf. destruct Hf as [Hk _].
  now rewrite (retired_rebalanced_lookup (data w) k token NO_SHOW).
Qed.

Lemma cancelToken_failure tokenId w :
  ~ (exists k t, findToken (data w) tokenId = Some (k, t) /\ status t = SCHEDULED) ->
  cancelToken tokenId w = Returns None w.
Proof.
  intros H. rewrite cancelToken_run.
  destruct (findToken (data w) tokenId) as [[k t]|]; [|reflexivity].
  destruct (status t) eqn:Es; try reflexivity.
  exfalso. apply H. eauto.
Qed.

Lemma markNoShow_failure tokenId w :
  ~ (exists k t, findToken (data w) tokenId = Some (k, t) /\ status t = SCHEDULED) ->
  markNoShow tokenId w = Returns None w.
Proof.
  intros H. rewrite markNoShow_run.
  destruct (findToken (data w) tokenId) as [[k t]|]; [|reflexivity].
  destruct (status t) eqn:Es; try reflexivity.
  exfalso. apply H. eauto.
Qed.

(** After a retirement the identifier leads to a token that is no longer
    SCHEDULED. *)
Lemma retired_not_scheduled tokenId w k token st did date freed :
  findToken (data w) tokenId = Some (k, token) -> st <> SCHEDULED ->
  ~ (exists k' t',
       findToken (data (withTokens w (rebalanced (retired (data w) k st) did date freed)))
                 tokenId = Some (k', t')
       /\ status t' = SCHEDULED).
Proof.
  intros Hf Hst (k' & t' & Hf' & Hs').
  pose proof (findToken_Some _ _ _ _ Hf) as [Hk _].
  pose proof (retired_rebalanced_lookup (data w) k token st did date freed Hk Hst) as Hl.
  assert (Hids : map tok_id (tokens (data w))
                 = map tok_id (rebalanced (retired (data w) k st) did date freed)).
  { rewrite rebalanced_ids. simpl. symmetry. now apply map_tok_id_alter. }
  pose proof (findToken_same_ids (data w)
                (data (withTokens w (rebalanced (retired (data w) k st) did date freed)))
                tokenId k token _ Hids Hf Hl) as Hf2.
  rewrite Hf2 in Hf'. injection Hf' as <- <-. simpl in Hs'. congruence.
Qed.

(** C8. Terminal status immutability: [cancelToken] and [markNoShow] return
    [null] exactly when no token has the identifier or the token found is not
    SCHEDULED, and then the world is unchanged; after either has succeeded,
    the token is no longer SCHEDULED and both fail on it, changing nothing. *)
Theorem terminal_status_immutability tokenId w :
  let scheduled :=
    exists k t, findToken (data w) tokenId = Some (k, t) /\ status t = SCHEDULED in
  ((exists w', cancelToken tokenId w = Returns None w') <-> ~ scheduled)
  /\ ((exists w', markNoShow tokenId w = Returns None w') <-> ~ scheduled)
  /\ (forall w', cancelToken tokenId w = Returns None w' -> w' = w)
  /\ (forall w', markNoShow tokenId w = Returns None w' -> w' = w)
  /\ (forall t w1,
        cancelToken tokenId w = Returns (Some t) w1
        \/ markNoShow tokenId w = Returns (Some t) w1 ->
        status t <> SCHEDULED
        /\ cancelToken tokenId w1 = Returns None w1
        /\ markNoShow tokenId w1 = Returns None w1).
Proof.
  intros scheduled.
  assert (Hdich : scheduled \/ ~ scheduled).
  { subst scheduled.
    destruct (findToken (data w) tokenId) as [[k t]|] eqn:Hf.
    - destruct (status t) eqn:Es; [left; eauto| |];
        right; intros (k' & t' & [= <- <-] & Hs); congruence.
    - right. intros (k' & t' & [=] & _). }
  destruct Hdich as [Hyes|Hno].
  - destruct (Hyes) as (k & token & Hf & Hs).
    rewrite (cancelToken_success _ _ _ _ Hf Hs), (markNoShow_success _ _ _ _ Hf Hs).
    repeat split; try (intros [w' [=]]); try tauto; try discriminate.
    + destruct H as [[= <- <-]|[= <- <-]]; simpl; discriminate.
    + destruct H as [[= <- <-]|[= <- <-]];
        apply cancelToken_failure;
        apply (retired_not_scheduled tokenId w k token); auto; discriminate.
    + destruct H as [[= <- <-]|[= <- <-]];
        apply markNoShow_failure;
        apply (retired_not_scheduled tokenId w k token); auto; discriminate.
  - rewrite (cancelToken_failure _ _ Hno), (markNoShow_failure _ _ Hno).
    repeat split; eauto; try (now intros w' [= <-]);
      destruct H as [H|H]; discriminate.
Qed.

Lemma terminal_status_immutability_witness :
  cancelToken 3 wCancelled = Returns None wCancelled
  /\ markNoShow 3 wCancelled = Returns None wCancelled
  /\ (exists w', cancelToken 7 wFull = Returns None w').
Proof.
  destruct (terminal_status_immutability 3 wFull) as (_ & _ & _ & _ & Hagain).
  destruct (terminal_status_immutability 7 wFull) as (Hiff & _).
  destruct (cancelToken 3 wFull) as [[t|] w1| |] eqn:E;
    try (vm_compute in E; discriminate).
  destruct (Hagain t w1 (or_introl eq_refl)) as (_ & Hc & Hn).
  assert (Hw : w1 = wCancelled) by (vm_compute in E; now injection E as _ <-).
  rewrite Hw in Hc, Hn.
  split; [exact Hc|split; [exact Hn|]].
  apply Hiff. intros (k & t' & Hf & _). vm_compute in Hf. discriminate.
Defined.

(** ** Earliest fit *)

Lemma find_first {A} (p : A -> bool) pre x post :
  (forall y, In y pre -> p y = false) -> p x = true ->
  List.find p (pre ++ x :: post) = Some x.
Proof.
  intros Hpre Hx. induction pre as [|y pre IH]; simpl.
  - now rewrite Hx.
  - rewrite (Hpre y (or_introl eq_refl)). apply IH.
    intros z Hz. apply Hpre. now right.
Qed.

Lemma find_all_false {A} (p : A -> bool) l :
  (forall y, In y l -> p y = false) -> List.find p l = None.
Proof.
  intros H. induction l as [|y l IH]; simpl; [reflexivity|].
  rewrite (H y (or_introl eq_refl)). apply IH.
  intros z Hz. apply H. now right.
Qed.

(** With a duration of at least one minute [generateSlotsForDay] returns. *)
Lemma generateSlotsForDay_returns doctor date w :
  1 <= slotDurationMinutes doctor ->
  exists sl w1, generateSlotsForDay doctor date w = Returns sl w1.
Proof.
  intros Hd. destruct (existingSlots w doctor date) as [|x l] eqn:He.
  - rewrite generateSlotsForDay_first by assumption.
    destruct (dayjs date (doc_startTime doctor)) as [s|];
      [destruct (dayjs date (doc_endTime doctor)) as [e|]|]; eauto.
    rewrite slotTimes_enough by lia. eauto.
  - rewrite generateSlotsForDay_existing by (rewrite He; discriminate). eauto.
Qed.

(** In a reachable world, when the slots of a day have just been generated
    the first of them has room. *)
Lemma fresh_slots_have_room w doctor date ts :
  Inv w -> 0 < maxPatientsPerSlot doctor ->
  forall slot, In slot (slotsOf doctor date (seed w) ts) ->
    hasRoom (data (withSlots w (slotsOf doctor date (seed w) ts))) slot = true.
Proof.
  intros [Hc Hn Hsf Htf Hd] Hcap slot Hin. apply hasRoom_spec. simpl.
  apply In_slotsOf in Hin. destruct Hin as (Hr & -> & _).
  rewrite occupancy_unreferenced; [simpl; lia|].
  intros t Ht. specialize (Htf t Ht). lia.
Qed.

(** ** Displacement *)

Lemma generateSlotsForDay_tokens doctor date w sl w1 :
  generateSlotsForDay doctor date w = Returns sl w1 ->
  tokens (data w1) = tokens (data w).
Proof.
  intros H.
  assert (Hs : settle (generateSlotsForDay doctor date w) = Some w1) by now rewrite H.
  apply generateSlotsForDay_worlds in Hs.
  destruct Hs as [->|(_ & ts & ->)]; reflexivity.
Qed.

(** [allocateToken] never writes to a token that is already stored: the
    emergency loop runs only after the first loop has found no slot with
    room, and then it finds none to move a token to. *)
Lemma allocateToken_keeps_tokens now req w r w' :
  allocateToken now req w = Returns r w' ->
  forall k t, tokens (data w) !! k = Some t -> tokens (data w') !! k = Some t.
Proof.
  rewrite allocateToken_run.
  destruct (normalizedSource req) as [src|]; [|discriminate].
  destruct (negb _); [discriminate|].
  destruct (getDoctorById _ _) as [doctor|]; [|discriminate].
  destruct (generateSlotsForDay doctor (req_date req) w) as [sl w1|msg w1|] eqn:Eg;
    try discriminate.
  apply generateSlotsForDay_tokens in Eg.
  destruct (List.find _ _) as [slot|]; intros [= <- <-] k t Hk; simpl.
  - rewrite Eg. now apply lookup_app_l_Some.
  - now rewrite Eg.
Qed.


(** While a slot of the day has room an emergency is served like any other
    request, by the first loop (the comment of line 91): on the day of
    [wWalkIn] the first slot is full with a WALK_IN of score 1 and the second
    slot has room, and the emergency token is created in the second slot
    while the walk-in stays in the first. *)
Lemma emergency_takes_later_free_slot :
  hasRoom (data wWalkIn) slotA1 = false
  /\ (exists lowest, last (getTokensForSlot (data wWalkIn) (slot_id slotA1))
                     = Some (0%nat, lowest)
                     /\ source lowest = "WALK_IN"
                     /\ priorityScore lowest < getPriorityScore "EMERGENCY")
  /\ hasRoom (data wWalkIn) slotA2 = true
  /\ allocateToken "t3" (requestA None true) wWalkIn
     = Returns (Some (tokenE 4 (slot_id slotA2))) (withToken wWalkIn (tokenE 4 (slot_id slotA2)))
  /\ (exists walkIn, tokens (data (withToken wWalkIn (tokenE 4 (slot_id slotA2)))) !! 0%nat
                     = Some walkIn
                     /\ source walkIn = "WALK_IN"
                     /\ slotId walkIn = slot_id slotA1).
Proof.
  split; [reflexivity|]. split.
  - eexists. split; [reflexivity|]. split; [reflexivity|]. vm_compute. reflexivity.
  - split; [reflexivity|]. split; [vm_compute; reflexivity|].
    eexists. split; [reflexivity|]. split; reflexivity.
Qed.




(** C5. Displacement refusal.  During [allocateToken] a stored token whose
    score is at least the score of the request keeps its slot.  And in the
    emergency loop itself, from any world and on any list of slots, a token
    whose slot changes was the last one in the order of [getTokensForSlot] of
    a full slot of the list (no SCHEDULED token of that slot scores less),
    scores strictly less than the request, and goes to a slot of the list
    that had room. *)
Theorem displacement_refusal :
  (forall now req w r w' src k t,
     allocateToken now req w = Returns r w' ->
     normalizedSource req = Some src ->
     tokens (data w) !! k = Some t ->
     getPriorityScore src <= priorityScore t ->
     exists t', tokens (data w') !! k = Some t' /\ slotId t' = slotId t)
  /\ (forall now did date pn src sc score sl w r w' k t t',
        bumpLoop (createTokenInSlot now did date pn src sc) score sl w = Returns r w' ->
        tokens (data w) !! k = Some t ->
        tokens (data w') !! k = Some t' ->
        slotId t' <> slotId t ->
        priorityScore t < score
        /\ status t = SCHEDULED
        /\ (forall j u, tokens (data w) !! j = Some u ->
                        scheduledIn (slotId t) u = true ->
                        priorityScore t <= priorityScore u)
        /\ (exists slot, In slot sl /\ slot_id slot = slotId t
                         /\ hasRoom (data w) slot = false)
        /\ (exists laterSlot, In laterSlot sl /\ slot_id laterSlot = slotId t'
                              /\ hasRoom (data w) laterSlot = true)).
Proof.
  split.
  - intros now req w r w' src k t Hrun _ Hk _. exists t. split; [|reflexivity].
    now apply (allocateToken_keeps_tokens now req w r w' Hrun).
  - intros now did date pn src sc score sl w r w' k t t' Hrun Hk Hk' Hmoved.
    rewrite bumpLoop_plan in Hrun.
    destruct (bumpPlan (data w) score sl) as [[slot|k0 target slot]|] eqn:Ep.
    + rewrite createTokenInSlot_run in Hrun. injection Hrun as _ <-.
      simpl in Hk'. rewrite (lookup_app_l_Some _ _ _ _ Hk) in Hk'. congruence.
    + rewrite createTokenInSlot_run in Hrun. injection Hrun as _ <-.
      simpl in Hk'.
      assert (Hlen : (k < length (alter (set_slotId target) k0 (tokens (data w))))%nat)
        by (rewrite length_alter; now apply lookup_lt_Some in Hk).
      rewrite lookup_app_l in Hk' by exact Hlen.
      destruct (Nat.eq_dec k0 k) as [->|Hne];
        [|rewrite list_lookup_alter_ne in Hk' by exact Hne; congruence].
      rewrite list_lookup_alter_eq, Hk in Hk'. injection Hk' as <-.
      apply bumpPlan_bump in Ep.
      destruct Ep as (pre & later & lowest & laterSlot & -> & Hfull & Hlast & Hlt & Hf & ->).
      apply last_getTokensForSlot in Hlast. destruct Hlast as (Hk0 & Hsch & Hmin).
      rewrite Hk in Hk0. injection Hk0 as <-.
      apply scheduledIn_spec in Hsch. destruct Hsch as [Hsid Hst].
      apply find_some in Hf. destruct Hf as [Hlater Hroom].
      repeat split; try assumption.
      * intros j u Hj Hu. rewrite Hsid in Hu. apply (Hmin j u Hj Hu).
      * exists slot. repeat split; auto. apply in_elt.
      * exists laterSlot. repeat split; auto.
        apply in_or_app. right. now right.
    + injection Hrun as _ <-. congruence.
Qed.

Lemma displacement_refusal_witness :
  (exists r w' t',
     allocateToken "t2" (requestA (Some "WALK_IN") false) wWalkIn = Returns r w'
     /\ tokens (data w') !! 0%nat = Some t' /\ slotId t' = slotId walkIn3)
  /\ (bumpLoop (createTokenInSlot "t3" 0 day1 "patient" "EMERGENCY" 5) 5
               [slotA1; slotA2] wWalkIn
      = Returns (Some (tokenE 4 1)) wBumped
      /\ priorityScore walkIn3 < 5
      /\ status walkIn3 = SCHEDULED).
Proof.
  split.
  - destruct (allocateToken "t2" (requestA (Some "WALK_IN") false) wWalkIn)
      as [r w'| |] eqn:E; try (vm_compute in E; discriminate).
    destruct (proj1 displacement_refusal "t2" (requestA (Some "WALK_IN") false)
                wWalkIn r w' "WALK_IN" 0%nat walkIn3 E eq_refl eq_refl
                ltac:(vm_compute; discriminate))
      as (t' & Ht' & Hslot).
    exists r, w', t'. auto.
  - assert (E : bumpLoop (createTokenInSlot "t3" 0 day1 "patient" "EMERGENCY" 5) 5
                         [slotA1; slotA2] wWalkIn
                = Returns (Some (tokenE 4 1)) wBumped) by (vm_compute; reflexivity).
    destruct (proj2 displacement_refusal "t3" 0%nat day1 "patient" "EMERGENCY" 5 5
                [slotA1; slotA2] wWalkIn (Some (tokenE 4 1)) wBumped
                0%nat walkIn3 (set_slotId 2 walkIn3) E eq_refl eq_refl
                ltac:(simpl; lia))
      as (Hlt & Hst & _).
    auto.
Defined.

(** ** Rebalancing *)

Lemma rebalanced_meets_spec d did date freed :
  RebalanceSpec (tokens d) (getSlotsForDoctorDay d did date) freed
                (rebalanced d did date freed).
Proof.
  unfold rebalanced, rebalancePlan.
  destruct (findIndex (fun s => Nat.eqb (slot_id s) freed)
                      (getSlotsForDoctorDay d did date)) as [i|] eqn:Ei.
  - destruct (pullPlan d _) as [k|] eqn:Ep.
    + apply pullPlan_Some in Ep.
      destruct Ep as (pre & L & post & c & rest & Hlater & Hpre & HL).
      apply (rebalance_move _ _ _ pre L post k c).
      * unfold laterSlots. now rewrite Ei, Hlater.
      * intros s Hs. rewrite <- length_getTokensForSlot. now rewrite (Hpre s Hs).
      * apply head_getTokensForSlot in HL. exact HL.
    + apply (rebalance_nobody _ _ _ (drop (S i) (getSlotsForDoctorDay d did date))).
      * unfold laterSlots. now rewrite Ei.
      * intros s Hs. rewrite <- length_getTokensForSlot.
        now rewrite (proj1 (pullPlan_None d _) Ep s Hs).
  - apply rebalance_unknown_slot. unfold laterSlots. now rewrite Ei.
Qed.

(** The rebalancing of the design document changes the slot of one token at
    most. *)
Lemma RebalanceSpec_one_move ts day freed ts' :
  RebalanceSpec ts day freed ts' ->
  forall i j, slotChanged ts ts' i -> slotChanged ts ts' j -> i = j.
Proof.
  assert (Hsame : forall i, ~ slotChanged ts ts i)
    by (intros i (a & b & Ha & Hb & Hne); congruence).
  intros [Hnone|later Hl Hz|pre L post k c Hl Hz Hbest] i j Hi Hj;
    try (now destruct (Hsame i Hi)).
  assert (Hat : forall n, slotChanged ts (alter (set_slotId freed) k ts) n -> n = k).
  { intros n (a & b & Ha & Hb & Hne). destruct (Nat.eq_dec k n) as [E|E]; [auto|].
    rewrite list_lookup_alter_ne in Hb by exact E. congruence. }
  rewrite (Hat i Hi), (Hat j Hj). reflexivity.
Qed.

Lemma alike_scheduledIn sid a b :
  alike a b -> scheduledIn sid a = scheduledIn sid b.
Proof.
  intros (Hs & _ & Hst). unfold scheduledIn. rewrite Hs. f_equal.
  destruct (status a), (status b); simpl; try reflexivity;
    destruct Hst as [H1 H2]; try (now specialize (H1 eq_refl));
    now specialize (H2 eq_refl).
Qed.

Lemma alikeAt_indexed (l l' : list Token) (g : nat -> nat) :
  Forall2 alike l l' ->
  Forall2 alikeAt (imap (fun i x => (g i, x)) l) (imap (fun i x => (g i, x)) l').
Proof.
  intros H. revert g. induction H as [|a b l l' Hab Hl IH]; intros g; [constructor|].
  rewrite !imap_cons. constructor; [now split|apply (IH (g ∘ S))].
Qed.

Lemma alikeAt_filter sid l l' :
  Forall2 alikeAt l l' ->
  Forall2 alikeAt (List.filter (fun it => scheduledIn sid (snd it)) l)
                  (List.filter (fun it => scheduledIn sid (snd it)) l').
Proof.
  induction 1 as [|x y l l' Hxy Hl IH]; simpl; [constructor|].
  rewrite (alike_scheduledIn sid _ _ (proj2 Hxy)).
  destruct (scheduledIn sid (snd y)); [constructor|]; assumption.
Qed.

Lemma alikeAt_insertSorted x y l l' :
  alikeAt x y -> Forall2 alikeAt l l' ->
  Forall2 alikeAt (insertSorted byPriorityDesc x l) (insertSorted byPriorityDesc y l').
Proof.
  intros Hxy. induction 1 as [|a b l l' Hab Hl IH]; simpl.
  - constructor; [assumption|constructor].
  - assert (E : byPriorityDesc x a = byPriorityDesc y b).
    { unfold byPriorityDesc. destruct Hxy as (_ & _ & -> & _).
      destruct Hab as (_ & _ & -> & _). reflexivity. }
    rewrite E. destruct (byPriorityDesc y b).
    + constructor; [assumption|]. constructor; assumption.
    + constructor; assumption.
Qed.

Lemma alikeAt_sortBy l l' :
  Forall2 alikeAt l l' ->
  Forall2 alikeAt (sortBy byPriorityDesc l) (sortBy byPriorityDesc l').
Proof.
  induction 1 as [|x y l l' Hxy Hl IH]; simpl; [constructor|].
  now apply alikeAt_insertSorted.
Qed.

Lemma alikeAt_getTokensForSlot d d' sid :
  Forall2 alike (tokens d) (tokens d') ->
  Forall2 alikeAt (getTokensForSlot d sid) (getTokensForSlot d' sid).
Proof.
  intros H. unfold getTokensForSlot.
  apply alikeAt_sortBy, alikeAt_filter.
  apply (alikeAt_indexed (tokens d) (tokens d') (fun i => i) H).
Qed.

(** Stores that hold the same slots and tokens alike lead the rebalancing to
    the same decision. *)
Lemma pullPlan_alike d d' later :
  Forall2 alike (tokens d) (tokens d') -> pullPlan d later = pullPlan d' later.
Proof.
  intros H. induction later as [|s later IH]; simpl; [reflexivity|].
  pose proof (alikeAt_getTokensForSlot d d' (slot_id s) H) as Hs.
  destruct Hs as [|[k c] [k' c'] r r' Hh _]; [exact IH|].
  destruct Hh as [Hk _]. simpl in Hk. now subst.
Qed.

Lemma rebalancePlan_alike d d' did date freed :
  slots d = slots d' -> Forall2 alike (tokens d) (tokens d') ->
  rebalancePlan d did date freed = rebalancePlan d' did date freed.
Proof.
  intros Hs Ht. unfold rebalancePlan, getSlotsForDoctorDay. rewrite Hs.
  destruct (findIndex _ _); [|reflexivity]. now apply pullPlan_alike.
Qed.

Lemma alike_refl t : alike t t.
Proof. repeat split; auto. Qed.

Lemma alike_retired k st st' ts :
  st <> SCHEDULED -> st' <> SCHEDULED ->
  Forall2 alike (alter (set_status st) k ts) (alter (set_status st') k ts).
Proof.
  intros Hst Hst'. revert k. induction ts as [|t ts IH]; intros k; [destruct k; constructor|].
  destruct k as [|k]; simpl; constructor.
  - repeat split; simpl; intros; congruence.
  - clear IH. induction ts; constructor; [apply alike_refl|assumption].
  - apply alike_refl.
  - apply IH.
Qed.

Lemma alike_alter_slotId s k ts ts' :
  Forall2 alike ts ts' ->
  Forall2 alike (alter (set_slotId s) k ts) (alter (set_slotId s) k ts').
Proof.
  intros H. revert k. induction H as [|a b l l' Hab Hl IH]; intros k;
    [destruct k; constructor|].
  destruct k as [|k]; simpl; constructor.
  - destruct Hab as (_ & Hp & Hst). unfold alike. simpl. tauto.
  - exact Hl.
  - exact Hab.
  - apply IH.
Qed.

Lemma alike_slotIds ts ts' : Forall2 alike ts ts' -> map slotId ts = map slotId ts'.
Proof.
  induction 1 as [|a b l l' Hab Hl IH]; simpl; [reflexivity|].
  destruct Hab as (-> & _). now rewrite IH.
Qed.

(** Whether the token has been cancelled or has not shown up, the
    rebalancing leaves every token in the same slot. *)
Lemma rebalanced_cancel_no_show d k did date freed :
  map slotId (rebalanced (retired d k CANCELLED) did date freed)
  = map slotId (rebalanced (retired d k NO_SHOW) did date freed).
Proof.
  apply alike_slotIds.
  assert (Ha : Forall2 alike (tokens (retired d k CANCELLED)) (tokens (retired d k NO_SHOW)))
    by (apply alike_retired; discriminate).
  unfold rebalanced.
  rewrite (rebalancePlan_alike (retired d k CANCELLED) (retired d k NO_SHOW)
             did date freed eq_refl Ha).
  destruct (rebalancePlan _ _ _ _); [|exact Ha].
  now apply alike_alter_slotId.
Qed.

Lemma slotChanged_retired ts ts' k st i :
  slotChanged ts ts' i -> slotChanged (alter (set_status st) k ts) ts' i.
Proof.
  intros (a & b & Ha & Hb & Hne).
  destruct (Nat.eq_dec k i) as [->|E].
  - exists (set_status st a), b. rewrite list_lookup_alter_eq, Ha. auto.
  - exists a, b. rewrite list_lookup_alter_ne by exact E. auto.
Qed.

(** ** The order of start times *)

Lemma ascii_compare_refl a : Ascii.compare a a = Eq.
Proof. apply N.compare_refl. Qed.

Lemma ascii_compare_lt_trans a b c :
  Ascii.compare a b = Lt -> Ascii.compare b c = Lt -> Ascii.compare a c = Lt.
Proof.
  unfold Ascii.compare. rewrite !N.compare_lt_iff. apply N.lt_trans.
Qed.

Lemma string_compare_refl s : String.compare s s = Eq.
Proof.
  induction s as [|a s IH]; simpl; [reflexivity|].
  now rewrite ascii_compare_refl.
Qed.

Lemma string_compare_lt_trans s1 s2 s3 :
  String.compare s1 s2 = Lt -> String.compare s2 s3 = Lt ->
  String.compare s1 s3 = Lt.
Proof.
  revert s2 s3. induction s1 as [|a s1 IH]; intros [|b s2] [|c s3]; simpl;
    try discriminate; try reflexivity.
  destruct (Ascii.compare a b) eqn:Eab; try discriminate;
    destruct (Ascii.compare b c) eqn:Ebc; try discriminate; intros H1 H2.
  - apply Ascii.compare_eq_iff in Eab, Ebc. subst.
    rewrite ascii_compare_refl. now apply (IH s2).
  - apply Ascii.compare_eq_iff in Eab. subst. now rewrite Ebc.
  - apply Ascii.compare_eq_iff in Ebc. subst. now rewrite Eab.
  - now rewrite (ascii_compare_lt_trans a b c).
Qed.

Lemma string_leb_trans s1 s2 s3 :
  String.leb s1 s2 = true -> String.leb s2 s3 = true -> String.leb s1 s3 = true.
Proof.
  unfold String.leb.
  destruct (String.compare s1 s2) eqn:E12; try discriminate;
    destruct (String.compare s2 s3) eqn:E23; try discriminate; intros _ _.
  - apply String.compare_eq_iff in E12, E23. subst.
    now rewrite string_compare_refl.
  - apply String.compare_eq_iff in E12. subst. now rewrite E23.
  - apply String.compare_eq_iff in E23. subst. now rewrite E12.
  - now rewrite (string_compare_lt_trans s1 s2 s3).
Qed.

Section SortedOutput.
Context {A : Type} (le : A -> A -> bool).
Hypothesis le_total : forall a b, le a b = true \/ le b a = true.
Hypothesis le_trans : forall a b c, le a b = true -> le b c = true -> le a c = true.

Lemma insertSorted_sorted x l :
  StronglySorted (fun a b => le a b = true) l ->
  StronglySorted (fun a b => le a b = true) (insertSorted le x l).
Proof.
  induction 1 as [|y r Hs IH Hall]; simpl.
  - constructor; constructor.
  - destruct (le x y) eqn:E.
    + constructor; [now constructor|].
      constructor; [exact E|].
      rewrite List.Forall_forall in *. intros z Hz.
      apply (le_trans x y z E). now apply Hall.
    + constructor; [exact IH|].
      rewrite List.Forall_forall in *. intros z Hz.
      apply (Permutation_in _ (insertSorted_perm le x r)) in Hz.
      destruct Hz as [<-|Hz]; [|now apply Hall].
      destruct (le_total x y) as [H|H]; [congruence|exact H].
Qed.

Lemma sortBy_sorted l : StronglySorted (fun a b => le a b = true) (sortBy le l).
Proof.
  induction l as [|x l IH]; simpl; [constructor|].
  now apply insertSorted_sorted.
Qed.
End SortedOutput.

(** The sequence that [getSlotsForDoctorDay] returns is in the order of its
    start-time strings. *)
Lemma getSlotsForDoctorDay_sorted d did date :
  StronglySorted (fun a b => byStartTime a b = true) (getSlotsForDoctorDay d did date).
Proof.
  apply sortBy_sorted.
  - intros a b. apply String.leb_total.
  - intros a b c. apply string_leb_trans.
Qed.

(** Printing and reading a minute of the day. *)
Lemma parseHHmm_formatHHmm t :
  0 <= t < 1440 -> parseHHmm (formatHHmm t) = Some t.
Proof.
  intros Ht.
  assert (Hall : forallb (fun n => match parseHHmm (formatHHmm (Z.of_nat n)) with
                                   | Some t' => t' =? Z.of_nat n
                                   | None => false
                                   end) (seq 0 1440) = true)
    by (vm_compute; reflexivity).
  rewrite forallb_forall in Hall.
  specialize (Hall (Z.to_nat t)). rewrite Z2Nat.id in Hall by lia.
  destruct (parseHHmm (formatHHmm t)) as [t'|].
  - f_equal. apply Z.eqb_eq. apply Hall. apply in_seq. lia.
  - discriminate Hall. apply in_seq. lia.
Qed.

(** On the minutes of a day the order of the printed strings is the order of
    the instants. *)
Lemma formatHHmm_next n :
  (n < 1439)%nat ->
  String.compare (formatHHmm (Z.of_nat n)) (formatHHmm (Z.of_nat (S n))) = Lt.
Proof.
  intros Hn.
  assert (Hall : forallb (fun n => match String.compare (formatHHmm (Z.of_nat n))
                                                        (formatHHmm (Z.of_nat (S n))) with
                                   | Lt => true
                                   | _ => false
                                   end) (seq 0 1439) = true)
    by (vm_compute; reflexivity).
  rewrite forallb_forall in Hall.
  specialize (Hall n ltac:(apply in_seq; lia)).
  now destruct (String.compare _ _).
Qed.

Lemma formatHHmm_increasing a b :
  0 <= a -> a < b -> b < 1440 ->
  String.compare (formatHHmm a) (formatHHmm b) = Lt.
Proof.
  intros Ha Hab Hb.
  assert (H : forall k n : nat, (n + S k < 1440)%nat ->
            String.compare (formatHHmm (Z.of_nat n)) (formatHHmm (Z.of_nat (n + S k))) = Lt).
  { induction k as [|k IH]; intros n Hn.
    - rewrite Nat.add_1_r. apply formatHHmm_next. lia.
    - apply (string_compare_lt_trans _ (formatHHmm (Z.of_nat (n + S k)))).
      + apply IH. lia.
      + replace (n + S (S k))%nat with (S (n + S k)) by lia.
        apply formatHHmm_next. lia. }
  specialize (H (Z.to_nat (b - a - 1)) (Z.to_nat a) ltac:(lia)).
  rewrite Z2Nat.id in H by lia.
  replace (Z.of_nat (Z.to_nat a + S (Z.to_nat (b - a - 1)))) with b in H by lia.
  exact H.
Qed.

Lemma formatHHmm_leb a b :
  0 <= a < 1440 -> 0 <= b < 1440 ->
  String.leb (formatHHmm a) (formatHHmm b) = true -> a <= b.
Proof.
  intros Ha Hb H. destruct (Z_le_gt_dec a b) as [Hle|Hgt]; [exact Hle|].
  unfold String.leb in H. rewrite String.compare_antisym in H.
  rewrite (formatHHmm_increasing b a) in H by lia. discriminate.
Qed.

Lemma digit_of_range c n : digit_of c = Some n -> 0 <= n <= 9.
Proof.
  unfold digit_of.
  destruct ((48 <=? Z.of_nat (nat_of_ascii c)) && (Z.of_nat (nat_of_ascii c) <=? 57)) eqn:E;
    [|discriminate].
  apply andb_true_iff in E. destruct E as [E1 E2].
  apply Z.leb_le in E1, E2. intros [= <-]. lia.
Qed.

Lemma parseHHmm_range s t : parseHHmm s = Some t -> 0 <= t < 1440.
Proof.
  unfold parseHHmm.
  destruct s as [|a [|b [|sep [|c [|d [|? ?]]]]]]; try discriminate.
  destruct (digit_of a) as [h1|] eqn:Ea; [|discriminate].
  destruct (digit_of b) as [h2|] eqn:Eb; [|discriminate].
  destruct (digit_of c) as [m1|] eqn:Ec; [|discriminate].
  destruct (digit_of d) as [m2|] eqn:Ed; [|discriminate].
  apply digit_of_range in Ea, Eb, Ec, Ed.
  destruct (Ascii.eqb sep ":" && (10 * h1 + h2 <? 24) && (10 * m1 + m2 <? 60)) eqn:E;
    [|discriminate].
  apply andb_true_iff in E. destruct E as [E E3].
  apply andb_true_iff in E. destruct E as [_ E2].
  apply Z.ltb_lt in E2, E3. intros [= <-]. lia.
Qed.

(** Every slot that the loop emits starts at or after the first cursor value
    and before the end. *)
Lemma slotTimes_bounds dur finish fuel current ts :
  slotTimes fuel dur current finish = Some ts ->
  forall a b, In (a, b) ts -> current <= a < finish.
Proof.
  revert current ts. induction fuel as [|fuel IH]; intros current ts; simpl.
  - destruct (current <? finish); [discriminate|]. intros [= <-] a b [].
  - destruct (current <? finish) eqn:E; [|intros [= <-] a b []].
    apply Z.ltb_lt in E.
    destruct (slotTimes fuel dur (current + dur) finish) as [rest|] eqn:Er;
      [|discriminate].
    intros [= <-] a b [[= <- <-]|Hin]; [lia|].
    specialize (IH _ _ Er a b Hin).
    destruct (Z_le_gt_dec dur 0) as [Hd|Hd]; [|lia].
    destruct rest as [|p r]; [destruct Hin|].
    destruct fuel as [|fuel']; simpl in Er.
    + destruct (current + dur <? finish); discriminate.
    + destruct (current + dur <? finish) eqn:E2; [|discriminate].
      apply Z.ltb_lt in E2.
      rewrite (slotTimes_diverges dur finish fuel' (current + dur + dur)) in Er
        by lia.
      discriminate.
Qed.

Lemma In_slotsOf_start doctor date n ts slot :
  In slot (slotsOf doctor date n ts) ->
  exists a b, In (a, b) ts /\ slot_startTime slot = formatHHmm a.
Proof.
  revert n. induction ts as [|[a b] r IH]; intros n; simpl; [tauto|].
  intros [<-|H].
  - exists a, b. auto.
  - destruct (IH _ H) as (a' & b' & Hin & Hs). exists a', b'. auto.
Qed.

Lemma slotTimesOk_generateSlotsForDay doctor date w w' :
  slotTimesOk w -> settle (generateSlotsForDay doctor date w) = Some w' ->
  slotTimesOk w'.
Proof.
  intros Hok.
  destruct (existingSlots w doctor date) as [|x l] eqn:He.
  - rewrite generateSlotsForDay_first by assumption. unfold dayjs.
    destruct (parseHHmm (doc_startTime doctor)) as [s|] eqn:Es;
      [destruct (parseHHmm (doc_endTime doctor)) as [e|] eqn:Ee|];
      try (simpl; rewrite withSlots_nil; now intros [= <-]).
    destruct (slotTimes _ _ s e) as [ts|] eqn:Et; simpl; [|discriminate].
    intros [= <-] slot Hin. simpl in Hin. apply in_app_or in Hin.
    destruct Hin as [Hin|Hin]; [now apply Hok|].
    apply In_slotsOf_start in Hin. destruct Hin as (a & b & Hin & ->).
    apply (slotTimes_bounds _ _ _ _ _ Et) in Hin.
    apply parseHHmm_range in Es, Ee. exists a. split; [lia|reflexivity].
  - rewrite generateSlotsForDay_existing by (rewrite He; discriminate).
    simpl. now intros [= <-].
Qed.

Lemma slotTimesOk_allocateToken now req w w' :
  slotTimesOk w -> settle (allocateToken now req w) = Some w' -> slotTimesOk w'.
Proof.
  intros Hok. rewrite allocateToken_run.
  destruct (normalizedSource req) as [src|]; [|simpl; now intros [= <-]].
  destruct (negb _); [simpl; now intros [= <-]|].
  destruct (getDoctorById _ _) as [doctor|]; [|simpl; now intros [= <-]].
  pose proof (slotTimesOk_generateSlotsForDay doctor (req_date req) w) as Hgen.
  destruct (generateSlotsForDay doctor (req_date req) w) as [sl w1|msg w1|];
    [| |discriminate].
  - specialize (Hgen w1 Hok eq_refl).
    destruct (List.find _ _); simpl; now intros [= <-].
  - simpl. intros [= <-]. now apply Hgen.
Qed.

Lemma reachable_slotTimesOk w : reachable w -> slotTimesOk w.
Proof.
  induction 1 as [|w op w' Hreach IH Hadm Hexec]; [intros slot []|].
  destruct op; simpl in Hexec.
  - injection Hexec as <-. exact IH.
  - eapply slotTimesOk_generateSlotsForDay; eauto.
  - eapply slotTimesOk_allocateToken; eauto.
  - rewrite cancelToken_run in Hexec.
    destruct (findToken _ _) as [[k t]|]; [|now injection Hexec as <-].
    destruct (negb _); now injection Hexec as <-.
  - rewrite markNoShow_run in Hexec.
    destruct (findToken _ _) as [[k t]|]; [|now injection Hexec as <-].
    destruct (negb _); now injection Hexec as <-.
  - injection Hexec as <-. exact IH.
Qed.

Lemma sorted_starts_chronological (l : list Slot) :
  (forall s, In s l -> exists c, 0 <= c < 1440 /\ slot_startTime s = formatHHmm c) ->
  StronglySorted (fun a b => byStartTime a b = true) l ->
  exists cs, Forall2 (fun s c => 0 <= c < 1440 /\ slot_startTime s = formatHHmm c) l cs
             /\ StronglySorted Z.le cs.
Proof.
  intros Hall Hs. induction Hs as [|s l Hs IH Hfirst].
  - exists []. split; constructor.
  - destruct (Hall s (or_introl eq_refl)) as (c & Hc & Hsc).
    destruct IH as (cs & Hcs & Hsorted); [intros s' Hs'; apply Hall; now right|].
    exists (c :: cs). split; [constructor; auto|].
    constructor; [exact Hsorted|].
    clear Hsorted Hall Hs. induction Hcs as [|s' c' l cs [Hc' Hsc'] Hcs IH];
      [constructor|].
    apply Forall_cons in Hfirst. destruct Hfirst as [Hle Hfirst].
    constructor; [|now apply IH].
    unfold byStartTime in Hle. rewrite Hsc, Hsc' in Hle.
    now apply formatHHmm_leb in Hle.
Qed.

Lemma starts_of_minutes (l : list Slot) (cs : list Z) :
  Forall2 (fun s c => 0 <= c < 1440 /\ slot_startTime s = formatHHmm c) l cs ->
  map slot_startTime l = map formatHHmm cs /\ Forall (fun c => 0 <= c < 1440) cs.
Proof.
  induction 1 as [|s c l cs [Hc Hsc] _ [IH1 IH2]]; simpl.
  - split; [reflexivity|constructor].
  - split; [now rewrite Hsc, IH1|now constructor].
Qed.

(** In a reachable world the sequence of slots of a day, as
    [getSlotsForDoctorDay] returns it, is chronological. *)
Lemma reachable_chronological w did date :
  reachable w -> chronological (getSlotsForDoctorDay (data w) did date).
Proof.
  intros Hreach. apply reachable_slotTimesOk in Hreach.
  destruct (sorted_starts_chronological (getSlotsForDoctorDay (data w) did date))
    as (cs & Hcs & Hsorted).
  - intros s Hs. apply In_getSlotsForDoctorDay in Hs. now apply Hreach.
  - apply getSlotsForDoctorDay_sorted.
  - exists cs. destruct (starts_of_minutes _ _ Hcs). auto.
Qed.

(** ** Earliest fit and rebalancing on the chronological sequence *)

(** C3. Earliest fit: a request that is not an emergency, with a known source
    and an existing doctor, in a reachable world (the doctor's duration being
    at least one minute, so that the slots can be generated): the slots get
    ensured without touching the tokens; the sequence of the day's slots is
    chronological; if some slot of it has fewer SCHEDULED tokens than its
    capacity, the token is created in the first such slot and nothing else
    changes; if none has, the call returns [null] and the world is exactly
    as before. *)
Theorem earliest_fit now req w src doctor :
  reachable w ->
  emergency req = false ->
  req_source req = Some src ->
  In src ["EMERGENCY"; "PAID"; "FOLLOW_UP"; "ONLINE"; "WALK_IN"] ->
  getDoctorById (data w) (req_doctorId req) = Some doctor ->
  1 <= slotDurationMinutes doctor ->
  exists sl w1,
    generateSlotsForDay doctor (req_date req) w = Returns sl w1
    /\ tokens (data w1) = tokens (data w)
    /\ let day := getSlotsForDoctorDay (data w1) (req_doctorId req) (req_date req) in
       let free s :=
         Z.of_nat (occupancy (tokens (data w)) (slot_id s)) < capacity s in
       chronological day
       /\ (forall pre slot post,
          day = pre ++ slot :: post ->
          (forall s, In s pre -> ~ free s) -> free slot ->
          let t := newToken w1 now (req_doctorId req) (req_date req)
                            (req_patientName req) src (getPriorityScore src) slot in
          allocateToken now req w = Returns (Some t) (withToken w1 t)
          /\ slotId t = slot_id slot /\ status t = SCHEDULED)
       /\ ((forall s, In s day -> ~ free s) ->
           allocateToken now req w = Returns None w).
Proof.
  intros Hreach0 Hem Hsrc Hknown Hdoc Hdur.
  pose proof (reachable_Inv w Hreach0) as Hreach.
  destruct (generateSlotsForDay_returns doctor (req_date req) w Hdur)
    as (sl & w1 & Hgen).
  exists sl, w1. split; [exact Hgen|].
  assert (Hworld : settle (generateSlotsForDay doctor (req_date req) w) = Some w1)
    by now rewrite Hgen.
  apply generateSlotsForDay_worlds in Hworld.
  assert (Htok : tokens (data w1) = tokens (data w))
    by (destruct Hworld as [->|(_ & ts & ->)]; reflexivity).
  split; [exact Htok|].
  assert (Hfree : forall s,
             hasRoom (data w1) s = true <->
             Z.of_nat (occupancy (tokens (data w)) (slot_id s)) < capacity s)
    by (intros s; rewrite hasRoom_spec, Htok; reflexivity).
  assert (Hrun := allocateToken_run now req w).
  unfold normalizedSource in Hrun. rewrite Hem, Hsrc in Hrun.
  rewrite (proj2 (includes_tokenSources src) Hknown) in Hrun. simpl in Hrun.
  rewrite Hdoc, Hgen in Hrun.
  intros day free. split; [|split].
  - apply reachable_chronological.
    apply (reachable_step w (OpGenerateSlotsForDay doctor (req_date req)) w1 Hreach0).
    + simpl. apply (inv_doctors w Hreach). now apply getDoctorById_In in Hdoc.
    + simpl. now rewrite Hgen.
  - intros pre slot post Hday Hpre Hslot t.
    rewrite Hrun. fold day. rewrite Hday, find_first.
    + repeat split.
    + intros s Hs. destruct (hasRoom (data w1) s) eqn:E; [|reflexivity].
      apply Hfree in E. now destruct (Hpre s Hs).
    + now apply Hfree.
  - intros Hfull. rewrite Hrun. fold day. rewrite find_all_false.
    + f_equal. destruct Hworld as [->|(Hex & ts & ->)]; [reflexivity|].
      destruct ts as [|[a b] r]; [apply withSlots_nil|]. exfalso.
      set (new := slotsOf doctor (req_date req) (seed w) ((a, b) :: r)) in *.
      set (s0 := mkSlot (seed w) (doc_id doctor) (req_date req) (formatHHmm a)
                        (formatHHmm b) (maxPatientsPerSlot doctor)).
      assert (Hin : In s0 new) by now left.
      apply getDoctorById_In in Hdoc. destruct Hdoc as [Hdin Hdid].
      apply (Hfull s0).
      * apply In_getSlotsForDoctorDay. split.
        -- simpl. apply in_or_app. now right.
        -- rewrite <- Hdid. now apply In_slotsOf in Hin.
      * apply Hfree.
        apply (fresh_slots_have_room w doctor (req_date req) ((a, b) :: r));
          auto. now apply (inv_doctors w Hreach).
    + intros s Hs. destruct (hasRoom (data w1) s) eqn:E; [|reflexivity].
      apply Hfree in E. now destruct (Hfull s Hs).
Qed.

Lemma reachable_wWalkIn : reachable wWalkIn.
Proof.
  apply reachable_execAll; [apply reachable_empty|].
  repeat constructor; simpl; lia.
Qed.

Lemma reachable_wFull : reachable wFull.
Proof.
  apply reachable_execAll; [apply reachable_empty|].
  repeat constructor; simpl; lia.
Qed.

Lemma earliest_fit_witness :
  (exists t w', allocateToken "t2" (requestA (Some "ONLINE") false) wWalkIn
                = Returns (Some t) w'
                /\ slotId t = slot_id slotA2)
  /\ allocateToken "t5" (requestA (Some "PAID") false) wFull = Returns None wFull.
Proof.
  split.
  - destruct (earliest_fit "t2" (requestA (Some "ONLINE") false) wWalkIn "ONLINE" drA
                reachable_wWalkIn eq_refl eq_refl
                ltac:(simpl; tauto) eq_refl ltac:(simpl; lia))
      as (sl & w1 & Hgen & _ & _ & Hfit & _).
    assert (Hw : w1 = wWalkIn) by (vm_compute in Hgen; now injection Hgen as _ <-).
    subst w1.
    destruct (Hfit [slotA1] slotA2 [] eq_refl) as (Hrun & Hslot & _).
    + intros s [<-|[]]. vm_compute. intros H. discriminate.
    + reflexivity.
    + eexists _, _. split; [exact Hrun|exact Hslot].
  - destruct (earliest_fit "t5" (requestA (Some "PAID") false) wFull "PAID" drA
                reachable_wFull eq_refl eq_refl
                ltac:(simpl; tauto) eq_refl ltac:(simpl; lia))
      as (sl & w1 & Hgen & _ & _ & _ & Hnone).
    assert (Hw : w1 = wFull) by (vm_compute in Hgen; now injection Hgen as _ <-).
    subst w1. apply Hnone.
    intros s Hs. vm_compute in Hs.
    destruct Hs as [<-|[<-|[]]]; vm_compute; intros H; discriminate.
Defined.

(** C6. Rebalance after cancel and no-show.  When the token found for the
    identifier is SCHEDULED, [cancelToken] and [markNoShow] both succeed,
    write their status, and then rebalance towards the vacated slot as the
    design document says: the slots strictly after the vacated one are
    scanned in order, the first that holds a SCHEDULED token gives up its
    best one (highest score, earliest stored among equals), and no other
    token changes slot; nothing moves when the vacated slot is not in the
    day's sequence or no later slot holds a SCHEDULED token.  The two
    operations leave every token in the same slot as each other, and in a
    reachable world the day's sequence is chronological. *)
Theorem rebalance_after_cancel_and_no_show w tokenId k token :
  findToken (data w) tokenId = Some (k, token) ->
  status token = SCHEDULED ->
  let day := getSlotsForDoctorDay (data w) (tok_doctorId token) (tok_date token) in
  let freed := slotId token in
  exists tsC tsN,
    cancelToken tokenId w
    = Returns (Some (set_status CANCELLED token)) (withTokens w tsC)
    /\ markNoShow tokenId w
       = Returns (Some (set_status NO_SHOW token)) (withTokens w tsN)
    /\ RebalanceSpec (alter (set_status CANCELLED) k (tokens (data w))) day freed tsC
    /\ RebalanceSpec (alter (set_status NO_SHOW) k (tokens (data w))) day freed tsN
    /\ map slotId tsC = map slotId tsN
    /\ (forall i j, slotChanged (tokens (data w)) tsC i ->
                    slotChanged (tokens (data w)) tsC j -> i = j)
    /\ (forall i j, slotChanged (tokens (data w)) tsN i ->
                    slotChanged (tokens (data w)) tsN j -> i = j)
    /\ (reachable w -> chronological day).
Proof.
  intros Hf Hs day freed.
  exists (rebalanced (retired (data w) k CANCELLED)
                     (tok_doctorId token) (tok_date token) (slotId token)),
         (rebalanced (retired (data w) k NO_SHOW)
                     (tok_doctorId token) (tok_date token) (slotId token)).
  pose proof (rebalanced_meets_spec (retired (data w) k CANCELLED)
                (tok_doctorId token) (tok_date token) (slotId token)) as HC.
  pose proof (rebalanced_meets_spec (retired (data w) k NO_SHOW)
                (tok_doctorId token) (tok_date token) (slotId token)) as HN.
  split; [now apply cancelToken_success|].
  split; [now apply markNoShow_success|].
  split; [exact HC|]. split; [exact HN|].
  split; [apply rebalanced_cancel_no_show|].
  split; [|split].
  - intros i j Hi Hj. apply (RebalanceSpec_one_move _ _ _ _ HC);
      now apply (slotChanged_retired (tokens (data w))).
  - intros i j Hi Hj. apply (RebalanceSpec_one_move _ _ _ _ HN);
      now apply (slotChanged_retired (tokens (data w))).
  - intros Hreach. now apply reachable_chronological.
Qed.

Lemma rebalance_after_cancel_and_no_show_witness :
  exists tsC tsN,
    cancelToken 3 wFull
    = Returns (Some (set_status CANCELLED walkIn3)) (withTokens wFull tsC)
    /\ markNoShow 3 wFull
       = Returns (Some (set_status NO_SHOW walkIn3)) (withTokens wFull tsN)
    /\ map slotId (tokens (data wFull)) = [1; 2]%nat
    /\ map slotId tsC = [1; 1]%nat
    /\ map slotId tsN = [1; 1]%nat.
Proof.
  destruct (rebalance_after_cancel_and_no_show wFull 3 0%nat walkIn3 eq_refl eq_refl)
    as (tsC & tsN & Hc & Hn & _ & _ & Hsame & _ & _ & _).
  exists tsC, tsN. split; [exact Hc|]. split; [exact Hn|]. split; [reflexivity|].
  assert (HC : map slotId tsC = [1; 1]%nat).
  { vm_compute in Hc. injection Hc as <-. reflexivity. }
  split; [exact HC|]. now rewrite <- Hsame.
Defined.

(** * Further properties of the engine *)

(** ** The schedule view *)

Lemma byPriorityDesc_total a b :
  byPriorityDesc a b = true \/ byPriorityDesc b a = true.
Proof. unfold byPriorityDesc. rewrite !Z.leb_le. lia. Qed.

Lemma byPriorityDesc_trans a b c :
  byPriorityDesc a b = true -> byPriorityDesc b c = true -> byPriorityDesc a c = true.
Proof. unfold byPriorityDesc. rewrite !Z.leb_le. lia. Qed.

Lemma sorted_map {A B} (R : A -> A -> Prop) (R' : B -> B -> Prop) (f : A -> B) l :
  (forall a b, R a b -> R' (f a) (f b)) ->
  StronglySorted R l -> StronglySorted R' (map f l).
Proof.
  intros Hf. induction 1 as [|x l Hs IH Hall]; simpl; constructor; [exact IH|].
  rewrite List.Forall_forall in *. intros y Hy.
  apply in_map_iff in Hy. destruct Hy as (z & <- & Hz). auto.
Qed.

(** X1. [getSchedule] reads and changes nothing.  It returns one view per slot
    of the day, in the order of [getSlotsForDoctorDay]; a view repeats the
    slot's identifier, times and capacity, its [booked] is the number of
    SCHEDULED tokens of the slot and the length of its token list, which
    holds exactly the views of those tokens, highest score first.  The
    schedule is empty exactly when no slot is stored for the doctor and the
    date: nothing is generated on reading. *)
Theorem getSchedule_views did date w :
  exists views,
    getSchedule did date w = Returns views w
    /\ Forall2 (fun slot v =>
         sv_slotId v = slot_id slot
         /\ sv_startTime v = slot_startTime slot
         /\ sv_endTime v = slot_endTime slot
         /\ sv_capacity v = capacity slot
         /\ booked v = occupancy (tokens (data w)) (slot_id slot)
         /\ length (sv_tokens v) = booked v
         /\ Forall (fun tv => tv_status tv = SCHEDULED) (sv_tokens v)
         /\ StronglySorted (fun a b => tv_priorityScore b <= tv_priorityScore a)
                           (sv_tokens v)
         /\ (forall tv, In tv (sv_tokens v) <->
               exists k t, tokens (data w) !! k = Some t
                           /\ scheduledIn (slot_id slot) t = true
                           /\ tv = viewOf t))
       (getSlotsForDoctorDay (data w) did date) views
    /\ (views = [] <->
        forall slot, In slot (slots (data w)) -> slotMatches did date slot = false).
Proof.
  eexists. split; [reflexivity|]. split.
  - induction (getSlotsForDoctorDay (data w) did date) as [|slot day IH];
      simpl; constructor; [|exact IH].
    simpl. repeat split.
    + apply length_getTokensForSlot.
    + apply length_map.
    + apply List.Forall_forall. intros tv Htv.
      apply in_map_iff in Htv. destruct Htv as ([k t] & <- & Hin).
      apply In_getTokensForSlot in Hin. destruct Hin as [_ Hs].
      apply scheduledIn_spec in Hs. simpl. tauto.
    + apply (sorted_map (fun a b => byPriorityDesc a b = true)).
      * intros a b Hab. simpl. unfold byPriorityDesc in Hab. now apply Z.leb_le.
      * apply sortBy_sorted;
          [apply byPriorityDesc_total|apply byPriorityDesc_trans].
    + intros Htv. apply in_map_iff in Htv. destruct Htv as ([k t] & <- & Hin).
      apply In_getTokensForSlot in Hin. exists k, t. tauto.
    + intros (k & t & Hk & Hs & ->). apply in_map_iff. exists (k, t).
      split; [reflexivity|]. apply In_getTokensForSlot. tauto.
  - split.
    + intros Hnil slot Hin.
      destruct (slotMatches did date slot) eqn:E; [|reflexivity].
      apply map_eq_nil in Hnil.
      assert (Hday : In slot (getSlotsForDoctorDay (data w) did date))
        by (apply In_getSlotsForDoctorDay; auto).
      rewrite Hnil in Hday. destruct Hday.
    + intros Hnone.
      destruct (getSlotsForDoctorDay (data w) did date) as [|slot day] eqn:E;
        [reflexivity|].
      assert (Hday : In slot (getSlotsForDoctorDay (data w) did date))
        by (rewrite E; now left).
      apply In_getSlotsForDoctorDay in Hday. destruct Hday as [Hin Hm].
      rewrite (Hnone slot Hin) in Hm. discriminate.
Qed.

(** X2. In a reachable world no view of a schedule shows more bookings than
    the capacity of its slot, and the views come in chronological order of
    their start times. *)
Theorem schedule_within_capacity did date w views w' :
  reachable w ->
  getSchedule did date w = Returns views w' ->
  Forall (fun v => Z.of_nat (booked v) <= sv_capacity v) views
  /\ exists cs : list Z,
       map sv_startTime views = map formatHHmm cs
       /\ Forall (fun c => 0 <= c < 1440) cs
       /\ StronglySorted Z.le cs.
Proof.
  intros Hreach [= <- <-]. split.
  - apply List.Forall_forall. intros v Hv.
    apply in_map_iff in Hv. destruct Hv as (slot & <- & Hin). simpl.
    rewrite length_getTokensForSlot.
    apply In_getSlotsForDoctorDay in Hin. destruct Hin as [Hin _].
    apply (inv_capacity w (reachable_Inv w Hreach) slot Hin).
  - destruct (reachable_chronological w did date Hreach) as (cs & Hcs & Hrange & Hsorted).
    exists cs. split; [|auto].
    rewrite <- Hcs, map_map. reflexivity.
Qed.

Lemma schedule_within_capacity_witness :
  exists views,
    getSchedule 0 day1 wCancelled = Returns views wCancelled
    /\ map booked views = [1; 0]%nat
    /\ Forall (fun v => Z.of_nat (booked v) <= sv_capacity v) views.
Proof.
  destruct (getSchedule 0 day1 wCancelled) as [views w'| |] eqn:E;
    try discriminate.
  assert (Hreach : reachable wCancelled).
  { apply reachable_execAll; [apply reachable_empty|].
    repeat constructor; simpl; lia. }
  destruct (schedule_within_capacity 0 day1 wCancelled views w' Hreach E) as [Hcap _].
  exists views. injection E as <- <-.
  split; [reflexivity|]. split; [reflexivity|exact Hcap].
Defined.

(** ** The order of the tokens of a slot *)

Section Stable.
Context {A : Type} (key : A -> Z) (pos : A -> nat).
Let desc (a b : A) : bool := key b <=? key a.
Let before (a b : A) : Prop :=
  key b < key a \/ (key a = key b /\ (pos a < pos b)%nat).

Lemma insertSorted_stable x s :
  StronglySorted before s ->
  (forall y, In y s -> (pos x < pos y)%nat) ->
  StronglySorted before (insertSorted desc x s).
Proof.
  induction 1 as [|y r Hs IH Hall]; intros Hpos; simpl.
  - constructor; constructor.
  - rewrite List.Forall_forall in Hall. unfold desc at 1.
    destruct (key y <=? key x) eqn:E.
    + apply Z.leb_le in E. constructor; [now constructor; [|apply List.Forall_forall]|].
      apply List.Forall_forall. intros z Hz.
      specialize (Hpos z Hz). destruct Hz as [<-|Hz].
      * unfold before. lia.
      * specialize (Hall z Hz). unfold before in *. lia.
    + apply Z.leb_gt in E. constructor.
      * apply IH. intros z Hz. apply Hpos. now right.
      * apply List.Forall_forall. intros z Hz.
        apply (Permutation_in _ (insertSorted_perm desc x r)) in Hz.
        destruct Hz as [<-|Hz]; [unfold before; lia|now apply Hall].
Qed.

Lemma sortBy_stable l :
  StronglySorted (fun a b => (pos a < pos b)%nat) l ->
  StronglySorted before (sortBy desc l).
Proof.
  induction 1 as [|x l Hs IH Hall]; simpl; [constructor|].
  apply insertSorted_stable; [exact IH|].
  rewrite List.Forall_forall in Hall. intros y Hy.
  apply Hall. now apply sortBy_In in Hy.
Qed.
End Stable.

(** X3. [getTokensForSlot] lists exactly the SCHEDULED token objects of the
    slot, each once, the higher scores first and, among equal scores, in
    storage order: the sort is stable. *)
Theorem getTokensForSlot_stable_order d sid :
  (forall k t, In (k, t) (getTokensForSlot d sid) <->
     tokens d !! k = Some t /\ slotId t = sid /\ status t = SCHEDULED)
  /\ length (getTokensForSlot d sid) = occupancy (tokens d) sid
  /\ StronglySorted servedBefore (getTokensForSlot d sid).
Proof.
  split; [|split].
  - intros k t. rewrite In_getTokensForSlot, scheduledIn_spec. tauto.
  - apply length_getTokensForSlot.
  - rewrite getTokensForSlot_unfold.
    apply (sortBy_stable (fun it : nat * Token => priorityScore (snd it)) fst).
    apply scheduledAt_sorted.
Qed.

(** ** The tables of sources *)

Ltac split_on c s :=
  let E := fresh "E" in
  destruct (String.eqb c s) eqn:E; [apply String.eqb_eq in E; subst s|].

(** A string is a known source, a name of [Object.prototype], or neither;
    then every table misses it. *)
Lemma source_cases s :
  In s config.tokenSources
  \/ In s js.objectPrototype
  \/ (config.includes config.tokenSources (Some s) = false
      /\ ~ In s js.objectPrototype
      /\ js.getPriorityScore s = js.Own 0
      /\ ui.getBadgeClass s = js.Own ""
      /\ getPriorityScore s = 0).
Proof.
  split_on "EMERGENCY" s; [left; simpl; tauto|].
  split_on "PAID" s; [left; simpl; tauto|].
  split_on "FOLLOW_UP" s; [left; simpl; tauto|].
  split_on "ONLINE" s; [left; simpl; tauto|].
  split_on "WALK_IN" s; [left; simpl; tauto|].
  split_on "constructor" s; [right; left; simpl; tauto|].
  split_on "__defineGetter__" s; [right; left; simpl; tauto|].
  split_on "__defineSetter__" s; [right; left; simpl; tauto|].
  split_on "hasOwnProperty" s; [right; left; simpl; tauto|].
  split_on "__lookupGetter__" s; [right; left; simpl; tauto|].
  split_on "__lookupSetter__" s; [right; left; simpl; tauto|].
  split_on "isPrototypeOf" s; [right; left; simpl; tauto|].
  split_on "propertyIsEnumerable" s; [right; left; simpl; tauto|].
  split_on "toString" s; [right; left; simpl; tauto|].
  split_on "valueOf" s; [right; left; simpl; tauto|].
  split_on "__proto__" s; [right; left; simpl; tauto|].
  split_on "toLocaleString" s; [right; left; simpl; tauto|].
  right. right.
  assert (Hproto : ~ In s js.objectPrototype).
  { intros Hin. simpl in Hin.
    repeat (destruct Hin as [<-|Hin];
            [match goal with
             | H : String.eqb ?c ?c = false |- _ =>
                 rewrite String.eqb_refl in H; discriminate
             end|]).
    exact Hin. }
  split; [|split; [exact Hproto|]].
  - unfold config.includes, config.tokenSources. cbn -[String.eqb].
    rewrite !(String.eqb_sym s), E, E0, E1, E2, E3. reflexivity.
  - unfold js.getPriorityScore, ui.getBadgeClass, getPriorityScore, js.member,
      config.priorities, ui.classes, js.objectPrototype.
    cbn -[String.eqb]. rewrite !(String.eqb_sym s).
    rewrite E, E0, E1, E2, E3. cbn -[String.eqb].
    rewrite E4, E5, E6, E7, E8, E9, E10, E11, E12, E13, E14, E15.
    repeat split; reflexivity.
Qed.

(** X4. The tables of sources agree.  A source passes the check of
    [allocateToken] exactly when [config.priorities[source] || 0] is a
    positive number and exactly when the page's [classes[source] || ''] is a
    badge, a string that is not empty; for such a source the number is the
    one that [allocateToken] stores, between 1 and 5, and no other string
    gets it.  Any other string gets the fallbacks, zero and the empty
    string, unless it is a name of [Object.prototype]: then both lookups
    hand out the inherited member, which is neither a number nor a
    string. *)
Theorem source_tables_agree s :
  let known := config.includes config.tokenSources (Some s) in
  (known = true <-> exists n, js.getPriorityScore s = js.Own n /\ 0 < n)
  /\ (known = true <-> exists c, ui.getBadgeClass s = js.Own c /\ c <> "")
  /\ (known = true ->
      js.getPriorityScore s = js.Own (getPriorityScore s)
      /\ 1 <= getPriorityScore s <= 5)
  /\ (known = false ->
      (In s js.objectPrototype
       /\ js.getPriorityScore s = js.Inherited s
       /\ ui.getBadgeClass s = js.Inherited s)
      \/ (~ In s js.objectPrototype
          /\ js.getPriorityScore s = js.Own 0
          /\ ui.getBadgeClass s = js.Own ""))
  /\ (forall s', known = true ->
                 js.getPriorityScore s' = js.getPriorityScore s -> s' = s).
Proof.
  intros known. subst known.
  destruct (source_cases s) as [Hs|[Hs|(Hk & Hn & Hp & Hb & _)]].
  - assert (Hfacts : config.includes config.tokenSources (Some s) = true
                     /\ (exists n, js.getPriorityScore s = js.Own n /\ 0 < n)
                     /\ (exists c, ui.getBadgeClass s = js.Own c /\ c <> "")
                     /\ js.getPriorityScore s = js.Own (getPriorityScore s)
                     /\ 1 <= getPriorityScore s <= 5
                     /\ forall s', js.getPriorityScore s' = js.getPriorityScore s ->
                                   s' = s).
    { simpl in Hs.
      destruct Hs as [<-|[<-|[<-|[<-|[<-|[]]]]]];
        (split; [reflexivity|]);
        (split; [eexists; split; [reflexivity|reflexivity]|]);
        (split; [eexists; split; [reflexivity|discriminate]|]);
        (split; [reflexivity|]);
        (split; [vm_compute; split; discriminate|]);
        intros s' Hs';
        (destruct (source_cases s') as [Hk|[Hk|(_ & _ & Hz & _)]];
         [simpl in Hk;
          destruct Hk as [<-|[<-|[<-|[<-|[<-|[]]]]]];
          (reflexivity || (vm_compute in Hs'; discriminate))
         |simpl in Hk;
          repeat (destruct Hk as [<-|Hk]; [vm_compute in Hs'; discriminate|]);
          destruct Hk
         |rewrite Hz in Hs'; vm_compute in Hs'; discriminate]). }
    destruct Hfacts as (H1 & H2 & H3 & H4 & H5 & H6).
    rewrite H1. repeat split; auto; try discriminate; try lia.
  - assert (Hfacts : config.includes config.tokenSources (Some s) = false
                     /\ js.getPriorityScore s = js.Inherited s
                     /\ ui.getBadgeClass s = js.Inherited s).
    { simpl in Hs.
      repeat (destruct Hs as [<-|Hs]; [repeat split; reflexivity|]).
      destruct Hs. }
    destruct Hfacts as (H1 & H2 & H3). rewrite H1, H2, H3.
    split; [split; [discriminate|intros (n & Hn & _); discriminate]|].
    split; [split; [discriminate|intros (c & Hc & _); discriminate]|].
    split; [discriminate|]. split; [|discriminate].
    intros _. left. auto.
  - rewrite Hk, Hp, Hb.
    split; [split; [discriminate|intros (n & [= <-] & Hlt); lia]|].
    split; [split; [discriminate|intros (c & [= <-] & Hne); congruence]|].
    split; [discriminate|]. split; [|discriminate].
    intros _. right. auto.
Qed.

(** ** Emergencies and full days *)

(** X5. The [emergency] flag does what the source EMERGENCY does: a request
    with the flag has the outcome of the same request without the flag and
    with EMERGENCY for its source. *)
Theorem emergency_flag_is_source now req w :
  emergency req = true ->
  allocateToken now req w = allocateToken now (asEmergencySource req) w.
Proof.
  intros He. rewrite !allocateToken_run. unfold normalizedSource. rewrite He.
  reflexivity.
Qed.

Lemma emergency_flag_is_source_witness :
  allocateToken "t3" (requestA (Some "WALK_IN") true) wWalkIn
  = allocateToken "t3" (requestA (Some "EMERGENCY") false) wWalkIn.
Proof.
  exact (emergency_flag_is_source "t3" (requestA (Some "WALK_IN") true) wWalkIn eq_refl).
Defined.

(** When [allocateToken] finds no slot with room in a reachable world, the
    slots of the day were there before the call. *)
Lemma full_day_world w doctor did date sl w1 :
  Inv w -> getDoctorById (data w) did = Some doctor ->
  generateSlotsForDay doctor date w = Returns sl w1 ->
  List.find (hasRoom (data w1)) (getSlotsForDoctorDay (data w1) did date) = None ->
  w1 = w.
Proof.
  intros Hinv Hdoc Hgen Hfind.
  assert (Hs : settle (generateSlotsForDay doctor date w) = Some w1) by now rewrite Hgen.
  apply generateSlotsForDay_worlds in Hs.
  destruct Hs as [->|(Hex & ts & ->)]; [reflexivity|].
  destruct ts as [|[a b] r]; [apply withSlots_nil|]. exfalso.
  apply getDoctorById_In in Hdoc. destruct Hdoc as [Hdin Hdid].
  set (new := slotsOf doctor date (seed w) ((a, b) :: r)) in *.
  set (s0 := mkSlot (seed w) (doc_id doctor) date (formatHHmm a) (formatHHmm b)
                    (maxPatientsPerSlot doctor)).
  assert (Hin : In s0 new) by now left.
  assert (Hday : In s0 (getSlotsForDoctorDay (data (withSlots w new)) did date)).
  { apply In_getSlotsForDoctorDay. split.
    - simpl. apply in_or_app. now right.
    - rewrite <- Hdid. now apply In_slotsOf in Hin. }
  pose proof (find_none _ _ Hfind s0 Hday) as Hfull.
  rewrite (fresh_slots_have_room w doctor date ((a, b) :: r)) in Hfull; auto.
  - discriminate.
  - now apply (inv_doctors w Hinv).
Qed.

(** X6. No capacity means a full day: when [allocateToken] returns [null] in a
    reachable world, for an emergency or not, the world is unchanged and
    every slot of the doctor's day holds exactly as many SCHEDULED tokens as
    its capacity. *)
Theorem no_capacity_means_full now req w w' :
  reachable w ->
  allocateToken now req w = Returns None w' ->
  w' = w
  /\ forall slot,
       In slot (getSlotsForDoctorDay (data w) (req_doctorId req) (req_date req)) ->
       Z.of_nat (occupancy (tokens (data w)) (slot_id slot)) = capacity slot.
Proof.
  intros Hreach. apply reachable_Inv in Hreach. rewrite allocateToken_run.
  destruct (normalizedSource req) as [src|]; [|discriminate].
  destruct (negb _); [discriminate|].
  destruct (getDoctorById _ _) as [doctor|] eqn:Hdoc; [|discriminate].
  destruct (generateSlotsForDay doctor (req_date req) w) as [sl w1|msg w1|] eqn:Hgen;
    try discriminate.
  destruct (List.find _ _) as [slot|] eqn:Hfind; [discriminate|].
  intros [= <-].
  pose proof (full_day_world w doctor _ _ sl w1 Hreach Hdoc Hgen Hfind) as ->.
  split; [reflexivity|]. intros slot Hin.
  pose proof (find_none _ _ Hfind slot Hin) as Hfull.
  apply In_getSlotsForDoctorDay in Hin. destruct Hin as [Hin _].
  pose proof (inv_capacity w Hreach slot Hin) as Hle.
  destruct (Z_lt_le_dec (Z.of_nat (occupancy (tokens (data w)) (slot_id slot)))
                        (capacity slot)) as [Hlt|Hge]; [|lia].
  apply hasRoom_spec in Hlt. congruence.
Qed.

Lemma no_capacity_means_full_witness :
  Forall (fun slot => Z.of_nat (occupancy (tokens (data wFull)) (slot_id slot))
                      = capacity slot)
         (getSlotsForDoctorDay (data wFull) 0 day1).
Proof.
  apply List.Forall_forall.
  apply (proj2 (no_capacity_means_full "t9" (requestA None true) wFull wFull
                  reachable_wFull ltac:(vm_compute; reflexivity))).
Defined.

(** ** Integrity of the store *)

Lemma slotMatches_spec did date s :
  slotMatches did date s = true <-> slot_doctorId s = did /\ slot_date s = date.
Proof.
  unfold slotMatches. now rewrite andb_true_iff, Nat.eqb_eq, String.eqb_eq.
Qed.

Lemma tokenWellFormed_mono w w' t :
  (forall s, In s (slots (data w)) -> In s (slots (data w'))) ->
  (forall doc, In doc (doctors (data w)) -> In doc (doctors (data w'))) ->
  tokenWellFormed w t -> tokenWellFormed w' t.
Proof.
  intros Hs Hd ((slot & Hin & Hrest) & (doc & Hdin & Hdid) & Hsrc & Hscore).
  split; [exists slot; auto|]. split; [exists doc; auto|]. auto.
Qed.

Lemma findIndex_Some {A} (p : A -> bool) l i :
  findIndex p l = Some i -> exists x, l !! i = Some x /\ p x = true.
Proof.
  revert i. induction l as [|y l IH]; intros i; simpl; [discriminate|].
  destruct (p y) eqn:E.
  - intros [= <-]. exists y. auto.
  - destruct (findIndex p l) as [j|]; simpl; [|discriminate].
    intros [= <-]. destruct (IH j eq_refl) as (x & Hx & Hp). exists x. auto.
Qed.

Lemma In_drop {A} (l : list A) n x : In x (drop n l) -> In x l.
Proof.
  revert n. induction l as [|y l IH]; intros [|n]; simpl; auto.
  intros H. right. now apply (IH n).
Qed.

(** The move that the rebalancing decides: from a slot that comes after the
    freed one in the day's sequence, the head of its tokens. *)
Lemma rebalancePlan_move d did date freed k :
  rebalancePlan d did date freed = Some k ->
  exists i fslot laterSlot c rest,
    getSlotsForDoctorDay d did date !! i = Some fslot
    /\ slot_id fslot = freed
    /\ In laterSlot (drop (S i) (getSlotsForDoctorDay d did date))
    /\ getTokensForSlot d (slot_id laterSlot) = (k, c) :: rest.
Proof.
  unfold rebalancePlan.
  destruct (findIndex _ _) as [i|] eqn:Ei; [|discriminate].
  apply findIndex_Some in Ei. destruct Ei as (fslot & Hi & Hid).
  apply Nat.eqb_eq in Hid. intros Hp. apply pullPlan_Some in Hp.
  destruct Hp as (pre & L & post & c & rest & Hlater & _ & HL).
  exists i, fslot, L, c, rest. repeat split; auto.
  rewrite Hlater. apply in_elt.
Qed.

Lemma tokenWellFormed_status w st t :
  tokenWellFormed w t -> tokenWellFormed w (set_status st t).
Proof. intros H. exact H. Qed.

Lemma Integrity_empty : Integrity emptyWorld.
Proof. split; simpl; try tauto; constructor. Qed.

Lemma NoDup_snoc_fresh (l : list nat) n :
  NoDup l -> (forall x, In x l -> (x < n)%nat) -> NoDup (l ++ [n]).
Proof.
  intros Hl Hlt. apply NoDup_app. repeat split; [exact Hl| |apply NoDup_singleton].
  intros x Hx Hn. apply list_elem_of_In in Hx. apply list_elem_of_In in Hn.
  destruct Hn as [<-|[]]. specialize (Hlt _ Hx). lia.
Qed.

Lemma Integrity_createDoctor w name s e dur cap :
  Integrity w ->
  Integrity (mkWorld (mkDb (doctors (data w) ++ [mkDoctor (seed w) name s e dur cap])
                           (slots (data w)) (tokens (data w)))
                     (S (seed w))).
Proof.
  intros [Ht Hn Hf Hdn Hdf]. split; simpl.
  - intros t Hin. apply (tokenWellFormed_mono w); simpl; auto.
    intros doc Hd. apply in_or_app. now left.
  - exact Hn.
  - intros t Hin. specialize (Hf t Hin). lia.
  - rewrite map_app. simpl. apply NoDup_snoc_fresh; [exact Hdn|].
    intros x Hx. apply in_map_iff in Hx. destruct Hx as (doc & <- & Hd). auto.
  - intros doc Hin. apply in_app_or in Hin. destruct Hin as [Hin|[<-|[]]].
    + specialize (Hdf doc Hin). lia.
    + simpl. lia.
Qed.

Lemma Integrity_withSlots w new :
  Integrity w -> Integrity (withSlots w new).
Proof.
  intros [Ht Hn Hf Hdn Hdf]. split; simpl; auto.
  - intros t Hin. apply (tokenWellFormed_mono w); simpl; auto.
    intros s Hs. apply in_or_app. now left.
  - intros t Hin. specialize (Hf t Hin). lia.
  - intros doc Hin. specialize (Hdf doc Hin). lia.
Qed.

Lemma Integrity_generateSlotsForDay doctor date w w' :
  Integrity w -> settle (generateSlotsForDay doctor date w) = Some w' -> Integrity w'.
Proof.
  intros Hint H. apply generateSlotsForDay_worlds in H.
  destruct H as [->|(_ & ts & ->)]; [assumption|now apply Integrity_withSlots].
Qed.

Lemma Integrity_withToken w t :
  Integrity w -> tokenWellFormed w t -> tok_id t = seed w ->
  Integrity (withToken w t).
Proof.
  intros [Ht Hn Hf Hdn Hdf] Hwf Hid. split; simpl; auto.
  - intros u Hu. apply (tokenWellFormed_mono w); simpl; auto.
    apply in_app_or in Hu. destruct Hu as [Hu|[<-|[]]]; auto.
  - rewrite map_app. simpl. rewrite Hid. apply NoDup_snoc_fresh; [exact Hn|].
    intros x Hx. apply in_map_iff in Hx. destruct Hx as (u & <- & Hu). auto.
  - intros u Hu. apply in_app_or in Hu. destruct Hu as [Hu|[<-|[]]].
    + specialize (Hf u Hu). lia.
    + lia.
  - intros doc Hin. specialize (Hdf doc Hin). lia.
Qed.

Lemma Integrity_allocateToken now req w w' :
  Integrity w -> settle (allocateToken now req w) = Some w' -> Integrity w'.
Proof.
  intros Hint. rewrite allocateToken_run.
  destruct (normalizedSource req) as [src|] eqn:Hn; [|simpl; now intros [= <-]].
  destruct (config.includes config.tokenSources (Some src)) eqn:Hsrc;
    [|simpl; now intros [= <-]].
  simpl.
  destruct (getDoctorById (data w) (req_doctorId req)) as [doctor|] eqn:Hd;
    [|simpl; now intros [= <-]].
  apply getDoctorById_In in Hd. destruct Hd as [Hdin Hdid].
  pose proof (Integrity_generateSlotsForDay doctor (req_date req) w) as Hgen.
  pose proof (generateSlotsForDay_worlds doctor (req_date req) w) as Hw.
  destruct (generateSlotsForDay doctor (req_date req) w) as [sl w1|msg w1|];
    [| |discriminate].
  - specialize (Hgen w1 Hint eq_refl). specialize (Hw w1 eq_refl).
    destruct (List.find _ _) as [slot|] eqn:Ef; simpl; intros [= <-]; [|assumption].
    apply find_some in Ef. destruct Ef as [Hin _].
    apply In_getSlotsForDoctorDay in Hin. destruct Hin as [Hin Hm].
    apply slotMatches_spec in Hm. destruct Hm as [Hmd Hmdate].
    apply Integrity_withToken; [assumption| |reflexivity].
    split; [exists slot; simpl; auto|]. split.
    + exists doctor. split; [|exact Hdid].
      destruct Hw as [->|(_ & ts & ->)]; simpl; assumption.
    + simpl. split; [|reflexivity]. now apply includes_tokenSources.
  - simpl. intros [= <-]. now apply Hgen.
Qed.

Lemma Integrity_retired_rebalanced w k token st :
  Inv w -> Integrity w -> tokens (data w) !! k = Some token ->
  Integrity (withTokens w (rebalanced (retired (data w) k st)
                             (tok_doctorId token) (tok_date token) (slotId token))).
Proof.
  intros Hinv [Ht Hn Hf Hdn Hdf] Hk.
  assert (Hids : map tok_id (rebalanced (retired (data w) k st)
                               (tok_doctorId token) (tok_date token) (slotId token))
                 = map tok_id (tokens (data w))).
  { rewrite rebalanced_ids. simpl. now apply map_tok_id_alter. }
  assert (Hwf1 : forall t, In t (alter (set_status st) k (tokens (data w))) ->
                           tokenWellFormed w t).
  { intros t Hin. apply In_alter in Hin. destruct Hin as [Hin|(y & Hy & ->)]; [auto|].
    apply tokenWellFormed_status, Ht. now apply lookup_In in Hy. }
  split; simpl; auto.
  - intros t Hin. apply (tokenWellFormed_mono w); simpl; auto.
    unfold rebalanced in Hin.
    destruct (rebalancePlan _ _ _ _) as [k'|] eqn:Ep; simpl in Hin; [|auto].
    apply In_alter in Hin. destruct Hin as [Hin|(c & Hc & ->)]; [auto|].
    apply rebalancePlan_move in Ep.
    destruct Ep as (i & fslot & L & c' & rest & Hi & Hfid & HL & Hhead).
    apply head_getTokensForSlot in Hhead. destruct Hhead as (Hc' & Hsch & _).
    simpl in Hc'. rewrite Hc in Hc'. injection Hc' as <-.
    apply scheduledIn_spec in Hsch. destruct Hsch as [HcL _].
    apply lookup_In, In_getSlotsForDoctorDay in Hi. destruct Hi as [Hfin Hfm].
    apply In_drop, In_getSlotsForDoctorDay in HL. destruct HL as [HLin HLm].
    simpl in Hfin, HLin.
    apply slotMatches_spec in Hfm, HLm.
    destruct (Hwf1 c (lookup_In _ _ _ Hc))
      as ((sc & Hscin & Hscid & Hscd & Hscdate) & Hdoc & Hsrc & Hscore).
    assert (sc = L) as ->.
    { apply (NoDup_map_inj slot_id (slots (data w))); auto.
      - apply (inv_slot_ids w Hinv).
      - congruence. }
    split; [|auto]. exists fslot. simpl. repeat split; auto.
    + destruct Hfm as [-> _]. destruct HLm as [<- _]. exact Hscd.
    + destruct Hfm as [_ ->]. destruct HLm as [_ <-]. exact Hscdate.
  - now rewrite Hids.
  - intros t Hin. apply (in_map tok_id) in Hin. rewrite Hids in Hin.
    apply in_map_iff in Hin. destruct Hin as (u & <- & Hu). auto.
Qed.

Lemma reachable_Integrity w : reachable w -> Integrity w.
Proof.
  induction 1 as [|w op w' Hreach IH Hadm Hexec]; [apply Integrity_empty|].
  pose proof (reachable_Inv w Hreach) as Hinv.
  destruct op; simpl in Hexec.
  - injection Hexec as <-. now apply Integrity_createDoctor.
  - eapply Integrity_generateSlotsForDay; eauto.
  - eapply Integrity_allocateToken; eauto.
  - rewrite cancelToken_run in Hexec.
    destruct (findToken _ _) as [[k t]|] eqn:Ef; [|now injection Hexec as <-].
    destruct (negb _); injection Hexec as <-; [assumption|].
    apply findToken_Some in Ef. now apply Integrity_retired_rebalanced.
  - rewrite markNoShow_run in Hexec.
    destruct (findToken _ _) as [[k t]|] eqn:Ef; [|now injection Hexec as <-].
    destruct (negb _); injection Hexec as <-; [assumption|].
    apply findToken_Some in Ef. now apply Integrity_retired_rebalanced.
  - injection Hexec as <-. exact IH.
Qed.

Lemma known_source_score s :
  In s config.tokenSources -> 1 <= getPriorityScore s <= 5.
Proof.
  intros H. simpl in H.
  destruct H as [<-|[<-|[<-|[<-|[<-|[]]]]]]; vm_compute; split; discriminate.
Qed.

(** X7. Referential integrity: in a reachable world every stored token refers
    to a stored slot of its own doctor and date and to a stored doctor, its
    source is one of the five known ones and its score is the score of that
    source, between 1 and 5, whatever bookings, cancellations, no-shows and
    rebalancing moves have taken place. *)
Theorem stored_tokens_well_formed w t :
  reachable w -> In t (tokens (data w)) ->
  tokenWellFormed w t /\ 1 <= priorityScore t <= 5.
Proof.
  intros Hreach Hin.
  pose proof (int_tokens w (reachable_Integrity w Hreach) t Hin) as Hwf.
  split; [exact Hwf|].
  destruct Hwf as (_ & _ & Hsrc & ->). now apply known_source_score.
Qed.

Lemma stored_tokens_well_formed_witness :
  tokenWellFormed wCancelled (set_slotId 1 (mkToken 4 0 2 day1 "patient" "ONLINE" 2 SCHEDULED "t2"))
  /\ 1 <= 2 <= 5.
Proof.
  apply (stored_tokens_well_formed wCancelled
           (set_slotId 1 (mkToken 4 0 2 day1 "patient" "ONLINE" 2 SCHEDULED "t2"))).
  - apply reachable_execAll; [apply reachable_empty|].
    repeat constructor; simpl; lia.
  - vm_compute. right. left. reflexivity.
Defined.

Lemma find_indexed_unique (l : list Token) (g : nat -> nat) k t :
  NoDup (map tok_id l) -> l !! k = Some t ->
  List.find (fun it => Nat.eqb (tok_id (snd it)) (tok_id t))
            (imap (fun i x => (g i, x)) l)
  = Some (g k, t).
Proof.
  revert g k. induction l as [|x l IH]; intros g k Hn Hk; [discriminate|].
  simpl in Hn. apply NoDup_cons in Hn. destruct Hn as [Hx Hn].
  rewrite imap_cons. simpl. destruct k as [|k]; simpl in Hk.
  - injection Hk as ->. now rewrite Nat.eqb_refl.
  - destruct (Nat.eqb (tok_id x) (tok_id t)) eqn:E.
    + apply Nat.eqb_eq in E. exfalso. apply Hx. rewrite E.
      apply list_elem_of_In, in_map. now apply lookup_In in Hk.
    + apply (IH (g ∘ S) k Hn Hk).
Qed.

Lemma find_doctor_unique (l : list Doctor) doc :
  NoDup (map doc_id l) -> In doc l ->
  List.find (fun d => Nat.eqb (doc_id d) (doc_id doc)) l = Some doc.
Proof.
  induction l as [|x l IH]; intros Hn Hin; [destruct Hin|].
  simpl in Hn. apply NoDup_cons in Hn. destruct Hn as [Hx Hn]. simpl.
  destruct Hin as [->|Hin]; [now rewrite Nat.eqb_refl|].
  destruct (Nat.eqb (doc_id x) (doc_id doc)) eqn:E; [|now apply IH].
  apply Nat.eqb_eq in E. exfalso. apply Hx. rewrite E.
  now apply list_elem_of_In, in_map.
Qed.

(** X8. Identifiers lead back to their objects: in a reachable world the
    search of [cancelToken] and [markNoShow] for the identifier of a stored
    token finds that very token, [getDoctorById] on the identifier of a
    stored doctor finds that doctor, and so every SCHEDULED token can be
    cancelled, or marked as a no-show, through its identifier. *)
Theorem lookup_by_identifier w :
  reachable w ->
  (forall k t, tokens (data w) !! k = Some t ->
               findToken (data w) (tok_id t) = Some (k, t))
  /\ (forall doc, In doc (doctors (data w)) ->
                  getDoctorById (data w) (doc_id doc) = Some doc)
  /\ (forall k t, tokens (data w) !! k = Some t -> status t = SCHEDULED ->
        (exists w', cancelToken (tok_id t) w
                    = Returns (Some (set_status CANCELLED t)) w')
        /\ (exists w', markNoShow (tok_id t) w
                       = Returns (Some (set_status NO_SHOW t)) w')).
Proof.
  intros Hreach. apply reachable_Integrity in Hreach.
  assert (Hfind : forall k t, tokens (data w) !! k = Some t ->
                              findToken (data w) (tok_id t) = Some (k, t)).
  { intros k t Hk.
    apply (find_indexed_unique (tokens (data w)) (fun i => i) k t);
      [apply (int_token_ids w Hreach)|exact Hk]. }
  split; [exact Hfind|]. split.
  - intros doc Hin. apply find_doctor_unique; [apply (int_doctor_ids w Hreach)|exact Hin].
  - intros k t Hk Hs. split; eexists.
    + apply (cancelToken_success _ _ k); auto.
    + apply (markNoShow_success _ _ k); auto.
Qed.

Lemma lookup_by_identifier_witness :
  findToken (data wFull) 4 = Some (1%nat, mkToken 4 0 2 day1 "patient" "ONLINE" 2 SCHEDULED "t2")
  /\ getDoctorById (data wFull) 0 = Some drA.
Proof.
  destruct (lookup_by_identifier wFull reachable_wFull) as (Htok & Hdoc & _).
  split.
  - apply (Htok 1%nat (mkToken 4 0 2 day1 "patient" "ONLINE" 2 SCHEDULED "t2")).
    reflexivity.
  - apply (Hdoc drA). vm_compute. left. reflexivity.
Defined.

(** ** What the operations leave in place *)

Lemma evolves_refl t : evolves t t.
Proof. repeat split; auto. Qed.

Lemma evolves_trans t1 t2 t3 : evolves t1 t2 -> evolves t2 t3 -> evolves t1 t3.
Proof.
  intros (Hb1 & Hs1 & Hf1) (Hb2 & Hs2 & Hf2).
  destruct (status t1) eqn:E1.
  - split; [|split; [now right|congruence]].
    unfold sameBooking in *. intuition congruence.
  - assert (t2 = t1) as -> by (apply Hf1; discriminate).
    rewrite E1 in Hf2. assert (t3 = t1) as -> by (apply Hf2; discriminate).
    apply evolves_refl.
  - assert (t2 = t1) as -> by (apply Hf1; discriminate).
    rewrite E1 in Hf2. assert (t3 = t1) as -> by (apply Hf2; discriminate).
    apply evolves_refl.
Qed.

Lemma alter_evolves (f : Token -> Token) k (l : list Token) :
  (forall t, l !! k = Some t -> evolves t (f t)) ->
  forall j t, l !! j = Some t -> exists t', alter f k l !! j = Some t' /\ evolves t t'.
Proof.
  intros Hf j t Hj. destruct (Nat.eq_dec k j) as [->|Hne].
  - exists (f t). rewrite list_lookup_alter_eq, Hj. split; [reflexivity|auto].
  - exists t. rewrite list_lookup_alter_ne by exact Hne. split; [exact Hj|apply evolves_refl].
Qed.

Lemma retired_rebalanced_evolves d k token st did date freed :
  tokens d !! k = Some token -> status token = SCHEDULED ->
  forall j t, tokens d !! j = Some t ->
    exists t', rebalanced (retired d k st) did date freed !! j = Some t'
               /\ evolves t t'.
Proof.
  intros Hk Hs j t Hj.
  destruct (alter_evolves (set_status st) k (tokens d)) with (j := j) (t := t)
    as (t1 & Ht1 & He1); [|exact Hj|].
  { intros u Hu. rewrite Hk in Hu. injection Hu as <-.
    repeat split; simpl; auto; congruence. }
  unfold rebalanced.
  destruct (rebalancePlan _ _ _ _) as [k'|] eqn:Ep; [|exists t1; auto].
  apply rebalancePlan_scheduled in Ep. destruct Ep as (c & Hc & Hcs).
  destruct (alter_evolves (set_slotId freed) k' (tokens (retired d k st)))
    with (j := j) (t := t1) as (t2 & Ht2 & He2); [|exact Ht1|].
  { intros u Hu. rewrite Hc in Hu. injection Hu as <-.
    repeat split; simpl; auto; congruence. }
  exists t2. split; [exact Ht2|]. now apply (evolves_trans t t1 t2).
Qed.

Lemma length_rebalanced d did date freed :
  length (rebalanced d did date freed) = length (tokens d).
Proof.
  unfold rebalanced. destruct (rebalancePlan _ _ _ _); [|reflexivity].
  apply length_alter.
Qed.

(** X9. No operation deletes or rewrites what is stored: after any operation
    the doctors and the slots of before are still there, unchanged and in
    the same places, with new ones only after them; at most one token is
    added; and a token of before is still at its position with the same
    booking (identifier, doctor, date, patient, source, score, creation
    time), its status either unchanged or gone from SCHEDULED to a terminal
    one, and, once retired, unchanged altogether. *)
Theorem store_only_grows op w w' :
  exec op w = Some w' ->
  doctors (data w) `prefix_of` doctors (data w')
  /\ slots (data w) `prefix_of` slots (data w')
  /\ (seed w <= seed w')%nat
  /\ (length (tokens (data w)) <= length (tokens (data w'))
      <= S (length (tokens (data w))))%nat
  /\ forall k t, tokens (data w) !! k = Some t ->
       exists t', tokens (data w') !! k = Some t' /\ evolves t t'.
Proof.
  assert (Hsame : forall w0 : World,
            doctors (data w0) `prefix_of` doctors (data w0)
            /\ slots (data w0) `prefix_of` slots (data w0)
            /\ (seed w0 <= seed w0)%nat
            /\ (length (tokens (data w0)) <= length (tokens (data w0))
                <= S (length (tokens (data w0))))%nat
            /\ forall k t, tokens (data w0) !! k = Some t ->
                 exists t', tokens (data w0) !! k = Some t' /\ evolves t t').
  { intros w0. repeat split; try reflexivity; try lia.
    intros k t Hk. exists t. split; [exact Hk|apply evolves_refl]. }
  assert (Hslots : forall w0 new,
            doctors (data w0) `prefix_of` doctors (data (withSlots w0 new))
            /\ slots (data w0) `prefix_of` slots (data (withSlots w0 new))
            /\ (seed w0 <= seed (withSlots w0 new))%nat
            /\ (length (tokens (data w0)) <= length (tokens (data (withSlots w0 new)))
                <= S (length (tokens (data w0))))%nat
            /\ forall k t, tokens (data w0) !! k = Some t ->
                 exists t', tokens (data (withSlots w0 new)) !! k = Some t' /\ evolves t t').
  { intros w0 new. simpl. repeat split; try reflexivity; try lia.
    - now exists new.
    - intros k t Hk. exists t. split; [exact Hk|apply evolves_refl]. }
  assert (Hretire : forall k token st,
            tokens (data w) !! k = Some token -> status token = SCHEDULED ->
            let w2 := withTokens w (rebalanced (retired (data w) k st)
                         (tok_doctorId token) (tok_date token) (slotId token)) in
            doctors (data w) `prefix_of` doctors (data w2)
            /\ slots (data w) `prefix_of` slots (data w2)
            /\ (seed w <= seed w2)%nat
            /\ (length (tokens (data w)) <= length (tokens (data w2))
                <= S (length (tokens (data w))))%nat
            /\ forall j t, tokens (data w) !! j = Some t ->
                 exists t', tokens (data w2) !! j = Some t' /\ evolves t t').
  { intros k token st Hk Hs. simpl. rewrite length_rebalanced. simpl.
    rewrite length_alter. repeat split; try reflexivity; try lia.
    exact (retired_rebalanced_evolves (data w) k token st _ _ _ Hk Hs). }
  destruct op; simpl.
  - intros [= <-]. simpl. repeat split; try reflexivity; try lia.
    + now eexists.
    + intros k t Hk. exists t. split; [exact Hk|apply evolves_refl].
  - intros H. apply generateSlotsForDay_worlds in H.
    destruct H as [->|(_ & ts & ->)]; auto.
  - rewrite allocateToken_run.
    destruct (normalizedSource req) as [src|]; [|simpl; intros [= <-]; auto].
    destruct (negb _); [simpl; intros [= <-]; auto|].
    destruct (getDoctorById _ _) as [doctor|]; [|simpl; intros [= <-]; auto].
    pose proof (generateSlotsForDay_worlds doctor (req_date req) w) as Hw.
    destruct (generateSlotsForDay doctor (req_date req) w) as [sl w1|msg w1|];
      [| |discriminate].
    + specialize (Hw w1 eq_refl).
      assert (Hw1 : doctors (data w) `prefix_of` doctors (data w1)
                    /\ slots (data w) `prefix_of` slots (data w1)
                    /\ (seed w <= seed w1)%nat
                    /\ tokens (data w1) = tokens (data w)).
      { destruct Hw as [->|(_ & ts & ->)]; simpl; repeat split; try reflexivity; try lia.
        now eexists. }
      destruct Hw1 as (Hd & Hs & Hseed & Htok).
      destruct (List.find _ _) as [slot|]; simpl; intros [= <-]; simpl.
      * rewrite Htok, length_app. simpl. repeat split; auto; try lia.
        intros k t Hk. exists t. split; [|apply evolves_refl].
        now apply lookup_app_l_Some.
      * rewrite Htok. repeat split; auto; try lia.
        intros k t Hk. exists t. split; [exact Hk|apply evolves_refl].
    + simpl. intros [= <-]. specialize (Hw w1 eq_refl).
      destruct Hw as [->|(_ & ts & ->)]; auto.
  - rewrite cancelToken_run.
    destruct (findToken _ _) as [[k t]|] eqn:Ef; [|simpl; intros [= <-]; auto].
    destruct (status t) eqn:Es; simpl; intros [= <-]; auto.
    apply findToken_Some in Ef. destruct Ef as [Hk _]. now apply Hretire.
  - rewrite markNoShow_run.
    destruct (findToken _ _) as [[k t]|] eqn:Ef; [|simpl; intros [= <-]; auto].
    destruct (status t) eqn:Es; simpl; intros [= <-]; auto.
    apply findToken_Some in Ef. destruct Ef as [Hk _]. now apply Hretire.
  - intros [= <-]. auto.
Qed.

Lemma store_only_grows_witness :
  exists t', tokens (data wCancelled) !! 1%nat = Some t'
             /\ evolves (mkToken 4 0 2 day1 "patient" "ONLINE" 2 SCHEDULED "t2") t'.
Proof.
  destruct (store_only_grows (OpCancelToken 3) wFull wCancelled eq_refl)
    as (_ & _ & _ & _ & Hkeep).
  exact (Hkeep 1%nat _ eq_refl).
Defined.

(** ** Counting the bookings *)

Lemma scheduled_filter_alter_slotId s k (l : list Token) :
  length (List.filter (fun t => Status_eqb (status t) SCHEDULED) (alter (set_slotId s) k l))
  = length (List.filter (fun t => Status_eqb (status t) SCHEDULED) l).
Proof.
  revert k. induction l as [|x l IH]; intros [|k]; simpl; try reflexivity.
  - destruct (Status_eqb (status x) SCHEDULED); reflexivity.
  - destruct (Status_eqb (status x) SCHEDULED); simpl; [f_equal|]; apply IH.
Qed.

Lemma scheduled_filter_alter_status st k t (l : list Token) :
  l !! k = Some t -> status t = SCHEDULED -> st <> SCHEDULED ->
  S (length (List.filter (fun t => Status_eqb (status t) SCHEDULED)
                         (alter (set_status st) k l)))
  = length (List.filter (fun t => Status_eqb (status t) SCHEDULED) l).
Proof.
  intros Hk Hs Hst. revert k Hk. induction l as [|x l IH]; intros [|k] Hk;
    try discriminate; simpl in *.
  - injection Hk as ->. rewrite Hs. simpl.
    destruct st; [congruence|reflexivity|reflexivity].
  - destruct (Status_eqb (status x) SCHEDULED); simpl; [f_equal|]; apply (IH k Hk).
Qed.

Lemma scheduledCount_retired_rebalanced w k token st did date freed :
  tokens (data w) !! k = Some token -> status token = SCHEDULED -> st <> SCHEDULED ->
  S (scheduledCount (withTokens w (rebalanced (retired (data w) k st) did date freed)))
  = scheduledCount w.
Proof.
  intros Hk Hs Hst. unfold scheduledCount, rebalanced. simpl.
  destruct (rebalancePlan _ _ _ _); [rewrite scheduled_filter_alter_slotId|];
    now apply (scheduled_filter_alter_status st k token).
Qed.

(** X10. Bookings are counted one by one: a call of [allocateToken] that
    returns a token leaves one more SCHEDULED token in the store, a call of
    [cancelToken] or [markNoShow] that returns a token leaves one fewer, and
    a call that returns [null] leaves as many as before. *)
Theorem bookings_counted w :
  (forall now req r w', allocateToken now req w = Returns r w' ->
     scheduledCount w' = (scheduledCount w + returned r)%nat)
  /\ (forall tokenId r w', cancelToken tokenId w = Returns r w' ->
        (scheduledCount w' + returned r)%nat = scheduledCount w)
  /\ (forall tokenId r w', markNoShow tokenId w = Returns r w' ->
        (scheduledCount w' + returned r)%nat = scheduledCount w).
Proof.
  split; [|split].
  - intros now req r w'. rewrite allocateToken_run.
    destruct (normalizedSource req) as [src|]; [|discriminate].
    destruct (negb _); [discriminate|].
    destruct (getDoctorById _ _) as [doctor|]; [|discriminate].
    destruct (generateSlotsForDay doctor (req_date req) w) as [sl w1|msg w1|] eqn:Eg;
      try discriminate.
    apply generateSlotsForDay_tokens in Eg.
    destruct (List.find _ _) as [slot|]; intros [= <- <-];
      unfold scheduledCount; simpl; rewrite Eg.
    + rewrite List.filter_app, length_app. reflexivity.
    + simpl. lia.
  - intros tokenId r w'. rewrite cancelToken_run.
    destruct (findToken _ _) as [[k t]|] eqn:Ef; [|intros [= <- <-]; simpl; lia].
    apply findToken_Some in Ef. destruct Ef as [Hk _].
    destruct (status t) eqn:Es; simpl; try (intros [= <- <-]; simpl; lia).
    rewrite (retired_rebalanced_lookup (data w) k t CANCELLED) by (auto; discriminate).
    intros [= <- <-].
    pose proof (scheduledCount_retired_rebalanced w k t CANCELLED
                  (tok_doctorId t) (tok_date t) (slotId t) Hk Es ltac:(discriminate)) as Hc.
    simpl. lia.
  - intros tokenId r w'. rewrite markNoShow_run.
    destruct (findToken _ _) as [[k t]|] eqn:Ef; [|intros [= <- <-]; simpl; lia].
    apply findToken_Some in Ef. destruct Ef as [Hk _].
    destruct (status t) eqn:Es; simpl; try (intros [= <- <-]; simpl; lia).
    rewrite (retired_rebalanced_lookup (data w) k t NO_SHOW) by (auto; discriminate).
    intros [= <- <-].
    pose proof (scheduledCount_retired_rebalanced w k t NO_SHOW
                  (tok_doctorId t) (tok_date t) (slotId t) Hk Es ltac:(discriminate)) as Hc.
    simpl. lia.
Qed.

(** ** The slots of a first generation *)

Lemma slotGrid_lookup_lt dur start n i :
  (i < n)%nat ->
  slotGrid dur start n !! i
  = Some (start + Z.of_nat i * dur, start + (Z.of_nat i + 1) * dur).
Proof.
  intros Hi. unfold slotGrid. rewrite list_lookup_fmap, lookup_seq_lt by exact Hi.
  reflexivity.
Qed.

Lemma slotsOf_lookup doctor date ts n i :
  slotsOf doctor date n ts !! i
  = (fun p => mkSlot (n + i) (doc_id doctor) date (formatHHmm (fst p))
                     (formatHHmm (snd p)) (maxPatientsPerSlot doctor)) <$> ts !! i.
Proof.
  revert n i. induction ts as [|[a b] r IH]; intros n [|i]; simpl; try reflexivity.
  - now rewrite Nat.add_0_r.
  - rewrite IH. now replace (S n + i)%nat with (n + S i)%nat by lia.
Qed.

(** The loop needs no more iterations than it builds slots. *)
Lemma slotTimes_count dur finish fuel current :
  1 <= dur -> (slotCount dur current finish <= fuel)%nat ->
  slotTimes fuel dur current finish
  = Some (slotGrid dur current (slotCount dur current finish)).
Proof.
  intros Hd. revert current. induction fuel as [|fuel IH]; intros current Hf; simpl.
  - destruct (current <? finish) eqn:E.
    + apply Z.ltb_lt in E. rewrite (slotCount_step dur current finish) in Hf by lia. lia.
    + apply Z.ltb_ge in E. now rewrite slotCount_done.
  - destruct (current <? finish) eqn:E.
    + apply Z.ltb_lt in E.
      rewrite (slotCount_step dur current finish) in Hf |- * by lia.
      rewrite IH by lia. now rewrite slotGrid_succ.
    + apply Z.ltb_ge in E. now rewrite slotCount_done.
Qed.

Lemma slotCount_minutes dur s e :
  1 <= dur ->
  (slotCount (dur * clock.msPerMinute) s e
   <= Z.to_nat ((e - s) / clock.msPerMinute + 1))%nat.
Proof.
  intros Hd. unfold clock.msPerMinute.
  destruct (Z_le_gt_dec e s) as [Hle|Hgt].
  - rewrite slotCount_done by lia. lia.
  - unfold slotCount. apply Z2Nat.inj_le.
    + apply Z.div_pos; lia.
    + assert (0 <= (e - s) / 60000) by (apply Z.div_pos; lia). lia.
    + replace (e - s + dur * 60000 - 1) with (e - s - 1 + 1 * (dur * 60000)) by lia.
      rewrite Z.div_add by lia.
      assert ((e - s - 1) / (dur * 60000) <= (e - s) / (dur * 60000))
        by (apply Z.div_le_mono; lia).
      assert ((e - s) / (dur * 60000) <= (e - s) / 60000)
        by (apply Z.div_le_compat_l; lia).
      lia.
Qed.

Lemma clock_valid_between s e t :
  clock.valid s = true -> clock.valid e = true -> s <= t <= e ->
  clock.valid t = true.
Proof.
  unfold clock.valid. rewrite !andb_true_iff, !Z.leb_le. lia.
Qed.

(** Under the host's clock too the loop returns the slots of its cursor
    values, or never returns. *)
Lemma clock_slotLoop_slotTimes format doctor date finish fuel current w :
  1 <= slotDurationMinutes doctor ->
  clock.valid finish = true -> - clock.maxTime <= current ->
  clock.slotLoop format fuel doctor date current finish w =
  match slotTimes fuel (slotDurationMinutes doctor * clock.msPerMinute) current finish with
  | Some ts => Returns (clock.slotsOf format doctor date (seed w) ts)
                       (mkWorld (data w) (seed w + length ts))
  | None => Diverges
  end.
Proof.
  intros Hd Hfin. revert current w.
  assert (Hbefore : forall current, - clock.maxTime <= current ->
            clock.isBefore current finish = (current <? finish)).
  { intros current Hc. unfold clock.isBefore. rewrite Hfin, andb_true_r.
    destruct (current <? finish) eqn:E; [|apply andb_false_r].
    apply Z.ltb_lt in E. rewrite andb_true_r.
    unfold clock.valid in *. rewrite andb_true_iff, !Z.leb_le in *. lia. }
  induction fuel as [|fuel IH]; intros current w Hc; simpl; rewrite (Hbefore _ Hc).
  - destruct (current <? finish); [reflexivity|]. simpl. munfold.
    destruct w as [d n]. simpl. now rewrite Nat.add_0_r.
  - destruct (current <? finish).
    + munfold. simpl. rewrite IH by (unfold clock.msPerMinute; lia). simpl.
      destruct (slotTimes fuel _ _ finish) as [ts|]; [|reflexivity].
      simpl. do 2 f_equal. lia.
    + munfold. destruct w as [d n]. simpl. now rewrite Nat.add_0_r.
Qed.

Lemma clock_slotsOf_length format doctor date n ts :
  length (clock.slotsOf format doctor date n ts) = length ts.
Proof.
  revert n. induction ts as [|[s e] r IH]; intros n; simpl; [reflexivity|].
  now rewrite IH.
Qed.

Lemma clock_slotsOf_lookup format doctor date ts n i :
  clock.slotsOf format doctor date n ts !! i
  = (fun p => mkSlot (n + i) (doc_id doctor) date (clock.show format (fst p))
                     (clock.show format (snd p)) (maxPatientsPerSlot doctor))
      <$> ts !! i.
Proof.
  revert n i. induction ts as [|[a b] r IH]; intros n [|i]; simpl; try reflexivity.
  - now rewrite Nat.add_0_r.
  - rewrite IH. now replace (S n + i)%nat with (n + S i)%nat by lia.
Qed.

Lemma clock_slotsOf_ids format doctor date n ts :
  map slot_id (clock.slotsOf format doctor date n ts) = seq n (length ts).
Proof.
  revert n. induction ts as [|[s e] r IH]; intros n; simpl; [reflexivity|].
  now rewrite IH.
Qed.

(** A first generation under the host's clock, in closed form. *)
Lemma clock_generateSlotsForDay_first parse format doctor date w s e :
  parse date (doc_startTime doctor) = Some s ->
  parse date (doc_endTime doctor) = Some e ->
  clock.valid s = true -> clock.valid e = true ->
  1 <= slotDurationMinutes doctor ->
  existingSlots w doctor date = [] ->
  let step := slotDurationMinutes doctor * clock.msPerMinute in
  let sl := clock.slotsOf format doctor date (seed w)
                          (slotGrid step s (slotCount step s e)) in
  clock.generateSlotsForDay parse format doctor date w = Returns sl (withSlots w sl).
Proof.
  intros Hs He Hvs Hve Hd Hex step sl.
  unfold clock.generateSlotsForDay, existingSlots in *. munfold. simpl.
  rewrite Hex, Hs, He. simpl.
  rewrite clock_slotLoop_slotTimes; try assumption.
  2:{ unfold clock.valid in Hvs. rewrite andb_true_iff, !Z.leb_le in Hvs. lia. }
  rewrite slotTimes_count;
    [|unfold clock.msPerMinute; lia|now apply slotCount_minutes].
  simpl. unfold withSlots, sl, step. now rewrite clock_slotsOf_length.
Qed.

(** X11. The slots of a first generation tile the working hours, whatever the
    host's time zone.  Let the host read the doctor's hours on the date as
    the instants [s] and [e], and let the duration be one minute or more.
    Then [generateSlotsForDay], on a day without slots, stores and returns
    as many slots as durations are needed to cover the window from [s] to
    [e], at least one when [s] is before [e] and none otherwise, with fresh
    consecutive identifiers, the doctor's identifier, the date and the
    doctor's capacity.  Slot [i] starts [i] durations after [s], before [e],
    and ends one duration later, where the next slot starts; the last slot
    ends at [e] or after it, and at [e] when the duration divides the
    window. *)
Theorem generated_slots_tile parse format doctor date w s e :
  parse date (doc_startTime doctor) = Some s ->
  parse date (doc_endTime doctor) = Some e ->
  clock.valid s = true -> clock.valid e = true ->
  1 <= slotDurationMinutes doctor ->
  existingSlots w doctor date = [] ->
  let step := slotDurationMinutes doctor * clock.msPerMinute in
  let n := Z.to_nat ((e - s + step - 1) / step) in
  exists sl,
    clock.generateSlotsForDay parse format doctor date w = Returns sl (withSlots w sl)
    /\ length sl = n
    /\ (s < e <-> sl <> [])
    /\ map slot_id sl = seq (seed w) n
    /\ Forall (fun slot => slot_doctorId slot = doc_id doctor
                           /\ slot_date slot = date
                           /\ capacity slot = maxPatientsPerSlot doctor) sl
    /\ (forall i slot, sl !! i = Some slot ->
          s + Z.of_nat i * step < e
          /\ slot_startTime slot = format (s + Z.of_nat i * step)
          /\ slot_endTime slot = clock.show format (s + (Z.of_nat i + 1) * step))
    /\ (forall i a b, sl !! i = Some a -> sl !! S i = Some b ->
                      slot_endTime a = slot_startTime b)
    /\ (forall final, last sl = Some final ->
          e <= s + Z.of_nat n * step
          /\ slot_endTime final = clock.show format (s + Z.of_nat n * step))
    /\ ((e - s) mod step = 0 ->
        forall final, last sl = Some final -> slot_endTime final = format e).
Proof.
  intros Hs He Hvs Hve Hd Hex step n.
  assert (Hstep : 60000 <= step) by (unfold step, clock.msPerMinute; lia).
  assert (Hn : n = slotCount step s e) by reflexivity.
  set (grid := slotGrid step s n).
  exists (clock.slotsOf format doctor date (seed w) grid).
  assert (Hat : forall i slot,
            clock.slotsOf format doctor date (seed w) grid !! i = Some slot ->
            (i < n)%nat
            /\ s + Z.of_nat i * step < e
            /\ slot = mkSlot (seed w + i) (doc_id doctor) date
                        (format (s + Z.of_nat i * step))
                        (clock.show format (s + (Z.of_nat i + 1) * step))
                        (maxPatientsPerSlot doctor)).
  { intros i slot. rewrite clock_slotsOf_lookup.
    destruct (grid !! i) as [[a b]|] eqn:E; [|discriminate].
    pose proof (lookup_lt_Some _ _ _ E) as Hi.
    unfold grid in Hi. rewrite slotGrid_length in Hi.
    apply slotGrid_lookup in E. destruct E as (_ & -> & ->).
    assert (Hlt : s + Z.of_nat i * step < e).
    { rewrite Hn in Hi. unfold slotCount in Hi.
      assert (Hq : Z.of_nat i + 1 <= (e - s + step - 1) / step) by lia.
      pose proof (Z.mul_div_le (e - s + step - 1) step ltac:(lia)) as Hm.
      nia. }
    simpl. intros [= <-]. split; [exact Hi|]. split; [exact Hlt|].
    unfold clock.show at 1.
    rewrite (clock_valid_between s e (s + Z.of_nat i * step) Hvs Hve) by nia.
    f_equal. f_equal. lia. }
  assert (Hcount : s < e -> (0 < n)%nat).
  { intros Hlt. rewrite Hn, (slotCount_step step s e) by lia. lia. }
  assert (Hcover : (0 < n)%nat -> e <= s + Z.of_nat n * step).
  { intros Hpos.
    pose proof (Z.mod_pos_bound (e - s + step - 1) step ltac:(lia)) as Hm.
    pose proof (Z.div_mod (e - s + step - 1) step ltac:(lia)) as Hdm.
    assert (Hq : Z.of_nat n = (e - s + step - 1) / step) by (unfold n in *; lia).
    rewrite Hq. nia. }
  split; [|split; [|split; [|split; [|split; [|split; [|split; [|split]]]]]]].
  - exact (clock_generateSlotsForDay_first parse format doctor date w s e
             Hs He Hvs Hve Hd Hex).
  - rewrite clock_slotsOf_length. unfold grid. apply slotGrid_length.
  - split.
    + intros Hlt Hnil. apply (f_equal (@length Slot)) in Hnil.
      rewrite clock_slotsOf_length in Hnil. unfold grid in Hnil.
      rewrite slotGrid_length in Hnil. simpl in Hnil. specialize (Hcount Hlt). lia.
    + intros Hne. destruct (Z_lt_ge_dec s e) as [Hlt|Hge]; [exact Hlt|].
      exfalso. apply Hne. unfold grid. rewrite Hn, slotCount_done by lia.
      reflexivity.
  - rewrite clock_slotsOf_ids. unfold grid. now rewrite slotGrid_length.
  - apply List.Forall_forall. intros slot Hin.
    apply list_elem_of_In, list_elem_of_lookup in Hin. destruct Hin as (i & Hi).
    destruct (Hat i slot Hi) as (_ & _ & ->). auto.
  - intros i slot Hi. destruct (Hat i slot Hi) as (_ & Hlt & ->). auto.
  - intros i a b Ha Hb.
    destruct (Hat i a Ha) as (_ & _ & ->).
    destruct (Hat (S i) b Hb) as (_ & Hlt & ->). simpl.
    unfold clock.show.
    rewrite (clock_valid_between s e (s + (Z.of_nat i + 1) * step) Hvs Hve) by nia.
    f_equal. lia.
  - intros final. rewrite last_lookup, clock_slotsOf_length. unfold grid at 1.
    rewrite slotGrid_length. intros Hl.
    destruct (Hat _ final Hl) as (Hi & _ & ->). simpl.
    split; [apply Hcover; lia|].
    now replace (Z.of_nat (Init.Nat.pred n) + 1) with (Z.of_nat n) by lia.
  - intros Hdiv final. rewrite last_lookup, clock_slotsOf_length. unfold grid at 1.
    rewrite slotGrid_length. intros Hl.
    destruct (Hat _ final Hl) as (Hi & Hlt & ->). simpl.
    assert (Hend : s + (Z.of_nat (Init.Nat.pred n) + 1) * step = e).
    { assert (Hm : e - s = step * ((e - s) / step)) by (apply Z.div_exact; lia).
      assert (Hq : (e - s + step - 1) / step = (e - s) / step).
      { symmetry. apply (Z.div_unique _ step _ (step - 1)); lia. }
      assert (Hz : Z.of_nat n = (e - s) / step).
      { unfold n. rewrite Z2Nat.id, Hq; [reflexivity|]. apply Z.div_pos; lia. }
      replace (Z.of_nat (Init.Nat.pred n) + 1) with (Z.of_nat n) by lia.
      rewrite Hz. lia. }
    rewrite Hend. unfold clock.show. now rewrite Hve.
Qed.

(** The minute model of [generateSlotsForDay] is the generation under the
    clock that reads [HH:mm] and counts from midnight, for durations from a
    minute to a day. *)
Lemma generateSlotsForDay_plain_clock doctor date w :
  1 <= slotDurationMinutes doctor <= 1440 ->
  generateSlotsForDay doctor date w
  = clock.generateSlotsForDay clock.plainParse clock.plainFormat doctor date w.
Proof.
  intros Hd. destruct (existingSlots w doctor date) as [|x l] eqn:Hex.
  2:{ rewrite generateSlotsForDay_existing by (rewrite Hex; discriminate).
      unfold clock.generateSlotsForDay, existingSlots in *. munfold. simpl.
      now rewrite Hex. }
  rewrite generateSlotsForDay_first by assumption.
  destruct (dayjs date (doc_startTime doctor)) as [s|] eqn:Es.
  2:{ unfold clock.generateSlotsForDay, existingSlots in *. munfold. simpl.
      rewrite Hex. unfold clock.plainParse. rewrite Es. simpl.
      unfold withSlots. simpl. now rewrite Nat.add_0_r. }
  destruct (dayjs date (doc_endTime doctor)) as [e|] eqn:Ee.
  2:{ unfold clock.generateSlotsForDay, existingSlots in *. munfold. simpl.
      rewrite Hex. unfold clock.plainParse. rewrite Es, Ee. simpl.
      unfold withSlots. simpl. now rewrite Nat.add_0_r. }
  pose proof (parseHHmm_range _ _ Es) as Hrs.
  pose proof (parseHHmm_range _ _ Ee) as Hre.
  rewrite slotTimes_enough by lia.
  rewrite (clock_generateSlotsForDay_first clock.plainParse clock.plainFormat
             doctor date w (s * 60000) (e * 60000));
    try assumption; try lia;
    try (unfold clock.plainParse; rewrite ?Es, ?Ee; reflexivity);
    try (unfold clock.valid, clock.maxTime; apply andb_true_iff;
         rewrite !Z.leb_le; lia).
  set (dur := slotDurationMinutes doctor) in *.
  assert (Hcount : slotCount (dur * clock.msPerMinute) (s * 60000) (e * 60000)
                   = slotCount dur s e).
  { unfold slotCount, clock.msPerMinute. f_equal.
    symmetry. apply (Z.div_unique _ (dur * 60000) _
                       (60000 * ((e - s + dur - 1) mod dur) + 59999)).
    - pose proof (Z.mod_pos_bound (e - s + dur - 1) dur ltac:(lia)). lia.
    - pose proof (Z.div_mod (e - s + dur - 1) dur ltac:(lia)). nia. }
  rewrite Hcount.
  assert (Hsl : clock.slotsOf clock.plainFormat doctor date (seed w)
                  (slotGrid (dur * clock.msPerMinute) (s * 60000) (slotCount dur s e))
                = slotsOf doctor date (seed w) (slotGrid dur s (slotCount dur s e))).
  { apply list_eq. intros i. rewrite clock_slotsOf_lookup, slotsOf_lookup.
    destruct (decide (i < slotCount dur s e)%nat) as [Hi|Hi].
    - rewrite !slotGrid_lookup_lt by exact Hi. simpl.
      assert (Hlt : s + Z.of_nat i * dur < e).
      { unfold slotCount in Hi.
        assert (Hq : Z.of_nat i + 1 <= (e - s + dur - 1) / dur) by lia.
        pose proof (Z.mul_div_le (e - s + dur - 1) dur ltac:(lia)) as Hm.
        nia. }
      assert (Hshow : forall m, 0 <= m <= 2880 ->
                clock.show clock.plainFormat (m * 60000) = formatHHmm m).
      { intros m Hm. unfold clock.show, clock.plainFormat, clock.msPerMinute.
        replace (clock.valid (m * 60000)) with true.
        - now rewrite Z.div_mul by lia.
        - symmetry. unfold clock.valid, clock.maxTime. apply andb_true_iff.
          rewrite !Z.leb_le. lia. }
      unfold clock.msPerMinute.
      replace (s * 60000 + Z.of_nat i * (dur * 60000))
        with ((s + Z.of_nat i * dur) * 60000) by lia.
      replace (s * 60000 + (Z.of_nat i + 1) * (dur * 60000))
        with ((s + (Z.of_nat i + 1) * dur) * 60000) by lia.
      rewrite !Hshow by nia. reflexivity.
    - rewrite !lookup_ge_None_2; [reflexivity| |];
        rewrite slotGrid_length; lia. }
  simpl. now rewrite Hsl.
Qed.

Lemma generated_slots_tile_witness :
  clock.generateSlotsForDay clock.plainParse clock.plainFormat drA day1 emptyWorld
  = Returns slotsA wA
  /\ length slotsA = 2%nat
  /\ map slot_startTime slotsA = ["09:00"; "09:15"]
  /\ map slot_endTime slotsA = ["09:15"; "09:30"].
Proof.
  destruct (generated_slots_tile clock.plainParse clock.plainFormat drA day1
              emptyWorld 32400000 34200000
              eq_refl eq_refl eq_refl eq_refl ltac:(simpl; lia) eq_refl)
    as (sl & Hgen & Hlen & _).
  assert (Hsl : sl = slotsA) by (vm_compute in Hgen; now injection Hgen as <-).
  subst sl. split; [exact Hgen|]. split; [exact Hlen|]. split; reflexivity.
Defined.

(** ** The failures of an allocation *)

(** X12. The failures of [allocateToken].  For a doctor inside the data
    model (a slot duration of at least one minute, working hours written as
    [HH:mm]) the call always comes back.  It throws only its two messages,
    each in exactly one situation and with the world as it was: the check of
    the source comes first, the doctor lookup second.  In every other case,
    that is for a known source and a stored doctor, it returns. *)
Theorem allocateToken_failures now req w :
  let known := config.includes config.tokenSources (normalizedSource req) in
  let found := getDoctorById (data w) (req_doctorId req) in
  (forall doctor, found = Some doctor ->
     1 <= slotDurationMinutes doctor
     /\ parseHHmm (doc_startTime doctor) <> None
     /\ parseHHmm (doc_endTime doctor) <> None) ->
  (forall msg w', allocateToken now req w = Throws msg w' <->
     w' = w /\ ((msg = "Invalid token source" /\ known = false)
                \/ (msg = "Doctor not found" /\ known = true /\ found = None)))
  /\ ((exists r w', allocateToken now req w = Returns r w') <->
      known = true /\ found <> None)
  /\ allocateToken now req w <> Diverges.
Proof.
  intros known found Hmodel. subst known found. rewrite allocateToken_run.
  destruct (normalizedSource req) as [src|] eqn:En.
  2:{ split; [|split; [|discriminate]].
      - intros msg w'. split.
        + intros [= <- <-]. split; [reflexivity|]. left. now split.
        + intros (-> & [(-> & _)|(_ & Hk & _)]); [reflexivity|discriminate].
      - split; [intros (r & w' & H); discriminate|intros [Hk _]; discriminate]. }
  destruct (config.includes config.tokenSources (Some src)) eqn:Ek; simpl.
  2:{ split; [|split; [|discriminate]].
      - intros msg w'. split.
        + intros [= <- <-]. split; [reflexivity|]. left. now split.
        + intros (-> & [(-> & _)|(_ & Hk & _)]); [reflexivity|discriminate].
      - split; [intros (r & w' & H); discriminate|intros [Hk _]; discriminate]. }
  destruct (getDoctorById (data w) (req_doctorId req)) as [doctor|] eqn:Eg.
  2:{ split; [|split; [|discriminate]].
      - intros msg w'. split.
        + intros [= <- <-]. split; [reflexivity|]. right. now repeat split.
        + intros (-> & [(_ & Hk)|(-> & _)]); [discriminate|reflexivity].
      - split; [intros (r & w' & H); discriminate|intros [_ Hf]; congruence]. }
  destruct (Hmodel doctor eq_refl) as (Hdur & _).
  destruct (generateSlotsForDay_returns doctor (req_date req) w Hdur)
    as (sl & w1 & Hgen).
  rewrite Hgen. split; [|split].
  - intros msg w'. split.
    + destruct (List.find _ _); discriminate.
    + intros (_ & [(_ & Hk)|(_ & _ & Hf)]); discriminate.
  - split; [intros _; split; [reflexivity|discriminate]|].
    intros _. destruct (List.find _ _); eauto.
  - destruct (List.find _ _); discriminate.
Qed.

Lemma allocateToken_failures_witness :
  (exists r w', allocateToken "t2" (requestA (Some "PAID") false) wWalkIn
                = Returns r w')
  /\ allocateToken "t2" (mkRequest 9 day1 (Some "PAID") "patient" false) wWalkIn
     = Throws "Doctor not found" wWalkIn.
Proof.
  split.
  - apply (proj1 (proj2 (allocateToken_failures "t2" (requestA (Some "PAID") false)
                           wWalkIn
                           ltac:(intros doctor [= <-]; simpl;
                                 repeat split; (lia || discriminate))))).
    split; [reflexivity|discriminate].
  - apply (proj1 (allocateToken_failures "t2"
                    (mkRequest 9 day1 (Some "PAID") "patient" false) wWalkIn
                    ltac:(intros doctor Hd; discriminate))).
    split; [reflexivity|]. right. repeat split; reflexivity.
Defined.

(** ** A doctor without capacity *)

(** X13. A doctor whose capacity is zero or less is never booked.  With a
    slot duration of at least one minute, and every slot that the day already
    has being of no capacity, a valid request comes back with null; the slots
    that the call generated stay in the store, no token is added, and the
    doctor's day is again without capacity, so the next request fares the
    same. *)
Theorem no_capacity_doctor_never_booked now req w doctor :
  config.includes config.tokenSources (normalizedSource req) = true ->
  getDoctorById (data w) (req_doctorId req) = Some doctor ->
  maxPatientsPerSlot doctor <= 0 ->
  1 <= slotDurationMinutes doctor ->
  (forall slot, In slot (existingSlots w doctor (req_date req)) -> capacity slot <= 0) ->
  exists sl w1,
    generateSlotsForDay doctor (req_date req) w = Returns sl w1
    /\ allocateToken now req w = Returns None w1
    /\ tokens (data w1) = tokens (data w)
    /\ doctors (data w1) = doctors (data w)
    /\ existingSlots w1 doctor (req_date req) = sl
    /\ (forall slot, In slot sl -> capacity slot <= 0).
Proof.
  intros Hk Hg Hcap Hd Hex.
  destruct (getDoctorById_In _ _ _ Hg) as [_ Hid].
  assert (Hgen : exists sl w1,
            generateSlotsForDay doctor (req_date req) w = Returns sl w1
            /\ tokens (data w1) = tokens (data w)
            /\ doctors (data w1) = doctors (data w)
            /\ existingSlots w1 doctor (req_date req) = sl
            /\ (forall slot, In slot sl -> capacity slot <= 0)).
  { destruct (existingSlots w doctor (req_date req)) as [|x l] eqn:He.
    - rewrite generateSlotsForDay_first by assumption.
      destruct (dayjs (req_date req) (doc_startTime doctor)) as [s|].
      2:{ exists [], (withSlots w []). rewrite withSlots_nil.
          repeat split; auto; intros slot []. }
      destruct (dayjs (req_date req) (doc_endTime doctor)) as [e|].
      2:{ exists [], (withSlots w []). rewrite withSlots_nil.
          repeat split; auto; intros slot []. }
      rewrite slotTimes_enough by lia.
      eexists _, _. split; [reflexivity|]. split; [reflexivity|].
      split; [reflexivity|]. split.
      + now apply existingSlots_withSlots.
      + intros slot Hin. apply In_slotsOf in Hin. lia.
    - rewrite generateSlotsForDay_existing by (rewrite He; discriminate).
      exists (x :: l), w. rewrite He. repeat split; auto. }
  destruct Hgen as (sl & w1 & Hgen & Ht & Hdoc & Hsl & Hno).
  exists sl, w1. repeat split; try assumption.
  rewrite allocateToken_run.
  destruct (normalizedSource req) as [src|]; [|discriminate].
  rewrite Hk. simpl. rewrite Hg, Hgen.
  rewrite find_all_false; [reflexivity|].
  intros slot Hin. apply In_getSlotsForDoctorDay in Hin. destruct Hin as [Hin Hm].
  apply not_true_is_false. rewrite hasRoom_spec.
  assert (Hc : capacity slot <= 0).
  { apply Hno. rewrite <- Hsl. unfold existingSlots. apply filter_In.
    split; [exact Hin|]. now rewrite Hid. }
  lia.
Qed.

Lemma no_capacity_doctor_never_booked_witness :
  exists sl w1,
    allocateToken "t0" (requestA (Some "PAID") false) wIdle = Returns None w1
    /\ slots (data w1) = sl /\ length sl = 2%nat.
Proof.
  destruct (no_capacity_doctor_never_booked "t0" (requestA (Some "PAID") false)
              wIdle drIdle
              eq_refl eq_refl ltac:(simpl; lia) ltac:(simpl; lia)
              ltac:(intros slot [])) as (sl & w1 & Hgen & Hrun & _).
  exists sl, w1. split; [exact Hrun|].
  vm_compute in Hgen. injection Hgen as <- <-. split; reflexivity.
Defined.

(** ** The direction of a move *)

Lemma StronglySorted_lookup_lt {A} (R : A -> A -> Prop) l i j a b :
  StronglySorted R l -> l !! i = Some a -> l !! j = Some b -> (i < j)%nat -> R a b.
Proof.
  intros Hs. revert i j. induction Hs as [|x l Hs IH Hall]; intros i j Hi Hj Hlt.
  - discriminate.
  - destruct j as [|j]; [lia|]. simpl in Hj. destruct i as [|i].
    + simpl in Hi. injection Hi as <-.
      rewrite List.Forall_forall in Hall. apply Hall. now apply (lookup_In l j).
    + simpl in Hi. apply (IH i j); auto. lia.
Qed.

Lemma In_drop_lookup {A} (l : list A) n x :
  In x (drop n l) -> exists j, (n <= j)%nat /\ l !! j = Some x.
Proof.
  revert n. induction l as [|y l IH]; intros [|n]; simpl; try tauto.
  - intros [<-|H].
    + exists 0%nat. split; [lia|reflexivity].
    + destruct (IH 0%nat) as (j & _ & Hj); [now rewrite drop_0|].
      exists (S j). split; [lia|exact Hj].
  - intros H. destruct (IH n H) as (j & Hle & Hj). exists (S j). split; [lia|exact Hj].
Qed.

(** The only token that a retirement followed by a rebalancing moves is a
    SCHEDULED one, from a slot that comes after the freed one in the day's
    sequence. *)
Lemma retired_rebalanced_moved d k st did date freed i t t' :
  st <> SCHEDULED ->
  tokens d !! i = Some t ->
  rebalanced (retired d k st) did date freed !! i = Some t' ->
  slotId t' <> slotId t ->
  status t = SCHEDULED /\ status t' = SCHEDULED /\ slotId t' = freed
  /\ exists p q fslot laterSlot,
       getSlotsForDoctorDay d did date !! p = Some fslot
       /\ getSlotsForDoctorDay d did date !! q = Some laterSlot
       /\ (p < q)%nat
       /\ slot_id fslot = freed /\ slot_id laterSlot = slotId t.
Proof.
  intros Hst Hi Hi' Hne. unfold rebalanced in Hi'.
  assert (Hstat : forall u, tokens (retired d k st) !! i = Some u -> slotId u = slotId t).
  { intros u. simpl. destruct (decide (i = k)) as [->|Hik].
    - rewrite list_lookup_alter_eq, Hi. simpl. now intros [= <-].
    - rewrite list_lookup_alter_ne by congruence. rewrite Hi. now intros [= <-]. }
  destruct (rebalancePlan (retired d k st) did date freed) as [m|] eqn:Ep.
  2:{ exfalso. apply Hne. now apply Hstat. }
  destruct (decide (i = m)) as [->|Him].
  2:{ rewrite list_lookup_alter_ne in Hi' by congruence.
      exfalso. apply Hne. now apply Hstat. }
  apply rebalancePlan_move in Ep.
  destruct Ep as (p & fslot & laterSlot & c & rest & Hp & Hf & Hlater & Hhead).
  apply head_getTokensForSlot in Hhead. destruct Hhead as (Hm & Hsched & _).
  unfold scheduledIn in Hsched. apply andb_true_iff in Hsched.
  destruct Hsched as [Hsid Hsc]. apply Nat.eqb_eq in Hsid.
  assert (Hcs : status c = SCHEDULED) by (destruct (status c); simpl in Hsc; congruence).
  rewrite list_lookup_alter_eq, Hm in Hi'. simpl in Hi'. injection Hi' as <-.
  assert (Hct : c = t).
  { simpl in Hm. destruct (decide (m = k)) as [->|Hmk].
    - rewrite list_lookup_alter_eq, Hi in Hm. simpl in Hm. injection Hm as <-.
      simpl in Hcs. congruence.
    - rewrite list_lookup_alter_ne in Hm by congruence. congruence. }
  subst c. split; [exact Hcs|]. split; [exact Hcs|]. split; [reflexivity|].
  apply In_drop_lookup in Hlater. destruct Hlater as (q & Hq & Hlq).
  exists p, q, fslot, laterSlot. repeat split; auto; lia.
Qed.

Lemma chronological_lookup day p q a b :
  chronological day -> day !! p = Some a -> day !! q = Some b -> (p < q)%nat ->
  exists ca cb, slot_startTime a = formatHHmm ca /\ slot_startTime b = formatHHmm cb
                /\ 0 <= ca <= cb /\ cb < 1440.
Proof.
  intros (cs & Hmap & Hrange & Hsorted) Hp Hq Hlt.
  assert (Hat : forall i s, day !! i = Some s ->
            exists c, cs !! i = Some c /\ slot_startTime s = formatHHmm c).
  { intros i s Hs.
    assert (H1 : map slot_startTime day !! i = Some (slot_startTime s))
      by (change (map slot_startTime day) with (slot_startTime <$> day);
          now rewrite list_lookup_fmap, Hs).
    rewrite Hmap in H1. change (map formatHHmm cs) with (formatHHmm <$> cs) in H1.
    rewrite list_lookup_fmap in H1.
    destruct (cs !! i) as [c|]; [|discriminate]. simpl in H1. injection H1 as H1.
    now exists c. }
  destruct (Hat p a Hp) as (ca & Hca & Ha). destruct (Hat q b Hq) as (cb & Hcb & Hb).
  exists ca, cb. split; [exact Ha|]. split; [exact Hb|].
  pose proof (StronglySorted_lookup_lt _ _ _ _ _ _ Hsorted Hca Hcb Hlt) as Hle.
  rewrite List.Forall_forall in Hrange.
  pose proof (Hrange ca (lookup_In _ _ _ Hca)). pose proof (Hrange cb (lookup_In _ _ _ Hcb)).
  lia.
Qed.

Lemma allocateToken_throws now req w msg w' :
  allocateToken now req w = Throws msg w' -> w' = w.
Proof.
  rewrite allocateToken_run.
  destruct (normalizedSource req) as [src|]; [|now intros [= _ <-]].
  destruct (negb _); [now intros [= _ <-]|].
  destruct (getDoctorById _ _) as [doctor|]; [|now intros [= _ <-]].
  destruct (generateSlotsForDay doctor (req_date req) w) as [sl w1|msg1 w1|] eqn:Eg.
  - destruct (List.find _ _); discriminate.
  - now apply generateSlotsForDay_no_throw in Eg.
  - discriminate.
Qed.

(** X14. A token never moves to a later slot.  In a reachable world, if an
    operation leaves the token object at some position with another slot than
    before, then the operation was a cancellation or a no-show, the token was
    and stays SCHEDULED, and both slots are stored slots of one doctor and
    date, the new one starting no later than the old one. *)
Theorem tokens_only_move_earlier w op w' i t t' :
  reachable w -> exec op w = Some w' ->
  tokens (data w) !! i = Some t -> tokens (data w') !! i = Some t' ->
  slotId t' <> slotId t ->
  status t = SCHEDULED /\ status t' = SCHEDULED
  /\ (exists tokenId, op = OpCancelToken tokenId \/ op = OpMarkNoShow tokenId)
  /\ exists old new a b,
       In old (slots (data w)) /\ slot_id old = slotId t
       /\ In new (slots (data w)) /\ slot_id new = slotId t'
       /\ slot_doctorId new = slot_doctorId old /\ slot_date new = slot_date old
       /\ slot_startTime new = formatHHmm a /\ slot_startTime old = formatHHmm b
       /\ 0 <= a <= b /\ b < 1440.
Proof.
  intros Hreach Hexec Hi Hi' Hne.
  assert (Hsame : tokens (data w') !! i = Some t -> False).
  { intros H. rewrite H in Hi'. injection Hi' as <-. now apply Hne. }
  assert (Hmove : forall k token st tokenId,
            st <> SCHEDULED ->
            (op = OpCancelToken tokenId \/ op = OpMarkNoShow tokenId) ->
            w' = withTokens w (rebalanced (retired (data w) k st)
                    (tok_doctorId token) (tok_date token) (slotId token)) ->
            status t = SCHEDULED /\ status t' = SCHEDULED
            /\ (exists tokenId, op = OpCancelToken tokenId \/ op = OpMarkNoShow tokenId)
            /\ exists old new a b,
                 In old (slots (data w)) /\ slot_id old = slotId t
                 /\ In new (slots (data w)) /\ slot_id new = slotId t'
                 /\ slot_doctorId new = slot_doctorId old /\ slot_date new = slot_date old
                 /\ slot_startTime new = formatHHmm a /\ slot_startTime old = formatHHmm b
                 /\ 0 <= a <= b /\ b < 1440).
  { intros k token st tokenId Hst Hop ->. simpl in Hi'.
    destruct (retired_rebalanced_moved _ _ _ _ _ _ _ _ _ Hst Hi Hi' Hne)
      as (Hs & Hs' & Hfreed & p & q & fslot & laterSlot & Hp & Hq & Hlt & Hf & Hl).
    split; [exact Hs|]. split; [exact Hs'|]. split; [now exists tokenId|].
    destruct (chronological_lookup _ _ _ _ _
                (reachable_chronological w (tok_doctorId token) (tok_date token) Hreach)
                Hp Hq Hlt) as (a & b & Ha & Hb & Hab).
    apply lookup_In in Hp, Hq. apply In_getSlotsForDoctorDay in Hp, Hq.
    destruct Hp as [Hp Hpm]. destruct Hq as [Hq Hqm].
    apply slotMatches_spec in Hpm, Hqm.
    destruct Hpm as [Hpd Hpt]. destruct Hqm as [Hqd Hqt].
    exists laterSlot, fslot, a, b. repeat split; try assumption; try congruence; lia. }
  destruct op; simpl in Hexec.
  - injection Hexec as <-. simpl in Hsame. tauto.
  - destruct (generateSlotsForDay doctor date w) as [sl w1|msg w1|] eqn:Eg;
      simpl in Hexec; try discriminate; injection Hexec as <-.
    + apply generateSlotsForDay_tokens in Eg. rewrite Eg in Hsame. tauto.
    + now apply generateSlotsForDay_no_throw in Eg.
  - destruct (allocateToken now req w) as [r w1|msg w1|] eqn:Ea;
      simpl in Hexec; try discriminate; injection Hexec as <-.
    + exfalso. apply Hsame. now apply (allocateToken_keeps_tokens _ _ _ _ _ Ea).
    + exfalso. apply Hsame.
      rewrite (allocateToken_throws _ _ _ _ _ Ea). exact Hi.
  - rewrite cancelToken_run in Hexec.
    destruct (findToken _ _) as [[k token]|] eqn:Ef;
      [|simpl in Hexec; injection Hexec as <-; tauto].
    destruct (negb _); simpl in Hexec; injection Hexec as <-; [tauto|].
    apply (Hmove k token CANCELLED tokenId); auto; discriminate.
  - rewrite markNoShow_run in Hexec.
    destruct (findToken _ _) as [[k token]|] eqn:Ef;
      [|simpl in Hexec; injection Hexec as <-; tauto].
    destruct (negb _); simpl in Hexec; injection Hexec as <-; [tauto|].
    apply (Hmove k token NO_SHOW tokenId); auto; discriminate.
  - injection Hexec as <-. tauto.
Qed.

Lemma tokens_only_move_earlier_witness :
  exists old new a b,
    In old (slots (data wFull)) /\ slot_id old = 2%nat
    /\ In new (slots (data wFull)) /\ slot_id new = 1%nat
    /\ slot_doctorId new = slot_doctorId old /\ slot_date new = slot_date old
    /\ slot_startTime new = formatHHmm a /\ slot_startTime old = formatHHmm b
    /\ 0 <= a <= b /\ b < 1440.
Proof.
  destruct (tokens_only_move_earlier wFull (OpCancelToken 3) wCancelled 1%nat
              (mkToken 4 0 2 day1 "patient" "ONLINE" 2 SCHEDULED "t2")
              (mkToken 4 0 1 day1 "patient" "ONLINE" 2 SCHEDULED "t2")
              reachable_wFull eq_refl eq_refl eq_refl ltac:(simpl; lia))
    as (_ & _ & _ & H).
  exact H.
Defined.

(** ** A retirement frees a place *)

(** After a retirement and its rebalancing, one slot of the day holds one
    SCHEDULED token less than before: the slot of the retired token, or the
    later slot that the rebalancing took a token from. *)
Lemma retired_rebalanced_frees d k token st :
  tokens d !! k = Some token -> status token = SCHEDULED -> st <> SCHEDULED ->
  (exists slot, In slot (slots d) /\ slot_id slot = slotId token
                /\ slotMatches (tok_doctorId token) (tok_date token) slot = true) ->
  exists slot,
    In slot (slots d)
    /\ slotMatches (tok_doctorId token) (tok_date token) slot = true
    /\ S (occupancy (rebalanced (retired d k st) (tok_doctorId token) (tok_date token)
                       (slotId token)) (slot_id slot))
       = occupancy (tokens d) (slot_id slot).
Proof.
  intros Hk Hs Hst (fslot & Hfin & Hfid & Hfm).
  unfold rebalanced.
  destruct (rebalancePlan _ _ _ _) as [k'|] eqn:Ep.
  - destruct (rebalancePlan_move _ _ _ _ _ Ep)
      as (i & _ & laterSlot & c & rest & _ & _ & Hlater & Hhead).
    apply head_getTokensForSlot in Hhead. destruct Hhead as (Hc & Hsched & _).
    apply scheduledIn_spec in Hsched. destruct Hsched as [Hsid Hcs].
    apply In_drop, In_getSlotsForDoctorDay in Hlater. destruct Hlater as [Hin Hm].
    exists laterSlot. split; [exact Hin|]. split; [exact Hm|].
    pose proof (occupancy_alter_status (tokens d) k token st (slot_id laterSlot) Hk Hs Hst)
      as H1.
    pose proof (occupancy_alter_slotId _ k' c (slotId token) (slot_id laterSlot) Hc Hcs)
      as H2.
    rewrite Hsid, Nat.eqb_refl in H2. simpl in H2 |- *.
    destruct (Nat.eqb (slotId token) (slot_id laterSlot)); lia.
  - exists fslot. split; [exact Hfin|]. split; [exact Hfm|].
    pose proof (occupancy_alter_status (tokens d) k token st (slot_id fslot) Hk Hs Hst)
      as H1.
    rewrite Hfid, Nat.eqb_refl in H1. simpl. rewrite Hfid. lia.
Qed.

Lemma find_exists {A} (p : A -> bool) l x :
  In x l -> p x = true -> exists y, List.find p l = Some y.
Proof.
  intros Hin Hp. destruct (List.find p l) as [y|] eqn:E; [now exists y|].
  pose proof (find_none p l E x Hin). congruence.
Qed.

(** X15. A retirement frees a place.  In a reachable world, once
    [cancelToken] or [markNoShow] has returned a token, a valid request for
    the doctor and date of that token is served: [allocateToken] returns a new
    SCHEDULED token, stored last, in a slot of that doctor and date. *)
Theorem retirement_frees_a_place w tokenId t w' now req :
  reachable w ->
  cancelToken tokenId w = Returns (Some t) w'
  \/ markNoShow tokenId w = Returns (Some t) w' ->
  config.includes config.tokenSources (normalizedSource req) = true ->
  req_doctorId req = tok_doctorId t -> req_date req = tok_date t ->
  exists t2 slot,
    allocateToken now req w' = Returns (Some t2) (withToken w' t2)
    /\ status t2 = SCHEDULED /\ tok_id t2 = seed w'
    /\ In slot (slots (data w')) /\ slotId t2 = slot_id slot
    /\ slot_doctorId slot = tok_doctorId t /\ slot_date slot = tok_date t.
Proof.
  intros Hreach Hret Hknown Hdoc Hdate.
  pose proof (reachable_Inv w Hreach) as Hinv.
  pose proof (reachable_Integrity w Hreach) as Hint.
  assert (Hshape : exists k token st,
            tokens (data w) !! k = Some token /\ status token = SCHEDULED
            /\ st <> SCHEDULED /\ t = set_status st token
            /\ w' = withTokens w (rebalanced (retired (data w) k st)
                       (tok_doctorId token) (tok_date token) (slotId token))).
  { destruct Hret as [Hc|Hn].
    - rewrite cancelToken_run in Hc.
      destruct (findToken _ _) as [[k token]|] eqn:Ef; [|discriminate].
      destruct (status token) eqn:Es; simpl in Hc; try discriminate.
      apply findToken_Some in Ef. destruct Ef as [Hk _].
      rewrite (retired_rebalanced_lookup (data w) k token CANCELLED) in Hc
        by (auto; discriminate).
      injection Hc as <- <-. exists k, token, CANCELLED.
      repeat split; auto; discriminate.
    - rewrite markNoShow_run in Hn.
      destruct (findToken _ _) as [[k token]|] eqn:Ef; [|discriminate].
      destruct (status token) eqn:Es; simpl in Hn; try discriminate.
      apply findToken_Some in Ef. destruct Ef as [Hk _].
      rewrite (retired_rebalanced_lookup (data w) k token NO_SHOW) in Hn
        by (auto; discriminate).
      injection Hn as <- <-. exists k, token, NO_SHOW.
      repeat split; auto; discriminate. }
  destruct Hshape as (k & token & st & Hk & Hs & Hst & -> & ->).
  simpl in Hdoc, Hdate.
  destruct (int_tokens w Hint token (lookup_In _ _ _ Hk))
    as ((fslot & Hfin & Hfid & Hfd & Hft) & (doc & Hdin & Hdid) & _).
  destruct (retired_rebalanced_frees (data w) k token st Hk Hs Hst) as
    (slot & Hin & Hm & Hocc).
  { exists fslot. repeat split; auto. apply slotMatches_spec. now split. }
  set (w' := withTokens w _) in *.
  destruct (find_exists (fun d => Nat.eqb (doc_id d) (req_doctorId req))
              (doctors (data w)) doc Hdin) as (doctor & Hfind).
  { apply Nat.eqb_eq. congruence. }
  assert (Hget : getDoctorById (data w') (req_doctorId req) = Some doctor) by exact Hfind.
  destruct (getDoctorById_In _ _ _ Hget) as [_ Hid].
  assert (Hex : In slot (existingSlots w' doctor (req_date req))).
  { unfold existingSlots. apply filter_In. split; [exact Hin|].
    now rewrite Hid, Hdoc, Hdate. }
  assert (Hgen : generateSlotsForDay doctor (req_date req) w'
                 = Returns (existingSlots w' doctor (req_date req)) w').
  { apply generateSlotsForDay_existing. intros E. now rewrite E in Hex. }
  assert (Hroom : hasRoom (data w') slot = true).
  { apply hasRoom_spec. pose proof (inv_capacity w Hinv slot Hin) as Hcap.
    subst w'. simpl. lia. }
  destruct (find_exists (hasRoom (data w'))
              (getSlotsForDoctorDay (data w') (req_doctorId req) (req_date req)) slot)
    as (free & Hfree); [|exact Hroom|].
  { apply In_getSlotsForDoctorDay. split; [exact Hin|]. now rewrite Hdoc, Hdate. }
  pose proof (find_some _ _ Hfree) as [Hfree_in _].
  apply In_getSlotsForDoctorDay in Hfree_in. destruct Hfree_in as [Hfree_in Hfree_m].
  apply slotMatches_spec in Hfree_m. destruct Hfree_m as [Hfd' Hft'].
  rewrite allocateToken_run.
  destruct (normalizedSource req) as [src|]; [|discriminate].
  rewrite Hknown. simpl negb. cbv iota. rewrite Hget, Hgen, Hfree.
  eexists _, free. split; [reflexivity|].
  simpl. repeat split; auto; congruence.
Qed.

Lemma retirement_frees_a_place_witness :
  exists t2 slot,
    allocateToken "t3" (requestA (Some "PAID") false) wCancelled
    = Returns (Some t2) (withToken wCancelled t2)
    /\ status t2 = SCHEDULED /\ tok_id t2 = seed wCancelled
    /\ In slot (slots (data wCancelled)) /\ slotId t2 = slot_id slot
    /\ slot_doctorId slot = 0%nat /\ slot_date slot = day1.
Proof.
  exact (retirement_frees_a_place wFull 3
           (mkToken 3 0 1 day1 "patient" "WALK_IN" 1 CANCELLED "t1") wCancelled
           "t3" (requestA (Some "PAID") false)
           reachable_wFull (or_introl eq_refl) eq_refl eq_refl eq_refl).
Defined.

(** ** The host's statistics *)

Lemma Status_eqb_eq a b : Status_eqb a b = true <-> a = b.
Proof. destruct a, b; simpl; split; congruence. Qed.

Lemma Status_eqb_refl a : Status_eqb a a = true.
Proof. now apply Status_eqb_eq. Qed.

Lemma getCount_setCount_same acc key v : getCount (setCount acc key v) key = Some v.
Proof.
  induction acc as [|[k n] rest IH]; simpl.
  - now rewrite Status_eqb_refl.
  - destruct (Status_eqb k key) eqn:E; simpl; rewrite E; [reflexivity|exact IH].
Qed.

Lemma getCount_setCount_other acc key v other :
  other <> key -> getCount (setCount acc key v) other = getCount acc other.
Proof.
  intros Hne. induction acc as [|[k n] rest IH]; simpl.
  - destruct (Status_eqb key other) eqn:E; [|reflexivity].
    apply Status_eqb_eq in E. congruence.
  - destruct (Status_eqb k key) eqn:E; simpl.
    + apply Status_eqb_eq in E. subst k.
      destruct (Status_eqb key other) eqn:E2; [|reflexivity].
      apply Status_eqb_eq in E2. congruence.
    + now rewrite IH.
Qed.

Lemma getCount_None acc key : getCount acc key = None <-> ~ In key (map fst acc).
Proof.
  induction acc as [|[k n] rest IH]; simpl; [tauto|].
  destruct (Status_eqb k key) eqn:E.
  - apply Status_eqb_eq in E. split; [discriminate|tauto].
  - rewrite IH. split; [|tauto]. intros H [Hk|Hin]; [|tauto].
    subst k. now rewrite Status_eqb_refl in E.
Qed.

Lemma keys_setCount acc key v :
  map fst (setCount acc key v)
  = match getCount acc key with
    | Some _ => map fst acc
    | None => map fst acc ++ [key]
    end.
Proof.
  induction acc as [|[k n] rest IH]; simpl; [reflexivity|].
  destruct (Status_eqb k key) eqn:E; simpl; [reflexivity|].
  rewrite IH. now destruct (getCount rest key).
Qed.

Lemma sum_setCount acc key v :
  (list_sum (map snd (setCount acc key v)) + default 0 (getCount acc key)
   = list_sum (map snd acc) + v)%nat.
Proof.
  induction acc as [|[k n] rest IH]; simpl; [lia|].
  destruct (Status_eqb k key) eqn:E; simpl; lia.
Qed.

Lemma NoDup_snoc {A} (l : list A) x : NoDup l -> ~ In x l -> NoDup (l ++ [x]).
Proof.
  intros Hl Hx. apply NoDup_app. repeat split; [exact Hl| |apply NoDup_singleton].
  intros y Hy Hn. apply list_elem_of_In in Hy. apply list_elem_of_In in Hn.
  destruct Hn as [<-|[]]. now apply Hx.
Qed.

(** What the [reduce] has built after the tokens [ts], from any start. *)
Lemma tokensByStatus_fold ts acc :
  let step := fun acc t =>
    setCount acc (status t) (orZero (getCount acc (status t)) + 1)%nat in
  Forall (fun p => (0 < snd p)%nat) acc -> NoDup (map fst acc) ->
  let out := fold_left step ts acc in
  (forall st, orZero (getCount out st) = (orZero (getCount acc st) + withStatus st ts)%nat)
  /\ Forall (fun p => (0 < snd p)%nat) out
  /\ NoDup (map fst out)
  /\ list_sum (map snd out) = (list_sum (map snd acc) + length ts)%nat.
Proof.
  intros step. revert acc. induction ts as [|t ts IH]; intros acc Hpos Hnd; simpl.
  - repeat split; auto; intros; unfold withStatus; simpl; lia.
  - assert (Hpos' : Forall (fun p => (0 < snd p)%nat) (step acc t)).
    { unfold step. generalize (orZero (getCount acc (status t))). intros v.
      clear -Hpos. induction Hpos as [|[k n] rest Hn Hrest IHp]; simpl.
      - constructor; [simpl; lia|constructor].
      - destruct (Status_eqb k (status t)); constructor; simpl; auto; lia. }
    assert (Hnd' : NoDup (map fst (step acc t))).
    { unfold step. rewrite keys_setCount.
      destruct (getCount acc (status t)) eqn:E; [exact Hnd|].
      apply NoDup_snoc; [exact Hnd|now apply getCount_None]. }
    destruct (IH (step acc t) Hpos' Hnd') as (Hc & Hp & Hn & Hs).
    split; [|split; [exact Hp|split; [exact Hn|]]].
    + intros st. rewrite Hc. unfold withStatus. simpl. unfold step.
      destruct (Status_eqb (status t) st) eqn:E.
      * apply Status_eqb_eq in E. subst st. rewrite getCount_setCount_same.
        simpl. replace (orZero (getCount acc (status t)) + 1)%nat
          with (S (orZero (getCount acc (status t)))) by lia. simpl. lia.
      * rewrite getCount_setCount_other; [lia|].
        intros ->. now rewrite Status_eqb_refl in E.
    + rewrite Hs. unfold step.
      pose proof (sum_setCount acc (status t)
                    (orZero (getCount acc (status t)) + 1)%nat) as Hsum.
      assert (Hz : default 0%nat (getCount acc (status t))
                   = orZero (getCount acc (status t))).
      { destruct (getCount acc (status t)) as [[|n]|]; reflexivity. }
      lia.
Qed.

(** X16. The statistics of the host.  [tokensByStatus] has one key for each
    status that some stored token has, in the order of their first
    occurrence and none twice; the value of a key is the number of stored
    tokens with that status, and a status that no token has is no key; the
    values add up to the [tokens] figure, and the value for SCHEDULED is the
    number of SCHEDULED tokens of the store. *)
Theorem stats_counts w :
  let s := stats (data w) in
  (forall st, getCount (st_tokensByStatus s) st
              = if (withStatus st (tokens (data w)) =? 0)%nat then None
                else Some (withStatus st (tokens (data w))))
  /\ NoDup (map fst (st_tokensByStatus s))
  /\ list_sum (map snd (st_tokensByStatus s)) = st_tokens s
  /\ orZero (getCount (st_tokensByStatus s) SCHEDULED) = scheduledCount w.
Proof.
  simpl. unfold tokensByStatus.
  destruct (tokensByStatus_fold (tokens (data w)) [] (List.Forall_nil _) NoDup_nil_2)
    as (Hc & Hp & Hn & Hs).
  simpl in Hc, Hs. repeat split; auto.
  - intros st. specialize (Hc st).
    destruct (getCount _ st) as [n|] eqn:E.
    + assert (Hpos : (0 < n)%nat).
      { rewrite List.Forall_forall in Hp. clear -E Hp.
        induction (fold_left _ _ _) as [|[k m] rest IH]; simpl in E; [discriminate|].
        destruct (Status_eqb k st).
        - injection E as ->. apply (Hp (k, n)). now left.
        - apply IH; [exact E|]. intros x Hx. apply Hp. now right. }
      destruct n as [|n]; [lia|]. simpl in Hc. rewrite <- Hc. reflexivity.
    + simpl in Hc. now rewrite <- Hc.
Qed.

(** ** Bookings in the schedule *)

Lemma token_ids_unique (ts : list Token) i j a b :
  NoDup (map tok_id ts) -> ts !! i = Some a -> ts !! j = Some b ->
  tok_id a = tok_id b -> a = b.
Proof.
  intros Hn Hi Hj Heq.
  assert (Hij : i = j).
  { apply (NoDup_lookup (map tok_id ts) i j (tok_id a)); [exact Hn| |].
    - change (map tok_id ts) with (tok_id <$> ts). now rewrite list_lookup_fmap, Hi.
    - change (map tok_id ts) with (tok_id <$> ts). rewrite list_lookup_fmap, Hj.
      simpl. now rewrite Heq. }
  subst j. congruence.
Qed.

(** The token views of a schedule are the views of the SCHEDULED tokens of
    the slots of the day. *)
Lemma In_getSchedule did date w views v tv :
  getSchedule did date w = Returns views w ->
  In v views -> In tv (sv_tokens v) ->
  exists slot k t,
    In slot (slots (data w)) /\ slotMatches did date slot = true
    /\ sv_slotId v = slot_id slot
    /\ tokens (data w) !! k = Some t /\ scheduledIn (slot_id slot) t = true
    /\ tv = viewOf t.
Proof.
  intros [= <-] Hv Htv. apply in_map_iff in Hv. destruct Hv as (slot & <- & Hin).
  simpl in Htv. apply in_map_iff in Htv. destruct Htv as ([k t] & <- & Hkt).
  apply In_getTokensForSlot in Hkt. destruct Hkt as [Hk Hs].
  apply In_getSlotsForDoctorDay in Hin. destruct Hin as [Hin Hm].
  exists slot, k, t. repeat split; auto.
Qed.

(** X17. Bookings in the schedule.  In a reachable world the schedule of a
    stored token's doctor and date shows the token, if it is SCHEDULED, in
    the view of its slot and in no other view; a token that is CANCELLED or
    NO_SHOW is in no view of any schedule. *)
Theorem schedule_shows_bookings w k t :
  reachable w -> tokens (data w) !! k = Some t ->
  (status t = SCHEDULED ->
   exists views v,
     getSchedule (tok_doctorId t) (tok_date t) w = Returns views w
     /\ In v views /\ sv_slotId v = slotId t /\ In (viewOf t) (sv_tokens v)
     /\ forall v' tv, In v' views -> In tv (sv_tokens v') -> tv_id tv = tok_id t ->
          sv_slotId v' = slotId t /\ tv = viewOf t)
  /\ (status t <> SCHEDULED ->
      forall did date views v tv,
        getSchedule did date w = Returns views w ->
        In v views -> In tv (sv_tokens v) -> tv_id tv <> tok_id t).
Proof.
  intros Hreach Hk.
  pose proof (reachable_Integrity w Hreach) as Hint.
  pose proof (int_token_ids w Hint) as Hids.
  split.
  - intros Hs.
    destruct (int_tokens w Hint t (lookup_In _ _ _ Hk))
      as ((slot & Hin & Hid & Hd & Hdt) & _).
    eexists _, _. split; [reflexivity|]. split; [|split; [|split]].
    + apply in_map. apply In_getSlotsForDoctorDay. split; [exact Hin|].
      apply slotMatches_spec. now split.
    + exact Hid.
    + simpl. apply in_map_iff. exists (k, t). split; [reflexivity|].
      apply In_getTokensForSlot. split; [exact Hk|].
      apply scheduledIn_spec. now split.
    + intros v' tv Hv' Htv Hsame.
      destruct (In_getSchedule _ _ _ _ _ _ eq_refl Hv' Htv)
        as (slot' & k' & t' & _ & _ & Hsv & Hk' & Hsched & ->).
      simpl in Hsame.
      assert (Ht : t' = t) by exact (token_ids_unique _ _ _ _ _ Hids Hk' Hk Hsame).
      subst t'. apply scheduledIn_spec in Hsched. destruct Hsched as [Hsl _].
      split; [congruence|reflexivity].
  - intros Hs did date views v tv Hrun Hv Htv Hsame.
    destruct (In_getSchedule _ _ _ _ _ _ Hrun Hv Htv)
      as (slot' & k' & t' & _ & _ & _ & Hk' & Hsched & ->).
    simpl in Hsame.
    assert (Ht : t' = t) by exact (token_ids_unique _ _ _ _ _ Hids Hk' Hk Hsame).
    subst t'. apply scheduledIn_spec in Hsched. tauto.
Qed.

Lemma schedule_shows_bookings_witness :
  exists views v,
    getSchedule 0 day1 wFull = Returns views wFull
    /\ In v views /\ sv_slotId v = 2%nat
    /\ In (mkTokenView 4 "patient" "ONLINE" 2 SCHEDULED) (sv_tokens v).
Proof.
  destruct (proj1 (schedule_shows_bookings wFull 1%nat
                     (mkToken 4 0 2 day1 "patient" "ONLINE" 2 SCHEDULED "t2")
                     reachable_wFull eq_refl) eq_refl)
    as (views & v & Hrun & Hv & Hid & Htv & _).
  exists views, v. repeat split; assumption.
Defined.
